(** * The CI release workflow of martin (.github/workflows/ci.yml)

    The workflow cross-compiles three binaries for two musl targets,
    regroups them under [target_releases/linux/<arch>], makes sure the
    ECR public repository exists and pushes one container image per
    platform under the tag [martin:latest].

    The embedding follows the workflow file: the job is a list of steps,
    a step is either a shell script (run under [bash -eo pipefail], which
    is what [defaults.run.shell: bash] selects) or an action whose code is
    outside the repository.  Scripts are terms of a small command monad
    over the runner's workspace, the shell environment and the registry;
    external programs ([cross], [aws], the build-push action) take their
    verdicts from a [world]. *)

From Stdlib Require Import Ascii.
From stdpp Require Import gmap strings list fin_maps.

Set Warnings "-register-all".

(** ** The workspace: a tree of directories and regular files *)

Inductive node :=
| File (data : string)
| Dir (entries : gmap string node).

(** A path relative to the workspace, one component per element:
    [target_releases/linux/arm64] is [["target_releases"; "linux"; "arm64"]]. *)
Definition path := list string.

Fixpoint lookup_path (p : path) (n : node) : option node :=
  match p with
  | [] => Some n
  | x :: p' =>
      match n with
      | Dir m => m !! x ≫= lookup_path p'
      | File _ => None
      end
  end.

(** The entries of the directory at [p]; [None] when [p] is missing or is
    a regular file. *)
Definition ls (p : path) (n : node) : option (gmap string node) :=
  match lookup_path p n with
  | Some (Dir m) => Some m
  | _ => None
  end.

(** [mkdir -p p]: every missing component is created, existing directories
    are kept as they are, and a regular file on the way is an error. *)
Fixpoint mkdir_p (p : path) (n : node) : option node :=
  match n with
  | File _ => None
  | Dir m =>
      match p with
      | [] => Some n
      | x :: p' =>
          child ← mkdir_p p' (default (Dir ∅) (m !! x));
          Some (Dir (<[x := child]> m))
      end
  end.

(** Rewrites the entries of the existing directory at [p]. *)
Fixpoint modify_dir (p : path) (f : gmap string node → gmap string node)
    (n : node) : option node :=
  match n with
  | File _ => None
  | Dir m =>
      match p with
      | [] => Some (Dir (f m))
      | x :: p' =>
          child ← m !! x;
          child' ← modify_dir p' f child;
          Some (Dir (<[x := child']> m))
      end
  end.

(** rename(2) as [mv] uses it: a regular file replaces a regular file, a
    directory replaces an empty directory, and nothing else is replaced. *)
Definition can_replace (v : node) (old : option node) : bool :=
  match old, v with
  | None, _ => true
  | Some (File _), File _ => true
  | Some (Dir m), Dir _ => bool_decide (size m = 0)
  | _, _ => false
  end.

(** Two paths that part ways at some component: neither lies inside the
    other. *)
Fixpoint apart (p q : path) : bool :=
  match p, q with
  | x :: p', y :: q' => if decide (x = y) then apart p' q' else true
  | _, _ => false
  end.

(** [mv sdir/name dst] for a destination that is an existing directory:
    the entry moves to [dst/name].  The scripts only call [mv] with
    a directory as its last operand, created by the [mkdir -p] just before;
    a destination that is not a directory makes this model fail, and so
    does a destination inside or around the source directory. *)
Definition mv (sdir : path) (name : string) (dst : path) (n : node)
    : node * bool :=
  match ls sdir n ≫= (.!! name), ls dst n with
  | Some v, Some md =>
      if can_replace v (md !! name) && apart sdir dst then
        match modify_dir sdir (delete name) n ≫= modify_dir dst <[name := v]> with
        | Some n' => (n', true)
        | None => (n, false)
        end
      else (n, false)
  | _, _ => (n, false)
  end.

(** File names that the pattern [*] does not match. *)
Definition hidden (name : string) : bool :=
  match name with
  | String "."%char _ => true
  | _ => false
  end.

Definition glob_star (m : gmap string node) : gmap string node :=
  filter (λ kv, hidden kv.1 = false) m.

(** The operands of a [mv] into the directory with entries [md] that can
    replace what is there under their name. *)
Definition movable (matched md : gmap string node) : gmap string node :=
  filter (λ kv, can_replace kv.2 (md !! kv.1) = true) matched.

(** [mv src/* dst/].  The pattern expands to the entries of [src] whose
    name does not start with a dot; with no match it stays as it is
    written and [mv] cannot stat it.  The operands have different names,
    so each one moves or fails on its own: those that can replace what is
    at the destination move, and [mv] succeeds when all of them did. *)
Definition mv_glob (src dst : path) (n : node) : node * bool :=
  match ls src n, ls dst n with
  | Some ms, Some md =>
      let matched := glob_star ms in
      let moved := movable matched md in
      if bool_decide (size matched = 0) || negb (apart src dst) then (n, false)
      else
        match modify_dir src (λ m, m ∖ moved) n ≫= modify_dir dst (λ m, moved ∪ m) with
        | Some n' => (n', bool_decide (size moved = size matched))
        | None => (n, false)
        end
  | _, _ => (n, false)
  end.

(** ** The registry *)

(** The repositories that exist, and for each image tag the platforms of
    the manifest it points to. *)
Record registry := Registry {
  repos : gset string;
  tags : gmap string (list string)
}.

Inductive aws_error :=
| RepositoryNotFound
| RepositoryAlreadyExists
| AccessDenied
| LimitExceeded
| NetworkFailure.

#[global] Instance aws_error_eq_dec : EqDecision aws_error.
Proof. solve_decision. Defined.

(** [aws ecr-public describe-repositories --repository-name name]: exit
    status 0 ([None]) when the call goes through and the repository is
    there.  [fault] is what the environment does to this call. *)
Definition describe_repositories (fault : option aws_error) (name : string)
    (r : registry) : option aws_error :=
  match fault with
  | Some e => Some e
  | None => if decide (name ∈ repos r) then None else Some RepositoryNotFound
  end.

(** [aws ecr-public create-repository --repository-name name]. *)
Definition create_repository (fault : option aws_error) (name : string)
    (r : registry) : registry * option aws_error :=
  match fault with
  | Some e => (r, Some e)
  | None =>
      if decide (name ∈ repos r) then (r, Some RepositoryAlreadyExists)
      else (Registry ({[name]} ∪ repos r) (tags r), None)
  end.

(** Pushing an image under a tag points the tag to that image: the tag's
    manifest lists the platforms of this build and nothing else. *)
Definition push_image (tag : string) (platforms : list string) (r : registry)
    : registry :=
  Registry (repos r) (<[tag := platforms]> (tags r)).

(** ** The world outside the workflow file *)

(** What one [cross build] leaves behind: its exit status and the files it
    wrote to [target/<target>/release/]. *)
Record tool_result := ToolResult {
  exit_ok : bool;
  outputs : gmap string string
}.

Inductive step_id :=
| InstallCross
| CheckoutSources
| RustCache
| InitDatabase
| SetUpQemu
| SetUpDockerBuildx
| BuildTargets
| SaveBuildArtifacts
| ReorganizeArtifacts
| StartNginx
| CopyStaticFiles
| EnsureEcrPublicRepositoryExists
| ConfigureAwsCredentials
| LogInToAmazonEcrPublic
| BuildLinuxArm64DockerImage
| BuildLinuxAmd64DockerImage.

#[global] Instance step_id_eq_dec : EqDecision step_id.
Proof. solve_decision. Defined.

Record world := World {
  (** [github.event_name] *)
  event_name : string;
  (** whether a step that runs code from outside the workflow file
      succeeds *)
  action_ok : step_id → bool;
  (** [cross build --release --target t --package p], under the RUSTFLAGS
      that cargo reads for [t] *)
  cross_build : string → string → option string → tool_result;
  describe_fault : option aws_error;
  create_fault : option aws_error;
  (** whether docker/build-push-action builds the Dockerfile for these
      platforms from this workspace and pushes the result *)
  image_push : list string → node → bool
}.

(** ** Shell state and commands *)

Record state := State {
  fs : node;
  env : gmap string string;
  reg : registry
}.

Inductive event :=
| EToolchain (target package : string) (rustflags : option string) (ok : bool)
| EDescribe (name : string) (err : option aws_error)
| ECreate (name : string) (err : option aws_error)
| EPush (platforms : list string) (tag : string) (ok : bool).

Record outcome := Outcome {
  final : state;
  ok : bool;
  events : list event
}.

(** A command maps the state to a new state, an exit status and the calls
    it made to the outside. *)
Definition cmd := state → outcome.

Definition skip : cmd := λ s, Outcome s true [].

(** [c1] then [c2] under [set -e]: a failing [c1] ends the script. *)
Definition seq (c1 c2 : cmd) : cmd := λ s,
  let r1 := c1 s in
  if ok r1 then
    let r2 := c2 (final r1) in
    Outcome (final r2) (ok r2) (events r1 ++ events r2)
  else r1.

(** [c1 || c2]: [c2] runs when [c1] fails, and the list has the status of
    the last command that ran. *)
Definition or_else (c1 c2 : cmd) : cmd := λ s,
  let r1 := c1 s in
  if ok r1 then r1
  else
    let r2 := c2 (final r1) in
    Outcome (final r2) (ok r2) (events r1 ++ events r2).

Declare Scope cmd_scope.
Delimit Scope cmd_scope with cmd.
Bind Scope cmd_scope with cmd.
Notation "c1 ;; c2" := (seq c1 c2)
  (at level 100, c2 at level 200, right associativity) : cmd_scope.
Notation "c1 ||| c2" := (or_else c1 c2)
  (at level 50, left associativity) : cmd_scope.

(** [for x in xs; do body; done] *)
Fixpoint for_each {A} (xs : list A) (body : A → cmd) : cmd :=
  match xs with
  | [] => skip
  | x :: xs' => (body x ;; for_each xs' body)%cmd
  end.

Definition with_fs (s : state) (n : node) : state := State n (env s) (reg s).
Definition with_reg (s : state) (r : registry) : state := State (fs s) (env s) r.

Definition fs_cmd (f : node → node * bool) : cmd := λ s,
  let '(n, b) := f (fs s) in Outcome (with_fs s n) b [].

Definition mkdir_p_cmd (p : path) : cmd :=
  fs_cmd (λ n, match mkdir_p p n with Some n' => (n', true) | None => (n, false) end).

Definition mv_cmd (sdir : path) (name : string) (dst : path) : cmd :=
  fs_cmd (mv sdir name dst).

Definition mv_glob_cmd (src dst : path) : cmd := fs_cmd (mv_glob src dst).

(** [export name=value] for a [name] that is an identifier, as the names
    of line 82 are when the target is written with letters, digits,
    dashes and underscores (the two targets of the workflow are); bash
    refuses other names, which this model does not follow. *)
Definition export (name value : string) : cmd := λ s,
  Outcome (State (fs s) (<[name := value]> (env s)) (reg s)) true [].

(** [tr 'a-z-' 'A-Z_'] on one character, and on a string. *)
Definition tr_char (c : ascii) : ascii :=
  let n := nat_of_ascii c in
  if decide (97 ≤ n ∧ n ≤ 122) then ascii_of_nat (n - 32)
  else if decide (c = "-"%char) then "_"%char
  else c.

Fixpoint tr (s : string) : string :=
  match s with
  | EmptyString => EmptyString
  | String c s' => String (tr_char c) (tr s')
  end.

(** ["CARGO_TARGET_$(echo $target | tr 'a-z-' 'A-Z_')_RUSTFLAGS"], for a
    [target] that [echo $target] prints as it is: one word without blanks
    or pattern characters that is no option of [echo] (see [starts_alnum]
    and [rustc_char] below).  Word splitting, pathname expansion and the
    options of [echo] are not modelled. *)
Definition rustflags_var (target : string) : string :=
  "CARGO_TARGET_" +:+ tr target +:+ "_RUSTFLAGS".

(** [cross build --release --target target --package package].  Cargo
    takes the flags for [target] from the variable [rustflags_var target].
    Of the files it writes the model keeps those in
    [target/<target>/release/], where the script looks for the binaries;
    what else cargo leaves under [target/] is not modelled. *)
Definition cross_build_cmd (w : world) (target package : string) : cmd := λ s,
  let flags := env s !! rustflags_var target in
  let r := cross_build w target package flags in
  let dir := ["target"; target; "release"] in
  match mkdir_p dir (fs s) ≫= modify_dir dir (λ m, (File <$> outputs r) ∪ m) with
  | Some n => Outcome (with_fs s n) (exit_ok r) [EToolchain target package flags (exit_ok r)]
  | None => Outcome s false [EToolchain target package flags false]
  end.

(** ** The scripts of the workflow *)

(** The list of the [for] loop of "Build targets". *)
Definition targets : list string :=
  ["aarch64-unknown-linux-musl"; "x86_64-unknown-linux-musl"].

(** The body of the loop (the two [echo] lines print and cannot fail). *)
Definition build_target (w : world) (target : string) : cmd :=
  (export (rustflags_var target) "-C strip=debuginfo" ;;
   cross_build_cmd w target "mbtiles" ;;
   cross_build_cmd w target "martin" ;;
   mkdir_p_cmd ["target_releases"; target] ;;
   mv_cmd ["target"; target; "release"] "martin" ["target_releases"; target] ;;
   mv_cmd ["target"; target; "release"] "martin-cp" ["target_releases"; target] ;;
   mv_cmd ["target"; target; "release"] "mbtiles" ["target_releases"; target])%cmd.

Definition build_targets_in (ts : list string) (w : world) : cmd :=
  for_each ts (build_target w).

(** "Build targets" *)
Definition build_targets (w : world) : cmd := build_targets_in targets w.

(** One [mkdir -p] / [mv] pair of "Reorganize artifacts for docker build":
    the binaries of [triple] go to [target_releases/<platform>/]. *)
Definition collect (triple : string) (platform : path) : cmd :=
  (mkdir_p_cmd ("target_releases" :: platform) ;;
   mv_glob_cmd ["target_releases"; triple] ("target_releases" :: platform))%cmd.

(** Which platform directory the script gives to which triple. *)
Definition architecture_mapping : list (string * path) :=
  [("aarch64-unknown-linux-musl", ["linux"; "arm64"]);
   ("x86_64-unknown-linux-musl", ["linux"; "amd64"])].

(** "Reorganize artifacts for docker build" *)
Definition reorganize_artifacts : cmd :=
  (collect "aarch64-unknown-linux-musl" ["linux"; "arm64"] ;;
   collect "x86_64-unknown-linux-musl" ["linux"; "amd64"])%cmd.

Definition succeeded (e : option aws_error) : bool :=
  match e with
  | None => true
  | Some _ => false
  end.

Definition aws_describe_repositories (w : world) (name : string) : cmd := λ s,
  let e := describe_repositories (describe_fault w) name (reg s) in
  Outcome s (succeeded e) [EDescribe name e].

Definition aws_create_repository (w : world) (name : string) : cmd := λ s,
  let '(r, e) := create_repository (create_fault w) name (reg s) in
  Outcome (with_reg s r) (succeeded e) [ECreate name e].

(** "Ensure ECR public repository exists": [describe || create], both for
    the repository [martin] in the one region [us-east-1]. *)
Definition ensure_ecr_public_repository_exists (w : world) : cmd :=
  (aws_describe_repositories w "martin" ||| aws_create_repository w "martin")%cmd.

Definition image_tag : string := "public.ecr.aws/s8c6d7p4/martin:latest".

(** docker/build-push-action with [push: true]: builds for [platforms] and
    pushes the image under [tag]. *)
Definition build_push_action (w : world) (platforms : list string)
    (tag : string) : cmd := λ s,
  let b := image_push w platforms (fs s) in
  Outcome (if b then with_reg s (push_image tag platforms (reg s)) else s) b
    [EPush platforms tag b].

(** ** The job *)

Record step := Step {
  id : step_id;
  (** the step's [if:], on top of the implicit [success()] *)
  enabled : world → bool;
  run : world → cmd
}.

(** A step whose code is not in the workflow file: it leaves the modelled
    state alone, and the world says whether it succeeds. *)
Definition uses (i : step_id) : step :=
  Step i (λ _, true) (λ w s, Outcome s (action_ok w i) []).

Definition rust_cache : step :=
  Step RustCache
    (λ w, bool_decide (event_name w ≠ "release")
          && bool_decide (event_name w ≠ "workflow_dispatch"))
    (λ w s, Outcome s (action_ok w RustCache) []).

Definition build_linux_arm64_docker_image : step :=
  Step BuildLinuxArm64DockerImage (λ _, true)
    (λ w, build_push_action w ["linux/arm64"] image_tag).

Definition build_linux_amd64_docker_image : step :=
  Step BuildLinuxAmd64DockerImage (λ _, true)
    (λ w, build_push_action w ["linux/amd64"] image_tag).

(** The steps of the job [docker-build-test], in the order of the file. *)
Definition job_steps : list step :=
  [ uses InstallCross;
    uses CheckoutSources;
    rust_cache;
    uses InitDatabase;
    uses SetUpQemu;
    uses SetUpDockerBuildx;
    Step BuildTargets (λ _, true) build_targets;
    uses SaveBuildArtifacts;
    Step ReorganizeArtifacts (λ _, true) (λ _, reorganize_artifacts);
    uses StartNginx;
    uses CopyStaticFiles;
    Step EnsureEcrPublicRepositoryExists (λ _, true)
      ensure_ecr_public_repository_exists;
    uses ConfigureAwsCredentials;
    uses LogInToAmazonEcrPublic;
    build_linux_arm64_docker_image;
    build_linux_amd64_docker_image ].

(** The two steps that publish, and the platforms they are asked for. *)
Definition publish_steps : list step :=
  [build_linux_arm64_docker_image; build_linux_amd64_docker_image].

Definition platforms : list string := ["linux/arm64"; "linux/amd64"].

Record step_record := StepRecord {
  rid : step_id;
  rok : bool;
  revents : list event
}.

Record job_outcome := JobOutcome {
  jfinal : state;
  jok : bool;
  jsteps : list step_record
}.

(** Every [run:] step is a shell of its own: what it exported is gone when
    it ends, the workspace and the registry stay. *)
Definition leave_shell (before after : state) : state :=
  State (fs after) (env before) (reg after).

(** Steps run in order; a step runs when every step before it succeeded
    and its own condition holds; the job fails with its first failing
    step, and the steps after that one are skipped. *)
Fixpoint run_steps (w : world) (steps : list step) (s : state) : job_outcome :=
  match steps with
  | [] => JobOutcome s true []
  | st :: rest =>
      if enabled st w then
        let r := run st w s in
        let rec := StepRecord (id st) (ok r) (events r) in
        if ok r then
          let j := run_steps w rest (leave_shell s (final r)) in
          JobOutcome (jfinal j) (jok j) (rec :: jsteps j)
        else JobOutcome (leave_shell s (final r)) false [rec]
      else run_steps w rest s
  end.

Definition run_job (w : world) (s : state) : job_outcome := run_steps w job_steps s.

Definition publish (w : world) (s : state) : job_outcome := run_steps w publish_steps s.

(** Everything the job called outside, in order. *)
Definition jevents (j : job_outcome) : list event :=
  concat (revents <$> jsteps j).

Definition is_push (e : event) : bool :=
  match e with
  | EPush _ _ _ => true
  | _ => false
  end.

Definition is_toolchain (e : event) : bool :=
  match e with
  | EToolchain _ _ _ _ => true
  | _ => false
  end.

(** ** Two runs of the provisioning script at once *)

(** Where one run of [describe || create] stands. *)
Inductive position :=
| AtDescribe
| AtCreate
| Exited (status : option aws_error).

#[global] Instance position_eq_dec : EqDecision position.
Proof. solve_decision. Defined.

(** One call of the script at [p] against the registry. *)
Definition ensure_step (fault : option aws_error) (name : string)
    (p : position) (r : registry) : position * registry :=
  match p with
  | AtDescribe =>
      match describe_repositories fault name r with
      | None => (Exited None, r)
      | Some _ => (AtCreate, r)
      end
  | AtCreate =>
      let '(r', e) := create_repository fault name r in (Exited e, r')
  | Exited _ => (p, r)
  end.

Record race := Race {
  first : position;
  second : position;
  shared : registry
}.

(** A schedule says whose call goes next ([true]: the first run) and what
    the environment does to it. *)
Fixpoint interleave (name : string) (sched : list (bool * option aws_error))
    (c : race) : race :=
  match sched with
  | [] => c
  | (true, fault) :: sched' =>
      let '(p, r) := ensure_step fault name (first c) (shared c) in
      interleave name sched' (Race p (second c) r)
  | (false, fault) :: sched' =>
      let '(p, r) := ensure_step fault name (second c) (shared c) in
      interleave name sched' (Race (first c) p r)
  end.

(** ** Properties of commands *)

(** [c] never changes the component [f] of the state. *)
Definition keeps {A} (f : state → A) (c : cmd) : Prop :=
  ∀ s, f (final (c s)) = f s.

(** [c] only makes calls of kind [Q]. *)
Definition emits (Q : event → Prop) (c : cmd) : Prop :=
  ∀ s, Forall Q (events (c s)).

(** The three binaries that "Build targets" moves out of
    [target/<target>/release]. *)
Definition binaries : gset string := {[ "martin"; "martin-cp"; "mbtiles" ]}.

Fixpoint steps_until (i : step_id) (steps : list step) : list step :=
  match steps with
  | [] => []
  | st :: rest => if decide (id st = i) then [] else st :: steps_until i rest
  end.

(** The steps of the job that come before step [i] in the file. *)
Definition steps_before (i : step_id) : list step := steps_until i job_steps.

(** What the workspace has at [q]. *)
Definition at_path (q : path) (s : state) : option node := lookup_path q (fs s).

(** [c] keeps [P] once it holds. *)
Definition preserves (P : state → Prop) (c : cmd) : Prop :=
  ∀ s, P s → P (final (c s)).

(** No regular file is in the way of [mkdir -p q]. *)
Definition can_mkdir (q : path) (s : state) : Prop := is_Some (mkdir_p q (fs s)).

(** Steps that succeed and leave the modelled state alone. *)
Definition quiet (w : world) (l : list step) : Prop :=
  ∀ st s, st ∈ l → run st w s = Outcome s true [].

(** ** The files of a round of the loop *)

(** What the two toolchain calls of the round for [t] wrote to
    [target/<t>/release]: the package martin is built last, so its file
    wins where both calls wrote one of the same name. *)
Definition built (w : world) (t : string) : gmap string string :=
  outputs (cross_build w t "martin" (Some "-C strip=debuginfo"))
  ∪ outputs (cross_build w t "mbtiles" (Some "-C strip=debuginfo")).

(** The three binaries among them, as the files that the round moves to
    [target_releases/<t>]. *)
Definition staged_files (w : world) (t : string) : gmap string node :=
  File <$> filter (λ kv, kv.1 ∈ binaries) (built w t).

(** A workspace in which every platform directory holds the binaries
    built for its triple, and nothing else. *)
Definition collected (w : world) (n : node) : Prop :=
  ∀ triple platform, (triple, platform) ∈ architecture_mapping →
    ls ("target_releases" :: platform) n = Some (staged_files w triple).

(** ** Names of variables *)

Fixpoint string_forall (P : ascii → bool) (s : string) : bool :=
  match s with
  | EmptyString => true
  | String c s' => P c && string_forall P s'
  end.

Definition in_range (lo hi : nat) (c : ascii) : bool :=
  bool_decide (lo ≤ nat_of_ascii c ∧ nat_of_ascii c ≤ hi).

(** The characters that [tr 'a-z-' 'A-Z_'] turns into a character of a
    variable name: [a-zA-Z0-9_-]. *)
Definition triple_char (c : ascii) : bool :=
  in_range 97 122 c || in_range 65 90 c || in_range 48 57 c
  || bool_decide (c = "-"%char) || bool_decide (c = "_"%char).

(** The characters of the target triples that rustc knows:
    [a-zA-Z0-9_.-]. *)
Definition rustc_char (c : ascii) : bool :=
  triple_char c || bool_decide (c = "."%char).

(** A target that starts with a letter or a digit: it is not empty and is
    no option of [echo].  Written with the characters above, it has no
    blank and no pattern character either, so where the script writes
    [$target] without quotes the shell passes it on as one word, as it
    is. *)
Definition starts_alnum (t : string) : bool :=
  match t with
  | String c _ => in_range 97 122 c || in_range 65 90 c || in_range 48 57 c
  | EmptyString => false
  end.

(** Lower-case letters, digits and the dash, [a-z0-9-]: the characters
    on which [tr 'a-z-' 'A-Z_'] is one-to-one. *)
Definition lower_triple_char (c : ascii) : bool :=
  in_range 97 122 c || in_range 48 57 c || bool_decide (c = "-"%char).

(** The characters of a name that [export] accepts after the first one,
    lower case apart: [A-Z0-9_]. *)
Definition variable_char (c : ascii) : bool :=
  in_range 65 90 c || in_range 48 57 c || bool_decide (c = "_"%char).

(** ** What starts the workflow *)

(** An event as the [on:] block looks at it: its name, the branch pushed
    to or the base branch of the pull request, and the files changed. *)
Record trigger := Trigger {
  trigger_event : string;
  trigger_branch : string;
  trigger_paths : list string
}.

Definition ends_with (suffix s : string) : bool :=
  String.prefix (String.rev suffix) (String.rev s).

(** [paths-ignore]: ['**.md'], ['demo/**'], ['docs/**']. *)
Definition paths_ignore (p : string) : bool :=
  ends_with ".md" p || String.prefix "demo/" p || String.prefix "docs/" p.

(** [on:] — a push to main, a pull request against main that changes a
    file outside [paths-ignore], or a manual dispatch. *)
Definition starts_workflow (t : trigger) : bool :=
  if decide (trigger_event t = "push")
  then bool_decide (trigger_branch t = "main")
  else if decide (trigger_event t = "pull_request")
  then bool_decide (trigger_branch t = "main")
       && negb (forallb paths_ignore (trigger_paths t))
  else bool_decide (trigger_event t = "workflow_dispatch").

(** ** Sample worlds and states *)

(** A toolchain that builds what cargo builds for the two packages:
    [mbtiles] from the package mbtiles, [martin] and [martin-cp] from the
    package martin. *)
Definition sample_tool (t p : string) (flags : option string) : tool_result :=
  if decide (p = "mbtiles")
  then ToolResult true {[ "mbtiles" := "mbtiles " +:+ t ]}
  else ToolResult true {[ "martin" := "martin " +:+ t;
                          "martin-cp" := "martin-cp " +:+ t ]}.

(** Everything works. *)
Definition sample_world : world :=
  World "push" (λ _, true) sample_tool None None (λ _ _, true).

(** A fresh runner: an empty workspace, nothing exported, an empty
    registry. *)
Definition fresh_state : state := State (Dir ∅) ∅ (Registry ∅ ∅).

(** The workspace with the aarch64 binaries staged by "Build targets". *)
Definition staged_state : state :=
  State
    (Dir {[ "target_releases" :=
              Dir {[ "aarch64-unknown-linux-musl" :=
                       Dir {[ "martin" := File "martin aarch64";
                              "martin-cp" := File "martin-cp aarch64";
                              "mbtiles" := File "mbtiles aarch64" ]} ]} ]})
    ∅ (Registry ∅ ∅).

(** The same after a restart: the platform directory still holds the
    binaries of the first run, and the rebuilt ones are staged. *)
Definition restaged_state : state :=
  State
    (Dir {[ "target_releases" :=
              Dir {[ "aarch64-unknown-linux-musl" :=
                       Dir (File <$> {[ "martin" := "martin rebuilt";
                                        "martin-cp" := "martin-cp rebuilt";
                                        "mbtiles" := "mbtiles rebuilt" ]});
                     "linux" :=
                       Dir {[ "arm64" :=
                                Dir (File <$> {[ "martin" := "martin aarch64";
                                                 "martin-cp" := "martin-cp aarch64";
                                                 "mbtiles" := "mbtiles aarch64" ]}) ]} ]} ]})
    ∅ (Registry ∅ ∅).


(** The registry refuses the amd64 image. *)
Definition amd64_push_fails : world :=
  World "push" (λ _, true) sample_tool None None
    (λ ps _, bool_decide (ps ≠ ["linux/amd64"])).

(** The first toolchain call, mbtiles for aarch64, exits with an error;
    every other call would succeed. *)
Definition aarch64_build_fails : world :=
  World "push" (λ _, true)
    (λ t p flags,
       if decide (t = "aarch64-unknown-linux-musl")
       then ToolResult false ∅
       else sample_tool t p flags)
    None None (λ _ _, true).

(** The x86_64 build of martin exits with an error. *)
Definition x86_64_build_fails : world :=
  World "push" (λ _, true)
    (λ t p flags,
       if decide (t = "x86_64-unknown-linux-musl")
       then ToolResult (bool_decide (p = "mbtiles")) ∅
       else sample_tool t p flags)
    None None (λ _ _, true).

(** Staged binaries beside a dot file. *)
Definition dotted_state : state :=
  State
    (Dir {[ "target_releases" :=
              Dir {[ "aarch64-unknown-linux-musl" :=
                       Dir {[ "martin" := File "martin aarch64";
                              ".fingerprint" := File "0f3a" ]} ]} ]})
    ∅ (Registry ∅ ∅).

(** A directory of the name [martin] in the platform directory. *)
Definition blocked_state : state :=
  State
    (Dir {[ "target_releases" :=
              Dir {[ "aarch64-unknown-linux-musl" :=
                       Dir {[ "martin" := File "martin aarch64";
                              "mbtiles" := File "mbtiles aarch64" ]};
                     "linux" :=
                       Dir {[ "arm64" :=
                                Dir {[ "martin" := Dir {[ "README" := File "" ]} ]} ]} ]} ]})
    ∅ (Registry ∅ ∅).

(** * Facts about the workspace *)

Section fs_facts.
Implicit Types (p q : path) (n : node) (m : gmap string node).

Lemma ls_Some p n m : ls p n = Some m ↔ lookup_path p n = Some (Dir m).
Proof.
  unfold ls. destruct (lookup_path p n) as [[d|m']|]; naive_solver.
Qed.

Lemma ls_cons x p m :
  ls (x :: p) (Dir m) = m !! x ≫= ls p.
Proof. unfold ls. simpl. by destruct (m !! x). Qed.

Lemma ls_nil m : ls [] (Dir m) = Some m.
Proof. done. Qed.

Lemma ls_file p d : ls p (File d) = None.
Proof. by destruct p. Qed.

Lemma lookup_path_empty_dir x p : lookup_path (x :: p) (Dir ∅) = None.
Proof. simpl. by rewrite lookup_empty. Qed.

Lemma ls_empty_dir p : default ∅ (ls p (Dir ∅)) = ∅.
Proof. destruct p; [done|]. by rewrite ls_cons, lookup_empty. Qed.

Lemma apart_cons_inv x p q :
  apart (x :: p) q = true →
  ∃ y q', q = y :: q' ∧ (x ≠ y ∨ (x = y ∧ apart p q' = true)).
Proof.
  destruct q as [|y q']; [done|]. simpl. case_decide; naive_solver.
Qed.

Lemma apart_sym p q : apart p q = apart q p.
Proof.
  revert q. induction p as [|x p IH]; intros [|y q]; simpl; try done.
  repeat case_decide; try done; congruence.
Qed.

(** [mkdir -p] on a directory that is there changes nothing. *)
Lemma mkdir_p_existing p n m : ls p n = Some m → mkdir_p p n = Some n.
Proof.
  revert n. induction p as [|x p IH]; intros [d|m0] H;
    try (by rewrite ls_file in H); [done|].
  rewrite ls_cons in H. simpl.
  destruct (m0 !! x) as [c|] eqn:Hx; [|done]. simpl in *.
  rewrite (IH c H). simpl. by rewrite insert_id.
Qed.

(** After [mkdir -p] the directory is there, with the entries it had. *)
Lemma mkdir_p_ls p n n' :
  mkdir_p p n = Some n' → ls p n' = Some (default ∅ (ls p n)).
Proof.
  revert n n'. induction p as [|x p IH]; intros [d|m0] n' H; try done.
  - simpl in H. by simplify_eq.
  - simpl in H.
    destruct (mkdir_p p (default (Dir ∅) (m0 !! x))) as [c|] eqn:Hc; [|done].
    simpl in H. simplify_eq. rewrite !ls_cons, lookup_insert_eq. simpl.
    rewrite (IH _ _ Hc). destruct (m0 !! x); simpl; [done|].
    by rewrite ls_empty_dir.
Qed.

Lemma mkdir_p_apart p q n n' :
  apart p q = true → mkdir_p p n = Some n' →
  lookup_path q n' = lookup_path q n.
Proof.
  revert q n n'. induction p as [|x p IH]; intros q [d|m0] n' Ha H; try done.
  apply apart_cons_inv in Ha as (y & q' & -> & Hq). simpl in H.
  destruct (mkdir_p p (default (Dir ∅) (m0 !! x))) as [c|] eqn:Hc; [|done].
  simpl in H. simplify_eq. simpl.
  destruct Hq as [Hne|[-> Ha]].
  - by rewrite lookup_insert_ne.
  - rewrite lookup_insert_eq. simpl. rewrite (IH _ _ _ Ha Hc).
    destruct (m0 !! y); simpl; [done|].
    destruct q'; [by destruct p|]. apply lookup_path_empty_dir.
Qed.

Lemma modify_dir_is_Some p f n m :
  ls p n = Some m → is_Some (modify_dir p f n).
Proof.
  revert n. induction p as [|x p IH]; intros [d|m0] H;
    try (by rewrite ls_file in H); [by eexists|].
  rewrite ls_cons in H. simpl.
  destruct (m0 !! x) as [c|] eqn:Hx; [|done]. simpl in *.
  destruct (IH c H) as [c' ->]. by eexists.
Qed.

Lemma modify_dir_ls p f n n' :
  modify_dir p f n = Some n' →
  ∃ m, ls p n = Some m ∧ ls p n' = Some (f m).
Proof.
  revert n n'. induction p as [|x p IH]; intros [d|m0] n' H; try done.
  - simpl in H. simplify_eq. by eexists.
  - simpl in H. destruct (m0 !! x) as [c|] eqn:Hx; [|done]. simpl in H.
    destruct (modify_dir p f c) as [c'|] eqn:Hc; [|done].
    simpl in H. simplify_eq. rewrite !ls_cons, lookup_insert_eq, Hx. simpl.
    eauto.
Qed.

Lemma modify_dir_apart p q f n n' :
  apart p q = true → modify_dir p f n = Some n' →
  lookup_path q n' = lookup_path q n.
Proof.
  revert q n n'. induction p as [|x p IH]; intros q [d|m0] n' Ha H; try done.
  apply apart_cons_inv in Ha as (y & q' & -> & Hq). simpl in H.
  destruct (m0 !! x) as [c|] eqn:Hx; [|done]. simpl in H.
  destruct (modify_dir p f c) as [c'|] eqn:Hc; [|done].
  simpl in H. simplify_eq. simpl.
  destruct Hq as [Hne|[-> Ha]].
  - by rewrite lookup_insert_ne.
  - rewrite lookup_insert_eq, Hx. simpl. eauto.
Qed.

Lemma ls_apart q n n' :
  lookup_path q n' = lookup_path q n → ls q n' = ls q n.
Proof. unfold ls. by intros ->. Qed.

(** What a successful [mv] did. *)
Lemma mv_true sdir name dst n n' :
  mv sdir name dst n = (n', true) →
  ∃ ms v md,
    ls sdir n = Some ms ∧ ms !! name = Some v ∧ ls dst n = Some md ∧
    ls sdir n' = Some (delete name ms) ∧
    ls dst n' = Some (<[name := v]> md) ∧
    ∀ q, apart sdir q = true → apart dst q = true →
         lookup_path q n' = lookup_path q n.
Proof.
  unfold mv. intros H.
  destruct (ls sdir n) as [ms|] eqn:Hs; [|done]. simpl in H.
  destruct (ms !! name) as [v|] eqn:Hv; [|done].
  destruct (ls dst n) as [md|] eqn:Hd; [|done].
  destruct (can_replace v (md !! name)); [|done].
  destruct (apart sdir dst) eqn:Ha; [|done]. simpl in H.
  destruct (modify_dir sdir (delete name) n) as [n1|] eqn:H1; [|done].
  simpl in H.
  destruct (modify_dir dst <[name:=v]> n1) as [n2|] eqn:H2; [|done].
  simplify_eq.
  destruct (modify_dir_ls _ _ _ _ H1) as (ms' & Hs' & Hs1).
  destruct (modify_dir_ls _ _ _ _ H2) as (md' & Hd' & Hd2).
  rewrite Hs in Hs'. simplify_eq.
  rewrite (ls_apart dst n n1) in Hd' by eauto using modify_dir_apart.
  rewrite Hd in Hd'. simplify_eq.
  exists ms', v, md'. repeat split; try done.
  - rewrite (ls_apart sdir n1 n'); [done|].
    eapply modify_dir_apart; [|done]. by rewrite apart_sym.
  - intros q Hq1 Hq2.
    rewrite (modify_dir_apart _ _ _ _ _ Hq2 H2).
    by rewrite (modify_dir_apart _ _ _ _ _ Hq1 H1).
Qed.

(** A failing [mv] leaves the workspace as it was. *)
Lemma mv_false sdir name dst n n' :
  mv sdir name dst n = (n', false) → n' = n.
Proof.
  unfold mv. intros H.
  repeat (case_match; simplify_eq; try done).
Qed.

(** When [mv] succeeds. *)
Lemma mv_succeeds sdir name dst n ms v md :
  ls sdir n = Some ms → ms !! name = Some v → ls dst n = Some md →
  can_replace v (md !! name) = true → apart sdir dst = true →
  ∃ n', mv sdir name dst n = (n', true).
Proof.
  intros Hs Hv Hd Hc Ha. unfold mv. rewrite Hs, Hd. simpl.
  rewrite Hv, Hc, Ha. simpl.
  destruct (modify_dir_is_Some sdir (delete name) n ms Hs) as [n1 H1].
  rewrite H1. simpl.
  assert (ls dst n1 = Some md) as Hd1.
  { rewrite (ls_apart dst n n1); [done|]. by eapply modify_dir_apart. }
  destruct (modify_dir_is_Some dst <[name:=v]> n1 md Hd1) as [n2 ->].
  by eexists.
Qed.

Lemma glob_star_all m :
  (∀ k, is_Some (m !! k) → hidden k = false) → glob_star m = m.
Proof.
  intros H. unfold glob_star. apply map_eq. intros k.
  destruct (m !! k) as [v|] eqn:Hk.
  - apply map_lookup_filter_Some. split; [done|]. simpl. eauto.
  - apply map_lookup_filter_None. by left.
Qed.

Lemma movable_all matched md :
  (∀ k v, matched !! k = Some v → can_replace v (md !! k) = true) →
  movable matched md = matched.
Proof.
  intros H. unfold movable. apply map_eq. intros k.
  destruct (matched !! k) as [v|] eqn:Hk.
  - apply map_lookup_filter_Some. split; [done|]. simpl. eauto.
  - apply map_lookup_filter_None. by left.
Qed.

(** What [mv src/* dst/] did when it ran at all. *)
Lemma mv_glob_inv src dst n n' b :
  mv_glob src dst n = (n', b) →
  (n' = n ∧ b = false) ∨
  ∃ ms md,
    ls src n = Some ms ∧ ls dst n = Some md ∧
    size (glob_star ms) ≠ 0 ∧ apart src dst = true ∧
    ls src n' = Some (ms ∖ movable (glob_star ms) md) ∧
    ls dst n' = Some (movable (glob_star ms) md ∪ md) ∧
    b = bool_decide (size (movable (glob_star ms) md) = size (glob_star ms)) ∧
    ∀ q, apart src q = true → apart dst q = true →
         lookup_path q n' = lookup_path q n.
Proof.
  unfold mv_glob. intros H.
  destruct (ls src n) as [ms|] eqn:Hs; [|left; by simplify_eq].
  destruct (ls dst n) as [md|] eqn:Hd; [|left; by simplify_eq].
  case_bool_decide as Hsz; simpl in H; [left; by simplify_eq|].
  destruct (apart src dst) eqn:Ha; simpl in H; [|left; by simplify_eq].
  set (mvd := movable (glob_star ms) md) in *.
  destruct (modify_dir src (λ m, m ∖ mvd) n) as [n1|] eqn:H1;
    simpl in H; [|left; by simplify_eq].
  destruct (modify_dir dst (λ m, mvd ∪ m) n1) as [n2|] eqn:H2;
    simpl in H; [|left; by simplify_eq].
  simplify_eq. right.
  destruct (modify_dir_ls _ _ _ _ H1) as (ms' & Hs' & Hs1).
  destruct (modify_dir_ls _ _ _ _ H2) as (md' & Hd' & Hd2).
  rewrite Hs in Hs'. simplify_eq.
  rewrite (ls_apart dst n n1) in Hd' by eauto using modify_dir_apart.
  rewrite Hd in Hd'. simplify_eq.
  exists ms', md'. repeat split; try done.
  - rewrite (ls_apart src n1 n'); [done|].
    eapply modify_dir_apart; [|done]. by rewrite apart_sym.
  - intros q Hq1 Hq2.
    rewrite (modify_dir_apart _ _ _ _ _ Hq2 H2).
    by rewrite (modify_dir_apart _ _ _ _ _ Hq1 H1).
Qed.

(** When [mv src/* dst/] runs. *)
Lemma mv_glob_runs src dst n ms md :
  ls src n = Some ms → ls dst n = Some md →
  size (glob_star ms) ≠ 0 → apart src dst = true →
  ∃ n', mv_glob src dst n =
        (n', bool_decide (size (movable (glob_star ms) md) = size (glob_star ms))).
Proof.
  intros Hs Hd Hsz Ha. unfold mv_glob. rewrite Hs, Hd, Ha.
  rewrite bool_decide_eq_false_2 by done. simpl.
  set (mvd := movable (glob_star ms) md).
  destruct (modify_dir_is_Some src (λ m, m ∖ mvd) n ms Hs) as [n1 H1].
  rewrite H1. simpl.
  assert (ls dst n1 = Some md) as Hd1.
  { rewrite (ls_apart dst n n1); [done|]. by eapply modify_dir_apart. }
  destruct (modify_dir_is_Some dst (λ m, mvd ∪ m) n1 md Hd1) as [n2 ->].
  by eexists.
Qed.
End fs_facts.

#[global] Arguments lookup_path : simpl never.
#[global] Arguments mkdir_p : simpl never.
#[global] Arguments modify_dir : simpl never.
#[global] Arguments ls : simpl never.
#[global] Arguments mv : simpl never.
#[global] Arguments mv_glob : simpl never.
#[global] Arguments apart : simpl never.

(** * Facts about commands *)

Section cmd_facts.
Implicit Types (c : cmd) (s : state).

Lemma seq_true c1 c2 s :
  ok (c1 s) = true →
  (c1 ;; c2)%cmd s =
    Outcome (final (c2 (final (c1 s)))) (ok (c2 (final (c1 s))))
            (events (c1 s) ++ events (c2 (final (c1 s)))).
Proof. unfold seq. by intros ->. Qed.

Lemma seq_false c1 c2 s : ok (c1 s) = false → (c1 ;; c2)%cmd s = c1 s.
Proof. unfold seq. by intros ->. Qed.

Lemma seq_ok_inv c1 c2 s :
  ok ((c1 ;; c2)%cmd s) = true →
  ok (c1 s) = true ∧ ok (c2 (final (c1 s))) = true.
Proof.
  destruct (ok (c1 s)) eqn:H1.
  - rewrite seq_true by done. naive_solver.
  - rewrite seq_false by done. congruence.
Qed.

Lemma seq_ok_final c1 c2 s :
  ok ((c1 ;; c2)%cmd s) = true →
  final ((c1 ;; c2)%cmd s) = final (c2 (final (c1 s))).
Proof.
  intros H. destruct (seq_ok_inv _ _ _ H) as [H1 _].
  by rewrite seq_true.
Qed.

Lemma fs_cmd_events f s : events (fs_cmd f s) = [].
Proof. unfold fs_cmd. by destruct (f (fs s)). Qed.

Lemma fs_cmd_env f s : env (final (fs_cmd f s)) = env s.
Proof. unfold fs_cmd. by destruct (f (fs s)). Qed.

Lemma fs_cmd_reg f s : reg (final (fs_cmd f s)) = reg s.
Proof. unfold fs_cmd. by destruct (f (fs s)). Qed.

Lemma fs_cmd_fs f s : fs (final (fs_cmd f s)) = (f (fs s)).1.
Proof. unfold fs_cmd. by destruct (f (fs s)). Qed.

Lemma fs_cmd_ok f s : ok (fs_cmd f s) = (f (fs s)).2.
Proof. unfold fs_cmd. by destruct (f (fs s)). Qed.

(** [mkdir -p] as a command: when it succeeds the directory is there with
    the entries it had, and what lies apart from it is left alone. *)
Lemma mkdir_p_cmd_ok p s :
  ok (mkdir_p_cmd p s) = true →
  ls p (fs (final (mkdir_p_cmd p s))) = Some (default ∅ (ls p (fs s))) ∧
  ∀ q, apart p q = true →
       lookup_path q (fs (final (mkdir_p_cmd p s))) = lookup_path q (fs s).
Proof.
  unfold mkdir_p_cmd. rewrite fs_cmd_ok, fs_cmd_fs.
  destruct (mkdir_p p (fs s)) as [n'|] eqn:H; [|done]. simpl. intros _.
  eauto using mkdir_p_ls, mkdir_p_apart.
Qed.

Lemma mkdir_p_cmd_existing p s m :
  ls p (fs s) = Some m →
  ok (mkdir_p_cmd p s) = true ∧ fs (final (mkdir_p_cmd p s)) = fs s.
Proof.
  intros H. unfold mkdir_p_cmd. rewrite fs_cmd_ok, fs_cmd_fs.
  by rewrite (mkdir_p_existing _ _ _ H).
Qed.

Lemma mv_cmd_ok sdir name dst s :
  ok (mv_cmd sdir name dst s) = true →
  ∃ ms v md,
    ls sdir (fs s) = Some ms ∧ ms !! name = Some v ∧
    ls dst (fs s) = Some md ∧
    ls sdir (fs (final (mv_cmd sdir name dst s))) = Some (delete name ms) ∧
    ls dst (fs (final (mv_cmd sdir name dst s))) = Some (<[name := v]> md) ∧
    ∀ q, apart sdir q = true → apart dst q = true →
         lookup_path q (fs (final (mv_cmd sdir name dst s)))
         = lookup_path q (fs s).
Proof.
  unfold mv_cmd. rewrite fs_cmd_ok, fs_cmd_fs.
  destruct (mv sdir name dst (fs s)) as [n' b] eqn:H. simpl. intros ->.
  by apply mv_true.
Qed.

(** The events of the toolchain call carry the status of the call. *)
Lemma cross_build_cmd_events w t p s :
  events (cross_build_cmd w t p s)
  = [EToolchain t p (env s !! rustflags_var t) (ok (cross_build_cmd w t p s))].
Proof. unfold cross_build_cmd. by case_match. Qed.

Lemma cross_build_cmd_env w t p s :
  env (final (cross_build_cmd w t p s)) = env s.
Proof. unfold cross_build_cmd. by case_match. Qed.

Lemma cross_build_cmd_reg w t p s :
  reg (final (cross_build_cmd w t p s)) = reg s.
Proof. unfold cross_build_cmd. by case_match. Qed.

(** The toolchain writes below [target/<t>/release] only. *)
Lemma cross_build_cmd_apart w t p s q :
  apart ["target"; t; "release"] q = true →
  lookup_path q (fs (final (cross_build_cmd w t p s))) = lookup_path q (fs s).
Proof.
  intros Ha. unfold cross_build_cmd.
  destruct (mkdir_p _ (fs s)) as [n1|] eqn:H1; simpl; [|done].
  destruct (modify_dir _ _ n1) as [n2|] eqn:H2; simpl; [|done].
  rewrite (modify_dir_apart _ _ _ _ _ Ha H2).
  by rewrite (mkdir_p_apart _ _ _ _ Ha H1).
Qed.
End cmd_facts.

(** * Facts about the scripts *)

Ltac seq_split H :=
  let H1 := fresh "Hok" in
  let Hf := fresh "Hfin" in
  pose proof (seq_ok_final _ _ _ H) as Hf;
  apply seq_ok_inv in H as [H1 H].

Lemma build_target_ok w t s :
  ok (build_target w t s) = true →
  ∃ v1 v2 v3,
    ls ["target_releases"; t] (fs (final (build_target w t s)))
    = Some (<["mbtiles" := v3]> (<["martin-cp" := v2]> (<["martin" := v1]>
              (default ∅ (ls ["target_releases"; t] (fs s)))))) ∧
    (∀ q, apart ["target"; t; "release"] q = true →
          apart ["target_releases"; t] q = true →
          lookup_path q (fs (final (build_target w t s))) = lookup_path q (fs s)) ∧
    reg (final (build_target w t s)) = reg s.
Proof.
  intros H. unfold build_target in *.
  seq_split H. rewrite Hfin. clear Hfin.
  set (s1 := final (export (rustflags_var t) "-C strip=debuginfo" s)) in *.
  seq_split H. rewrite Hfin. clear Hfin.
  set (s2 := final (cross_build_cmd w t "mbtiles" s1)) in *.
  seq_split H. rewrite Hfin. clear Hfin.
  set (s3 := final (cross_build_cmd w t "martin" s2)) in *.
  seq_split H. rewrite Hfin. clear Hfin.
  set (s4 := final (mkdir_p_cmd ["target_releases"; t] s3)) in *.
  seq_split H. rewrite Hfin. clear Hfin.
  set (s5 := final (mv_cmd ["target"; t; "release"] "martin" ["target_releases"; t] s4)) in *.
  seq_split H. rewrite Hfin. clear Hfin.
  set (s6 := final (mv_cmd ["target"; t; "release"] "martin-cp" ["target_releases"; t] s5)) in *.
  set (s7 := final (mv_cmd ["target"; t; "release"] "mbtiles" ["target_releases"; t] s6)) in *.
  destruct (mkdir_p_cmd_ok _ _ Hok2) as [Hls4 Hfr4]. fold s4 in Hls4, Hfr4.
  destruct (mv_cmd_ok _ _ _ _ Hok3) as (ms5 & v1 & md5 & Hs5 & Hv1 & Hd5 & Hs5' & Hd5' & Hfr5).
  destruct (mv_cmd_ok _ _ _ _ Hok4) as (ms6 & v2 & md6 & Hs6 & Hv2 & Hd6 & Hs6' & Hd6' & Hfr6).
  destruct (mv_cmd_ok _ _ _ _ H) as (ms7 & v3 & md7 & Hs7 & Hv3 & Hd7 & Hs7' & Hd7' & Hfr7).
  fold s5 in Hs5', Hd5', Hfr5. fold s6 in Hs6', Hd6', Hfr6. fold s7 in Hs7', Hd7', Hfr7.
  assert (apart ["target"; t; "release"] ["target_releases"; t] = true) as Hap
    by reflexivity.
  assert (ls ["target_releases"; t] (fs s3) = ls ["target_releases"; t] (fs s)) as E3.
  { apply ls_apart. unfold s3, s2. by rewrite !cross_build_cmd_apart. }
  rewrite E3 in Hls4. rewrite Hls4 in Hd5. rewrite Hd5' in Hd6.
  rewrite Hd6' in Hd7. simplify_eq.
  exists v1, v2, v3. split; [done|]. split.
  - intros q Hq1 Hq2.
    rewrite Hfr7, Hfr6, Hfr5, Hfr4 by done.
    unfold s3, s2. by rewrite !cross_build_cmd_apart.
  - unfold s7, s6, s5, s4, mv_cmd, mkdir_p_cmd. rewrite !fs_cmd_reg.
    unfold s3, s2. by rewrite !cross_build_cmd_reg.
Qed.


Lemma movable_eq_of_size matched md :
  size (movable matched md) = size matched → movable matched md = matched.
Proof.
  intros H. apply map_subseteq_size_eq; [apply map_filter_subseteq|lia].
Qed.

Lemma movable_lookup matched md k v :
  movable matched md = matched → matched !! k = Some v →
  can_replace v (md !! k) = true.
Proof.
  intros H Hk. rewrite <-H in Hk.
  by apply map_lookup_filter_Some in Hk as [_ ?].
Qed.

Lemma collect_ok triple platform s :
  let src := ["target_releases"; triple] in
  let dst := "target_releases" :: platform in
  let r := collect triple platform s in
  ok r = true →
  ∃ ms,
    ls src (fs s) = Some ms ∧ glob_star ms ≠ ∅ ∧ apart src dst = true ∧
    (∀ k v, glob_star ms !! k = Some v →
            can_replace v (default ∅ (ls dst (fs s)) !! k) = true) ∧
    ls src (fs (final r)) = Some (ms ∖ glob_star ms) ∧
    ls dst (fs (final r)) = Some (glob_star ms ∪ default ∅ (ls dst (fs s))) ∧
    (∀ q, apart src q = true → apart dst q = true →
          lookup_path q (fs (final r)) = lookup_path q (fs s)) ∧
    reg (final r) = reg s ∧ events r = [].
Proof.
  intros src dst r H. unfold r, collect in *. fold src dst in H |- *.
  pose proof (seq_ok_final _ _ _ H) as Hfin.
  pose proof (seq_ok_inv _ _ _ H) as [H1 H2].
  rewrite seq_true by done. simpl. clear H Hfin.
  set (s1 := final (mkdir_p_cmd dst s)) in *.
  destruct (mkdir_p_cmd_ok _ _ H1) as [Hd1 Hfr1]. fold s1 in Hd1, Hfr1.
  unfold mv_glob_cmd in *. rewrite fs_cmd_ok in H2.
  rewrite fs_cmd_fs, fs_cmd_reg, !fs_cmd_events.
  destruct (mv_glob src dst (fs s1)) as [n' b] eqn:Hmv. simpl in *. subst b.
  apply mv_glob_inv in Hmv as [[_ ?]|(ms & md & Hs & Hd & Hsz & Ha & Hs' & Hd' & Hb & Hfr)];
    [done|].
  rewrite Hd1 in Hd. simplify_eq.
  symmetry in Hb. apply bool_decide_eq_true in Hb. apply movable_eq_of_size in Hb.
  rewrite Hb in *.
  exists ms. split.
  { rewrite <-Hs. symmetry. apply ls_apart, Hfr1. by rewrite apart_sym. }
  split; [by apply map_size_non_empty_iff|]. split; [done|].
  split; [by eauto using movable_lookup|].
  split; [done|]. split; [done|]. split.
  - intros q Hq1 Hq2. rewrite Hfr by done. by apply Hfr1.
  - unfold s1, mkdir_p_cmd. by rewrite fs_cmd_reg, fs_cmd_events.
Qed.

Lemma collect_succeeds triple platform s ms :
  let src := ["target_releases"; triple] in
  let dst := "target_releases" :: platform in
  ls src (fs s) = Some ms → glob_star ms ≠ ∅ → apart src dst = true →
  is_Some (mkdir_p dst (fs s)) →
  (∀ k v, glob_star ms !! k = Some v →
          can_replace v (default ∅ (ls dst (fs s)) !! k) = true) →
  ok (collect triple platform s) = true.
Proof.
  intros src dst Hs Hne Ha [n1 Hmk] Hrep. unfold collect. fold src dst.
  assert (ok (mkdir_p_cmd dst s) = true) as H1.
  { unfold mkdir_p_cmd. by rewrite fs_cmd_ok, Hmk. }
  rewrite seq_true by done. simpl.
  destruct (mkdir_p_cmd_ok _ _ H1) as [Hd1 Hfr1].
  set (s1 := final (mkdir_p_cmd dst s)) in *.
  assert (ls src (fs s1) = Some ms) as Hs1.
  { rewrite <-Hs. apply ls_apart, Hfr1. by rewrite apart_sym. }
  unfold mv_glob_cmd. rewrite fs_cmd_ok.
  destruct (mv_glob_runs src dst (fs s1) ms _ Hs1 Hd1) as [n' ->];
    [by apply map_size_non_empty_iff|done|].
  simpl. apply bool_decide_eq_true. by rewrite movable_all.
Qed.

(** * What commands keep and emit *)

Section keeps_emits.
Context {A : Type} (f : state → A) (Q : event → Prop).

Lemma keeps_seq c1 c2 : keeps f c1 → keeps f c2 → keeps f (c1 ;; c2)%cmd.
Proof.
  intros H1 H2 s. unfold seq. destruct (ok (c1 s)); simpl; [|done].
  by rewrite H2.
Qed.

Lemma keeps_or_else c1 c2 : keeps f c1 → keeps f c2 → keeps f (c1 ||| c2)%cmd.
Proof.
  intros H1 H2 s. unfold or_else. destruct (ok (c1 s)); simpl; [done|].
  by rewrite H2.
Qed.

Lemma keeps_for_each {B} (xs : list B) body :
  (∀ x, keeps f (body x)) → keeps f (for_each xs body).
Proof. intros H. induction xs; simpl; [done|]. by apply keeps_seq. Qed.

Lemma emits_seq c1 c2 : emits Q c1 → emits Q c2 → emits Q (c1 ;; c2)%cmd.
Proof.
  intros H1 H2 s. unfold seq. destruct (ok (c1 s)); simpl; [|done].
  apply Forall_app. split; [apply H1|apply H2].
Qed.

Lemma emits_or_else c1 c2 : emits Q c1 → emits Q c2 → emits Q (c1 ||| c2)%cmd.
Proof.
  intros H1 H2 s. unfold or_else. destruct (ok (c1 s)); simpl; [done|].
  apply Forall_app. split; [apply H1|apply H2].
Qed.

Lemma emits_for_each {B} (xs : list B) body :
  (∀ x, emits Q (body x)) → emits Q (for_each xs body).
Proof.
  intros H. induction xs; simpl; [by constructor|]. by apply emits_seq.
Qed.

Lemma emits_fs_cmd g : emits Q (fs_cmd g).
Proof. intros s. rewrite fs_cmd_events. constructor. Qed.

Lemma emits_export name value : emits Q (export name value).
Proof. intros s. constructor. Qed.
End keeps_emits.

Lemma keeps_reg_fs_cmd g : keeps reg (fs_cmd g).
Proof. intros s. apply fs_cmd_reg. Qed.

Lemma keeps_reg_build_targets w : keeps reg (build_targets w).
Proof.
  apply keeps_for_each. intros t. unfold build_target.
  repeat apply keeps_seq; try apply keeps_reg_fs_cmd; try done.
  all: intros s; apply cross_build_cmd_reg.
Qed.

Lemma emits_cross_build_cmd w t p : emits (λ e, is_toolchain e = true) (cross_build_cmd w t p).
Proof. intros s. rewrite cross_build_cmd_events. by repeat constructor. Qed.

Lemma emits_build_targets_in ts w : emits (λ e, is_toolchain e = true) (build_targets_in ts w).
Proof.
  apply emits_for_each. intros t. unfold build_target.
  repeat apply emits_seq;
    first [apply emits_export|apply emits_cross_build_cmd|apply emits_fs_cmd].
Qed.

Lemma keeps_reg_reorganize_artifacts : keeps reg reorganize_artifacts.
Proof.
  unfold reorganize_artifacts, collect.
  repeat apply keeps_seq; apply keeps_reg_fs_cmd.
Qed.

Lemma reorganize_artifacts_events s : events (reorganize_artifacts s) = [].
Proof.
  assert (emits (λ _, False) reorganize_artifacts) as H.
  { unfold reorganize_artifacts, collect.
    repeat apply emits_seq; apply emits_fs_cmd. }
  specialize (H s). by destruct H.
Qed.

Lemma keeps_fs_ensure w : keeps fs (ensure_ecr_public_repository_exists w).
Proof.
  apply keeps_or_else; intros s; [done|].
  unfold aws_create_repository. by destruct (create_repository _ _ _).
Qed.

Lemma keeps_tags_ensure w :
  keeps (λ s, tags (reg s)) (ensure_ecr_public_repository_exists w).
Proof.
  apply keeps_or_else; intros s; [done|].
  unfold aws_create_repository, create_repository.
  destruct (create_fault w); [done|]. by case_decide.
Qed.

Lemma emits_ensure w :
  emits (λ e, is_push e = false ∧ is_toolchain e = false)
    (ensure_ecr_public_repository_exists w).
Proof.
  apply emits_or_else; intros s; [by repeat constructor|].
  unfold aws_create_repository. destruct (create_repository _ _ _).
  by repeat constructor.
Qed.

Lemma keeps_fs_build_push_action w ps tag : keeps fs (build_push_action w ps tag).
Proof. intros s. unfold build_push_action. by destruct (image_push _ _ _). Qed.

(** * Facts about the job *)

Section job_facts.
Implicit Types (w : world) (s : state) (st : step) (steps : list step).

Lemma run_steps_cons w st rest s :
  run_steps w (st :: rest) s =
    if enabled st w then
      if ok (run st w s) then
        let j := run_steps w rest (leave_shell s (final (run st w s))) in
        JobOutcome (jfinal j) (jok j)
          (StepRecord (id st) true (events (run st w s)) :: jsteps j)
      else JobOutcome (leave_shell s (final (run st w s))) false
             [StepRecord (id st) false (events (run st w s))]
    else run_steps w rest s.
Proof. simpl. by destruct (enabled st w), (ok (run st w s)) eqn:E. Qed.

Lemma run_steps_app w l1 l2 s :
  run_steps w (l1 ++ l2) s =
    if jok (run_steps w l1 s) then
      JobOutcome (jfinal (run_steps w l2 (jfinal (run_steps w l1 s))))
                 (jok (run_steps w l2 (jfinal (run_steps w l1 s))))
                 (jsteps (run_steps w l1 s)
                  ++ jsteps (run_steps w l2 (jfinal (run_steps w l1 s))))
    else run_steps w l1 s.
Proof.
  revert s. induction l1 as [|st l1 IH]; intros s.
  - simpl. by destruct (run_steps w l2 s).
  - rewrite <-app_comm_cons, !run_steps_cons.
    destruct (enabled st w); [|apply IH].
    destruct (ok (run st w s)); [|done].
    cbn zeta. rewrite IH.
    by destruct (jok (run_steps w l1 _)) eqn:E; simpl; rewrite ?E.
Qed.

(** Every record but the last is of a step that succeeded, and the job
    succeeds exactly when its last record does. *)
Lemma run_steps_all_but_last w steps s i r :
  jsteps (run_steps w steps s) !! i = Some r →
  S i < length (jsteps (run_steps w steps s)) → rok r = true.
Proof.
  revert s i. induction steps as [|st rest IH]; intros s i; [done|].
  rewrite run_steps_cons. destruct (enabled st w); [|apply IH].
  destruct (ok (run st w s)); simpl.
  - destruct i as [|i]; simpl; [naive_solver|].
    intros ??. eapply IH; [done|lia].
  - destruct i; simpl; [lia|done].
Qed.

Lemma run_steps_failed w steps s :
  jok (run_steps w steps s) = false →
  ∃ r, last (jsteps (run_steps w steps s)) = Some r ∧ rok r = false.
Proof.
  revert s. induction steps as [|st rest IH]; intros s; [done|].
  rewrite run_steps_cons. destruct (enabled st w); [|apply IH].
  destruct (ok (run st w s)); simpl; [|by eexists].
  intros H. destruct (IH _ H) as (r & Hr & ?). exists r. split; [|done].
  rewrite last_cons, Hr. done.
Qed.

Lemma run_steps_succeeded w steps s :
  jok (run_steps w steps s) = true →
  Forall (λ r, rok r = true) (jsteps (run_steps w steps s)) ∧
  rid <$> jsteps (run_steps w steps s)
  = id <$> filter (λ st, enabled st w = true) steps.
Proof.
  revert s. induction steps as [|st rest IH]; intros s; [done|].
  rewrite run_steps_cons, filter_cons.
  destruct (enabled st w) eqn:He.
  - rewrite decide_True by done.
    destruct (ok (run st w s)); simpl; [|done].
    intros H. destruct (IH _ H) as [??]. split; [by constructor|].
    by f_equal.
  - rewrite decide_False by done. apply IH.
Qed.

(** The steps that ran are an initial segment of the enabled steps, in
    the order of the file. *)
Lemma run_steps_prefix w steps s :
  rid <$> jsteps (run_steps w steps s)
  `prefix_of` id <$> filter (λ st, enabled st w = true) steps.
Proof.
  revert s. induction steps as [|st rest IH]; intros s; [done|].
  rewrite run_steps_cons, filter_cons.
  destruct (enabled st w) eqn:He.
  - rewrite decide_True by done.
    destruct (ok (run st w s)); simpl.
    + by apply prefix_cons.
    + apply prefix_cons, prefix_nil.
  - rewrite decide_False by done. apply IH.
Qed.

(** A property of the state that every step keeps holds at the end. *)
Lemma run_steps_invariant (P : state → Prop) w steps s :
  (∀ st s', st ∈ steps → P s' → P (leave_shell s' (final (run st w s')))) →
  P s → P (jfinal (run_steps w steps s)).
Proof.
  revert s. induction steps as [|st rest IH]; intros s Hst Hs; [done|].
  rewrite run_steps_cons.
  assert (∀ st s', st ∈ rest → P s' → P (leave_shell s' (final (run st w s'))))
    by (intros; apply Hst; [by right|done]).
  destruct (enabled st w); [|by apply IH].
  assert (P (leave_shell s (final (run st w s)))) by (apply Hst; [by left|done]).
  destruct (ok (run st w s)); simpl; [by apply IH|done].
Qed.

(** A property of the events of every step holds of the events of the
    job. *)
Lemma run_steps_events (Q : event → Prop) w steps s :
  (∀ st s', st ∈ steps → Forall Q (events (run st w s'))) →
  Forall Q (jevents (run_steps w steps s)).
Proof.
  revert s. induction steps as [|st rest IH]; intros s Hst; [by constructor|].
  rewrite run_steps_cons.
  assert (∀ st s', st ∈ rest → Forall Q (events (run st w s')))
    by (intros; apply Hst; by right).
  destruct (enabled st w); [|by apply IH].
  assert (Forall Q (events (run st w s))) by (apply Hst; by left).
  destruct (ok (run st w s)); unfold jevents; simpl.
  - apply Forall_app. split; [done|]. by apply IH.
  - by rewrite app_nil_r.
Qed.
End job_facts.

(** * Properties of the workflow *)

Lemma seq_skip c s : (c ;; skip)%cmd s = c s.
Proof.
  unfold seq, skip. destruct (c s) as [f [] e]; simpl; by rewrite ?app_nil_r.
Qed.


Lemma mapping_apart triple platform :
  (triple, platform) ∈ architecture_mapping →
  apart ["target_releases"; triple] ("target_releases" :: platform) = true.
Proof.
  unfold architecture_mapping. rewrite !elem_of_cons, elem_of_nil.
  intros [?|[?|[]]]; by simplify_eq.
Qed.




Lemma collect_nothing_staged triple platform s md :
  ls ["target_releases"; triple] (fs s) = Some ∅ →
  ls ("target_releases" :: platform) (fs s) = Some md →
  ok (collect triple platform s) = false ∧
  fs (final (collect triple platform s)) = fs s.
Proof.
  intros Hs Hd. unfold collect.
  destruct (mkdir_p_cmd_existing _ _ _ Hd) as [H1 Hfs].
  rewrite seq_true by done. simpl.
  unfold mv_glob_cmd. rewrite fs_cmd_ok, fs_cmd_fs, Hfs.
  unfold mv_glob. rewrite Hs, Hd.
  replace (glob_star ∅) with (∅ : gmap string node)
    by (symmetry; apply map_filter_empty).
  by rewrite map_size_empty.
Qed.

Lemma union_fmap_overwrite (bundle prior : gmap string string) :
  dom prior ⊆ dom bundle →
  (File <$> bundle) ∪ (File <$> prior) = File <$> bundle.
Proof.
  intros Hdom. apply map_eq. intros k. rewrite lookup_union, !lookup_fmap.
  destruct (bundle !! k) as [c|] eqn:Hb; simpl.
  - by destruct (prior !! k).
  - apply not_elem_of_dom in Hb.
    assert (k ∉ dom prior) as Hp by set_solver.
    apply not_elem_of_dom in Hp. by rewrite Hp.
Qed.

(** C8.  Collecting a bundle over what an earlier collection of the same
    files left at the destination overwrites these files: the platform
    directory then holds the bundle that was collected last and nothing
    of the earlier one.  However many times the script runs again after
    that, with nothing staged any more, the workspace stays as it is (such
    a run moves nothing: [mv] reports that its pattern matched no file). *)
Theorem collect_overwrites_prior triple platform s
    (bundle prior : gmap string string) :
  (triple, platform) ∈ architecture_mapping →
  ls ["target_releases"; triple] (fs s) = Some (File <$> bundle) →
  bundle ≠ ∅ →
  (∀ k, is_Some (bundle !! k) → hidden k = false) →
  ls ("target_releases" :: platform) (fs s) = Some (File <$> prior) →
  dom prior ⊆ dom bundle →
  let r := collect triple platform s in
  ok r = true ∧
  ls ("target_releases" :: platform) (fs (final r)) = Some (File <$> bundle) ∧
  ls ["target_releases"; triple] (fs (final r)) = Some ∅ ∧
  ∀ n, fs (Nat.iter n (λ s', final (collect triple platform s')) (final r))
       = fs (final r).
Proof.
  intros Hin Hs Hne Hvis Hd Hdom r.
  assert (glob_star (File <$> bundle) = File <$> bundle) as Hg.
  { apply glob_star_all. intros k Hk. apply Hvis.
    rewrite lookup_fmap in Hk. by apply fmap_is_Some in Hk. }
  assert (ok r = true) as Hok.
  { eapply collect_succeeds; eauto using mapping_apart.
    - rewrite Hg. intros H. apply Hne. by apply fmap_empty_inv in H.
    - eexists. by eapply mkdir_p_existing.
    - intros k v. rewrite Hg, Hd. simpl. intros Hk.
      rewrite lookup_fmap in Hk. rewrite lookup_fmap.
      destruct (bundle !! k), (prior !! k); by simplify_eq/=. }
  destruct (collect_ok _ _ _ Hok) as (ms & Hs' & _ & _ & _ & Hsrc & Hdst & _).
  rewrite Hs in Hs'. simplify_eq. rewrite Hg, Hd in *. simpl in Hdst.
  rewrite union_fmap_overwrite in Hdst by done.
  rewrite map_difference_diag in Hsrc.
  repeat split; try done.
  intros n. induction n as [|n IH]; [done|]. rewrite Nat.iter_succ.
  set (sn := Nat.iter n (λ s', final (collect triple platform s')) (final r))
    in *.
  assert (ls ["target_releases"; triple] (fs sn) = Some ∅) as Hsn
    by (rewrite IH; exact Hsrc).
  assert (ls ("target_releases" :: platform) (fs sn) = Some (File <$> bundle))
    as Hdn by (rewrite IH; exact Hdst).
  destruct (collect_nothing_staged _ _ _ _ Hsn Hdn) as [_ E].
  rewrite E. exact IH.
Qed.

Lemma collect_overwrites_prior_witness :
  let r := collect "aarch64-unknown-linux-musl" ["linux"; "arm64"] restaged_state in
  ok r = true ∧
  ls ["target_releases"; "linux"; "arm64"] (fs (final r))
  = Some (File <$> {[ "martin" := "martin rebuilt";
                      "martin-cp" := "martin-cp rebuilt";
                      "mbtiles" := "mbtiles rebuilt" ]}).
Proof.
  intros r.
  destruct (collect_overwrites_prior
              "aarch64-unknown-linux-musl" ["linux"; "arm64"] restaged_state
              {[ "martin" := "martin rebuilt";
                 "martin-cp" := "martin-cp rebuilt";
                 "mbtiles" := "mbtiles rebuilt" ]}
              {[ "martin" := "martin aarch64";
                 "martin-cp" := "martin-cp aarch64";
                 "mbtiles" := "mbtiles aarch64" ]})
    as (H1 & H2 & _).
  - unfold architecture_mapping. apply elem_of_cons. by left.
  - vm_compute. reflexivity.
  - intros H. vm_compute in H. discriminate H.
  - intros k [v Hk]. apply lookup_insert_Some in Hk as [[<- _]|[_ Hk]]; [done|].
    apply lookup_insert_Some in Hk as [[<- _]|[_ Hk]]; [done|].
    apply lookup_singleton_Some in Hk as [<- _]. done.
  - vm_compute. reflexivity.
  - rewrite !dom_insert_L. reflexivity.
  - exact (conj H1 H2).
Defined.

(** C1, as stated, fails: when the arm64 push succeeds and the amd64 push
    fails, the publish steps fail, yet the tag, which did not exist, now
    points to a manifest that has linux/arm64 and lacks linux/amd64. *)
Lemma publish_partial_failure_moves_tag :
  image_push amd64_push_fails ["linux/amd64"] (fs fresh_state) = false ∧
  jok (publish amd64_push_fails fresh_state) = false ∧
  tags (reg fresh_state) !! image_tag = None ∧
  tags (reg (jfinal (publish amd64_push_fails fresh_state))) !! image_tag
  = Some ["linux/arm64"].
Proof. vm_compute. done. Qed.

(** C1, amended.  If the push of a requested platform fails, the publish
    steps fail and no platform after the failing one is pushed.  The
    registry is left as the pushes before the failure made it: unchanged
    when linux/arm64, the first platform, fails, and with the arm64 push
    in place when linux/amd64 fails. *)
Theorem publish_stops_at_failed_push w s p :
  p ∈ platforms → image_push w [p] (fs s) = false →
  let j := publish w s in
  jok j = false ∧
  (image_push w ["linux/arm64"] (fs s) = false →
     jevents j = [EPush ["linux/arm64"] image_tag false] ∧
     reg (jfinal j) = reg s) ∧
  (image_push w ["linux/arm64"] (fs s) = true →
     jevents j = [EPush ["linux/arm64"] image_tag true;
                  EPush ["linux/amd64"] image_tag false] ∧
     reg (jfinal j) = push_image image_tag ["linux/arm64"] (reg s)).
Proof.
  intros Hp Hfail j. unfold j, publish, publish_steps, jevents.
  rewrite !run_steps_cons. simpl. unfold build_push_action. simpl.
  unfold platforms in Hp.
  destruct (image_push w ["linux/arm64"] (fs s)) eqn:Harm; simpl.
  - assert (image_push w ["linux/amd64"] (fs s) = false) as Hamd.
    { apply elem_of_cons in Hp as [->|Hp]; [congruence|].
      apply list_elem_of_singleton in Hp as ->. done. }
    rewrite Hamd. simpl. done.
  - done.
Qed.

Lemma publish_stops_at_failed_push_witness :
  let j := publish amd64_push_fails fresh_state in
  jok j = false ∧
  jevents j = [EPush ["linux/arm64"] image_tag true;
               EPush ["linux/amd64"] image_tag false].
Proof.
  intros j.
  destruct (publish_stops_at_failed_push amd64_push_fails fresh_state "linux/amd64")
    as (H1 & _ & H2).
  - unfold platforms. apply elem_of_cons. right. apply elem_of_cons. by left.
  - vm_compute. reflexivity.
  - split; [exact H1|]. apply H2. vm_compute. reflexivity.
Defined.

(** C2 does not hold of the workflow.  In the run where every step
    succeeds, both images are built and pushed, each as an image of its own
    under the shared tag: the second push replaces the first, and at the
    end the tag's manifest has linux/amd64 only. *)
Theorem successful_run_leaves_amd64_only :
  let j := run_job sample_world fresh_state in
  jok j = true ∧
  filter (λ e, is_push e = true) (jevents j)
  = [EPush ["linux/arm64"] image_tag true; EPush ["linux/amd64"] image_tag true] ∧
  tags (reg (jfinal j)) !! image_tag = Some ["linux/amd64"].
Proof. vm_compute. done. Qed.

(** Whatever the world, a publish that succeeds leaves the tag on the
    amd64 image. *)
Lemma publish_last_push_wins w s :
  jok (publish w s) = true →
  tags (reg (jfinal (publish w s))) !! image_tag = Some ["linux/amd64"].
Proof.
  unfold publish, publish_steps. rewrite !run_steps_cons. simpl.
  unfold build_push_action. simpl.
  destruct (image_push w ["linux/arm64"] (fs s)); simpl; [|done].
  destruct (image_push w ["linux/amd64"] (fs s)); simpl; [|done].
  intros _. apply lookup_insert_eq.
Qed.

Lemma keeps_env_fs_cmd g : keeps env (fs_cmd g).
Proof. intros s. apply fs_cmd_env. Qed.

(** Whether it fails or not, one round of the loop leaves the environment
    with the variable of its own target set and every other variable as
    it was. *)
Lemma build_target_env w t s :
  env (final (build_target w t s))
  = <[rustflags_var t := "-C strip=debuginfo"]> (env s).
Proof.
  unfold build_target.
  rewrite seq_true by done.
  change (final (?c s)) with (final (c s)). simpl.
  set (s1 := final (export (rustflags_var t) "-C strip=debuginfo" s)).
  assert (keeps env (cross_build_cmd w t "mbtiles";;
     cross_build_cmd w t "martin";;
     mkdir_p_cmd ["target_releases"; t];;
     mv_cmd ["target"; t; "release"] "martin" ["target_releases"; t];;
     mv_cmd ["target"; t; "release"] "martin-cp" ["target_releases"; t];;
     mv_cmd ["target"; t; "release"] "mbtiles" ["target_releases"; t])%cmd) as H.
  { repeat apply keeps_seq; try apply keeps_env_fs_cmd;
      intros s'; apply cross_build_cmd_env. }
  by rewrite H.
Qed.

Lemma seq_events c1 c2 s :
  events ((c1 ;; c2)%cmd s)
  = events (c1 s) ++ (if ok (c1 s) then events (c2 (final (c1 s))) else []).
Proof. unfold seq. destruct (ok (c1 s)); simpl; by rewrite ?app_nil_r. Qed.

Lemma build_target_events w t s e :
  e ∈ events (build_target w t s) →
  ∃ p b, e = EToolchain t p (Some "-C strip=debuginfo") b.
Proof.
  unfold build_target. rewrite seq_true by done. cbn [events].
  set (s1 := final (export (rustflags_var t) "-C strip=debuginfo" s)).
  assert (env s1 !! rustflags_var t = Some "-C strip=debuginfo") as Henv
    by apply lookup_insert_eq.
  change (events (export _ _ s)) with (@nil event). rewrite app_nil_l.
  rewrite seq_events, cross_build_cmd_events, Henv.
  rewrite elem_of_app, list_elem_of_singleton. intros [->|H]; [eauto|].
  destruct (ok (cross_build_cmd w t "mbtiles" s1)); [|by apply elem_of_nil in H].
  revert H.
  rewrite seq_events, cross_build_cmd_events, cross_build_cmd_env, Henv.
  rewrite elem_of_app, list_elem_of_singleton. intros [->|H]; [eauto|].
  destruct (ok (cross_build_cmd w t "martin" _)); [|by apply elem_of_nil in H].
  assert (emits (λ _, False) (mkdir_p_cmd ["target_releases"; t];;
     mv_cmd ["target"; t; "release"] "martin" ["target_releases"; t];;
     mv_cmd ["target"; t; "release"] "martin-cp" ["target_releases"; t];;
     mv_cmd ["target"; t; "release"] "mbtiles" ["target_releases"; t])%cmd) as Hno.
  { repeat apply emits_seq; apply emits_fs_cmd. }
  eapply Forall_forall in Hno; [|exact H]. done.
Qed.

Lemma build_targets_in_events ts w s e :
  e ∈ events (build_targets_in ts w s) →
  ∃ t p b, t ∈ ts ∧ e = EToolchain t p (Some "-C strip=debuginfo") b.
Proof.
  unfold build_targets_in. revert s.
  induction ts as [|t ts IH]; intros s; simpl; [by intros ?%elem_of_nil|].
  unfold seq. destruct (ok (build_target w t s)); simpl.
  - rewrite elem_of_app. intros [H|H].
    + apply build_target_events in H as (p & b & ->).
      exists t, p, b. split; [by left|done].
    + apply IH in H as (t' & p & b & ? & ->).
      exists t', p, b. split; [by right|done].
  - intros H. apply build_target_events in H as (p & b & ->).
    exists t, p, b. split; [by left|done].
Qed.

Lemma targets_rustflags_var_inj t1 t2 :
  t1 ∈ targets → t2 ∈ targets → rustflags_var t1 = rustflags_var t2 → t1 = t2.
Proof.
  unfold targets. rewrite !elem_of_cons, !elem_of_nil.
  intros [->|[->|[]]] [->|[->|[]]]; vm_compute; congruence.
Qed.

(** The translation of [tr] is not one-to-one on arbitrary names: a dash
    and an underscore end up as the same character.  The two targets of
    the workflow are not affected. *)
Lemma rustflags_var_dash_underscore :
  rustflags_var "x86-64" = rustflags_var "x86_64".
Proof. reflexivity. Qed.

(** C9.  The variable that carries the flags of a target is derived from
    the triple of this target alone, and the two targets of the workflow
    get different variables.  So the round of the loop for one target
    leaves the variable of the other target as it was, every toolchain
    call of that round runs under the flags set in that same round, and
    this holds of the loop over any list of targets, in any order. *)
Theorem rustflags_are_per_target t1 t2 w s :
  t1 ∈ targets → t2 ∈ targets → t1 ≠ t2 →
  rustflags_var t1 ≠ rustflags_var t2 ∧
  env (final (build_target w t1 s)) !! rustflags_var t2
  = env s !! rustflags_var t2 ∧
  (∀ e, e ∈ events (build_target w t1 s) →
        ∃ p b, e = EToolchain t1 p (Some "-C strip=debuginfo") b) ∧
  (∀ ts e, e ∈ events (build_targets_in ts w s) →
        ∃ t p b, t ∈ ts ∧ e = EToolchain t p (Some "-C strip=debuginfo") b).
Proof.
  intros H1 H2 Hne.
  assert (rustflags_var t1 ≠ rustflags_var t2) as Hvar
    by (intros ?; by apply Hne, targets_rustflags_var_inj).
  split; [done|]. split.
  { by rewrite build_target_env, lookup_insert_ne. }
  split; [apply build_target_events|].
  intros ts. apply build_targets_in_events.
Qed.

Lemma rustflags_are_per_target_witness :
  rustflags_var "aarch64-unknown-linux-musl"
  ≠ rustflags_var "x86_64-unknown-linux-musl" ∧
  env (final (build_target sample_world "aarch64-unknown-linux-musl" fresh_state))
    !! rustflags_var "x86_64-unknown-linux-musl" = None.
Proof.
  destruct (rustflags_are_per_target
              "aarch64-unknown-linux-musl" "x86_64-unknown-linux-musl"
              sample_world fresh_state) as (H1 & H2 & _).
  - unfold targets. apply elem_of_cons. by left.
  - unfold targets. apply elem_of_cons. right. apply elem_of_cons. by left.
  - vm_compute. congruence.
  - exact (conj H1 H2).
Defined.

(** The script is two calls of [ensure_step]: the step succeeds when the
    second call leaves it at [Exited None]. *)
Lemma ensure_script_steps w s :
  ∃ e,
    (ensure_step (create_fault w) "martin"
       (ensure_step (describe_fault w) "martin" AtDescribe (reg s)).1
       (ensure_step (describe_fault w) "martin" AtDescribe (reg s)).2)
    = (Exited e, reg (final (ensure_ecr_public_repository_exists w s))) ∧
    ok (ensure_ecr_public_repository_exists w s) = succeeded e.
Proof.
  unfold ensure_ecr_public_repository_exists, or_else, aws_describe_repositories,
    aws_create_repository, ensure_step. simpl.
  destruct (describe_repositories _ _ _) as [e|]; simpl.
  - destruct (create_repository _ _ _) as [r' e'] eqn:Hc. simpl. by exists e'.
  - by exists None.
Qed.

Lemma ensure_step_registry fault name p r :
  repos r ⊆ repos (ensure_step fault name p r).2 ∧
  repos (ensure_step fault name p r).2 ⊆ {[name]} ∪ repos r ∧
  tags (ensure_step fault name p r).2 = tags r ∧
  (p ≠ Exited None → (ensure_step fault name p r).1 = Exited None →
   name ∈ repos (ensure_step fault name p r).2).
Proof.
  unfold ensure_step, describe_repositories, create_repository.
  destruct p as [| |e]; simpl.
  - destruct fault; simpl; [set_solver|]. case_decide; simpl; set_solver.
  - destruct fault; simpl; [set_solver|]. case_decide; simpl; set_solver.
  - set_solver.
Qed.

Lemma interleave_registry name sched c :
  (first c = Exited None → name ∈ repos (shared c)) →
  (second c = Exited None → name ∈ repos (shared c)) →
  let c' := interleave name sched c in
  repos (shared c) ⊆ repos (shared c') ∧
  repos (shared c') ⊆ {[name]} ∪ repos (shared c) ∧
  tags (shared c') = tags (shared c) ∧
  (first c' = Exited None → name ∈ repos (shared c')) ∧
  (second c' = Exited None → name ∈ repos (shared c')).
Proof.
  revert c. induction sched as [|[[] fault] sched IH]; intros c H1 H2; simpl.
  - set_solver.
  - destruct (ensure_step_registry fault name (first c) (shared c))
      as (Ha & Hb & Hc & Hd).
    destruct (ensure_step fault name (first c) (shared c)) as [p r] eqn:E.
    simpl in *.
    destruct (IH (Race p (second c) r)) as (Ia & Ib & Ic & Id & Ie); simpl.
    + intros ->. destruct (decide (first c = Exited None)) as [Hf|Hf]; [|by apply Hd].
      apply Ha, H1, Hf.
    + intros Hs. apply Ha, H2, Hs.
    + simpl in *. split; [by etrans|]. split; [|split; [congruence|done]].
      etrans; [exact Ib|]. apply union_least; [apply union_subseteq_l|exact Hb].
  - destruct (ensure_step_registry fault name (second c) (shared c))
      as (Ha & Hb & Hc & Hd).
    destruct (ensure_step fault name (second c) (shared c)) as [p r] eqn:E.
    simpl in *.
    destruct (IH (Race (first c) p r)) as (Ia & Ib & Ic & Id & Ie); simpl.
    + intros Hs. apply Ha, H1, Hs.
    + intros ->. destruct (decide (second c = Exited None)) as [Hf|Hf]; [|by apply Hd].
      apply Ha, H2, Hf.
    + simpl in *. split; [by etrans|]. split; [|split; [congruence|done]].
      etrans; [exact Ib|]. apply union_least; [apply union_subseteq_l|exact Hb].
Qed.

Lemma describe_repositories_ok fault name r :
  describe_repositories fault name r = None → name ∈ repos r.
Proof.
  unfold describe_repositories. destruct fault; [done|].
  by destruct (decide (name ∈ repos r)).
Qed.

Lemma create_repository_ok fault name r :
  (create_repository fault name r).2 = None →
  name ∈ repos (create_repository fault name r).1.
Proof.
  unfold create_repository. destruct fault; [done|].
  destruct (decide (name ∈ repos r)); [done|]. simpl. set_solver.
Qed.

(** C3, as stated, fails.  Two runs of the script start together on a
    registry without the repository: both find nothing, the first creates
    the repository, and the create call of the second is refused because
    the repository exists.  The second run exits with this error. *)
Lemma concurrent_ensure_second_caller_fails :
  let c := interleave "martin"
             [(true, None); (false, None); (true, None); (false, None)]
             (Race AtDescribe AtDescribe (Registry ∅ ∅)) in
  first c = Exited None ∧
  second c = Exited (Some RepositoryAlreadyExists) ∧
  repos (shared c) = {[ "martin" ]}.
Proof. vm_compute. done. Qed.

(** C3, amended.  Once a call has succeeded the repository exists, and a
    further call whose describe goes through succeeds at the describe,
    creates nothing and changes nothing: the script can be repeated.  It
    does not tolerate a lost race: the script is [describe || create], so
    a create call that is refused fails the step whatever the reason, and
    a create call on a repository that exists is always refused.  In every
    interleaving of two runs the registry gains at most the one repository,
    and a run that exits with success leaves it in place. *)
Theorem ensure_repository_repeatable w w' s :
  ok (ensure_ecr_public_repository_exists w s) = true →
  describe_fault w' = None →
  let s1 := final (ensure_ecr_public_repository_exists w s) in
  "martin" ∈ repos (reg s1) ∧
  ensure_ecr_public_repository_exists w' s1
  = Outcome s1 true [EDescribe "martin" None] ∧
  (∀ w0 s0 e,
     ECreate "martin" (Some e) ∈ events (ensure_ecr_public_repository_exists w0 s0) →
     ok (ensure_ecr_public_repository_exists w0 s0) = false) ∧
  (∀ fault r, "martin" ∈ repos r →
     ∃ e, ensure_step fault "martin" AtCreate r = (Exited (Some e), r)) ∧
  (∀ sched r0,
     let c := interleave "martin" sched (Race AtDescribe AtDescribe r0) in
     repos r0 ⊆ repos (shared c) ∧
     repos (shared c) ⊆ {[ "martin" ]} ∪ repos r0 ∧
     tags (shared c) = tags r0 ∧
     (first c = Exited None → "martin" ∈ repos (shared c)) ∧
     (second c = Exited None → "martin" ∈ repos (shared c))).
Proof.
  intros Hok Hd s1.
  assert ("martin" ∈ repos (reg s1)) as Hin.
  { revert Hok. unfold s1, ensure_ecr_public_repository_exists, or_else,
      aws_describe_repositories, aws_create_repository. simpl.
    destruct (describe_repositories _ _ _) as [e0|] eqn:Hdesc; simpl.
    - destruct (create_repository _ _ _) as [r' e'] eqn:Hc. simpl.
      destruct e'; [done|]. intros _.
      pose proof (create_repository_ok (create_fault w) "martin" (reg s)) as H.
      rewrite Hc in H. by apply H.
    - intros _. by eapply describe_repositories_ok. }
  split; [done|]. split.
  { unfold ensure_ecr_public_repository_exists, or_else,
      aws_describe_repositories, describe_repositories. simpl.
    rewrite Hd. by rewrite decide_True. }
  split.
  { intros w0 s0 e.
    unfold ensure_ecr_public_repository_exists, or_else,
      aws_describe_repositories, aws_create_repository. simpl.
    destruct (describe_repositories _ _ _) as [e0|]; simpl.
    - destruct (create_repository _ _ _) as [r' e'] eqn:Hc. simpl.
      rewrite !elem_of_cons, elem_of_nil. intros [?|[?|[]]]; by simplify_eq.
    - rewrite list_elem_of_singleton. done. }
  split.
  { intros fault r Hr. unfold ensure_step, create_repository.
    destruct fault as [e|]; [by exists e|].
    rewrite decide_True by done. by eexists. }
  intros sched r0 c.
  by apply (interleave_registry "martin" sched (Race AtDescribe AtDescribe r0)).
Qed.

Lemma ensure_repository_repeatable_witness :
  let s1 := final (ensure_ecr_public_repository_exists sample_world fresh_state) in
  "martin" ∈ repos (reg s1) ∧
  ensure_ecr_public_repository_exists sample_world s1
  = Outcome s1 true [EDescribe "martin" None].
Proof.
  destruct (ensure_repository_repeatable sample_world sample_world fresh_state)
    as (H1 & H2 & _).
  - vm_compute. reflexivity.
  - reflexivity.
  - exact (conj H1 H2).
Defined.

(** A failed toolchain call is the last call the command makes, and the
    command fails with it. *)
Lemma halts_seq (c1 c2 : cmd) :
  (∀ s pre t p fl post,
     events (c1 s) = pre ++ EToolchain t p fl false :: post →
     post = [] ∧ ok (c1 s) = false) →
  (∀ s pre t p fl post,
     events (c2 s) = pre ++ EToolchain t p fl false :: post →
     post = [] ∧ ok (c2 s) = false) →
  ∀ s pre t p fl post,
    events ((c1 ;; c2)%cmd s) = pre ++ EToolchain t p fl false :: post →
    post = [] ∧ ok ((c1 ;; c2)%cmd s) = false.
Proof.
  intros H1 H2 s pre t p fl post. rewrite seq_events.
  destruct (ok (c1 s)) eqn:Hok.
  - rewrite seq_true by done. simpl.
    intros [(k & E1 & E2)|(k & E1 & E2)]%app_eq_inv.
    + destruct k as [|e k]; simpl in E2.
      * rewrite app_nil_r in E1. subst pre.
        by apply (H2 _ [] t p fl post).
      * simplify_eq. destruct (H1 _ _ _ _ _ _ E1). congruence.
    + by apply (H2 _ k t p fl post).
  - rewrite seq_false, app_nil_r by done. apply H1.
Qed.

Lemma halts_quiet (c : cmd) :
  emits (λ _, False) c →
  ∀ s pre t p fl post,
    events (c s) = pre ++ EToolchain t p fl false :: post →
    post = [] ∧ ok (c s) = false.
Proof.
  intros H s pre t p fl post E. specialize (H s). rewrite E in H.
  apply Forall_app in H as [_ H]. by apply Forall_cons in H as [? _].
Qed.

Lemma halts_cross_build_cmd w t0 p0 s pre t p fl post :
  events (cross_build_cmd w t0 p0 s) = pre ++ EToolchain t p fl false :: post →
  post = [] ∧ ok (cross_build_cmd w t0 p0 s) = false.
Proof.
  rewrite cross_build_cmd_events. intros E.
  destruct pre as [|e pre]; simpl in E; [by simplify_eq|].
  simplify_eq. by destruct pre.
Qed.

Lemma halts_build_targets_in ts w s pre t p fl post :
  events (build_targets_in ts w s) = pre ++ EToolchain t p fl false :: post →
  post = [] ∧ ok (build_targets_in ts w s) = false.
Proof.
  unfold build_targets_in. revert s pre t p fl post.
  induction ts as [|t0 ts IH]; simpl.
  { intros s pre t p fl post E. by destruct pre. }
  apply halts_seq; [|exact IH].
  unfold build_target.
  repeat apply halts_seq;
    first [ intros s'; apply halts_cross_build_cmd
          | apply halts_quiet; first [apply emits_export|apply emits_fs_cmd] ].
Qed.

Lemma jevents_app f1 b1 l1 f2 b2 l2 :
  jevents (JobOutcome f1 b1 (l1 ++ l2))
  = jevents (JobOutcome f2 b2 l1) ++ jevents (JobOutcome f2 b2 l2).
Proof. unfold jevents. simpl. by rewrite fmap_app, concat_app. Qed.

(** What each step of the job may call. *)
Lemma job_step_emits w st :
  st ∈ job_steps →
  (id st ≠ BuildTargets → emits (λ e, is_toolchain e = false) (run st w)) ∧
  (st ∉ publish_steps → emits (λ e, is_push e = false) (run st w)) ∧
  (st ∈ take 6 job_steps → emits (λ _, False) (run st w)).
Proof.
  unfold job_steps, publish_steps. simpl. intros H.
  repeat (apply elem_of_cons in H as [Heq|H]; [subst st|]);
    try by apply elem_of_nil in H.
  all: split; [intros Hid|split; [intros Hnp|intros Hin]].
  all: try done.
  all: try (intros s; simpl; by repeat constructor).
  all: try (exfalso; apply Hnp; by repeat constructor).
  all: try (exfalso; repeat (apply elem_of_cons in Hin as [Hin|Hin];
                              [discriminate Hin|]); by apply elem_of_nil in Hin).
  all: simpl.
  all: try (intros s; eapply Forall_impl; [apply emits_build_targets_in|]; by intros []).
  all: try (intros s; rewrite reorganize_artifacts_events; constructor).
  all: try (intros s; eapply Forall_impl; [apply emits_ensure|]; by intros ? [??]).
Qed.

Lemma Forall_False_nil {A} (l : list A) : Forall (λ _, False) l → l = [].
Proof. by destruct 1. Qed.

Lemma setup_steps_quiet w s : jevents (run_steps w (take 6 job_steps) s) = [].
Proof.
  apply Forall_False_nil, run_steps_events. intros st s' Hst.
  apply job_step_emits; [|done].
  eapply subseteq_take, Hst.
Qed.

Lemma jevents_cons f b r l :
  jevents (JobOutcome f b (r :: l)) = revents r ++ jevents (JobOutcome f b l).
Proof. done. Qed.

Lemma job_steps_at_build :
  job_steps
  = take 6 job_steps
    ++ Step BuildTargets (λ _, true) build_targets :: drop 7 job_steps.
Proof. reflexivity. Qed.

(** C5, as stated, fails.  The first toolchain call, for the aarch64
    target, exits with an error; the world would build everything for
    x86_64, but the loop is left at once: the run makes no other toolchain
    call and fails. *)
Lemma build_failure_skips_sibling_target :
  jevents (run_job aarch64_build_fails fresh_state)
  = [EToolchain "aarch64-unknown-linux-musl" "mbtiles"
       (Some "-C strip=debuginfo") false] ∧
  jok (run_job aarch64_build_fails fresh_state) = false ∧
  exit_ok (cross_build aarch64_build_fails "x86_64-unknown-linux-musl" "martin"
             (Some "-C strip=debuginfo")) = true.
Proof. vm_compute. done. Qed.

Lemma failed_toolchain_call_aborts w (before after : list step) s pre t p fl post :
  (∀ st, st ∈ before → emits (λ _, False) (run st w)) →
  (∀ st, st ∈ after → emits (λ e, is_toolchain e = false) (run st w)) →
  let j := run_steps w
             (before ++ Step BuildTargets (λ _, true) build_targets :: after) s in
  jevents j = pre ++ EToolchain t p fl false :: post →
  post = [] ∧ jok j = false ∧
  ∃ r, last (jsteps j) = Some r ∧ rid r = BuildTargets ∧ rok r = false.
Proof.
  intros Hbefore Hafter j. unfold j. rewrite run_steps_app.
  assert (jevents (run_steps w before s) = []) as Hq.
  { apply Forall_False_nil, run_steps_events. intros st s' Hst.
    by apply Hbefore. }
  destruct (jok (run_steps w before s)).
  2: { rewrite Hq. intros E. by destruct pre. }
  rewrite run_steps_cons. cbn [enabled run id].
  destruct (ok (build_targets w (jfinal (run_steps w before s)))) eqn:Hok;
    cbn [jsteps jok jfinal].
  - unfold jevents at 1. cbn [jsteps]. rewrite fmap_app, concat_app.
    fold (jevents (run_steps w before s)). rewrite Hq, app_nil_l.
    rewrite fmap_cons. cbn [revents concat].
    match goal with
    | |- context [concat (revents <$> jsteps ?j)] => fold (jevents j)
    end.
    intros E.
    match type of E with
    | ?l = _ => assert (EToolchain t p fl false ∈ l) as Hin
        by (rewrite E; apply elem_of_app; right; by left)
    end.
    apply elem_of_app in Hin as [Hin|Hin].
    + apply list_elem_of_split in Hin as (l1 & l2 & E1).
      destruct (halts_build_targets_in _ _ _ _ _ _ _ _ E1) as [_ Hf].
      unfold build_targets in Hok. congruence.
    + eapply Forall_forall in Hin;
        [|apply (run_steps_events (λ e, is_toolchain e = false));
          intros st s' Hst; by apply Hafter].
      done.
  - unfold jevents at 1. cbn [jsteps]. rewrite fmap_app, concat_app.
    fold (jevents (run_steps w before s)). rewrite Hq, app_nil_l.
    cbn [fmap list_fmap revents concat]. rewrite app_nil_r. intros E.
    destruct (halts_build_targets_in _ _ _ _ _ _ _ _ E) as [-> _].
    split; [done|]. split; [done|].
    eexists. split; [apply last_snoc|]. done.
Qed.

Lemma run_steps_ids_sublist w steps s :
  rid <$> jsteps (run_steps w steps s) `sublist_of` id <$> steps.
Proof.
  destruct (run_steps_prefix w steps s) as [k Hk].
  etrans; [|apply fmap_sublist, (sublist_filter (λ st, enabled st w = true))].
  rewrite Hk. by apply sublist_inserts_r.
Qed.

Lemma run_steps_ids_subseteq w steps s r :
  r ∈ jsteps (run_steps w steps s) → rid r ∈ id <$> steps.
Proof.
  intros Hr. eapply sublist_subseteq; [apply run_steps_ids_sublist|].
  by apply list_elem_of_fmap_2.
Qed.

(** No step runs twice. *)
Lemma run_steps_NoDup w steps s :
  NoDup (id <$> steps) → NoDup (rid <$> jsteps (run_steps w steps s)).
Proof. intros H. eapply sublist_NoDup; [done|apply run_steps_ids_sublist]. Qed.

(** The record of step [a]: the steps before [a] all succeeded, and the
    record says what [a] did in the state they left. *)
Lemma run_steps_record w l1 a l2 s r :
  r ∈ jsteps (run_steps w (l1 ++ a :: l2) s) →
  rid r = id a → id a ∉ id <$> l1 → id a ∉ id <$> l2 →
  jok (run_steps w l1 s) = true ∧
  r = StepRecord (id a)
        (ok (run a w (jfinal (run_steps w l1 s))))
        (events (run a w (jfinal (run_steps w l1 s)))).
Proof.
  intros Hr Hid H1 H2. revert Hr. rewrite run_steps_app.
  destruct (jok (run_steps w l1 s)) eqn:Hj1.
  2: { intros Hr%run_steps_ids_subseteq. congruence. }
  cbn [jsteps]. rewrite elem_of_app. intros [Hr%run_steps_ids_subseteq|Hr];
    [congruence|].
  split; [done|]. revert Hr. rewrite run_steps_cons.
  destruct (enabled a w).
  2: { intros Hr%run_steps_ids_subseteq. congruence. }
  destruct (ok (run a w _)); cbn [jsteps].
  - rewrite elem_of_cons. intros [->|Hr%run_steps_ids_subseteq]; [done|].
    congruence.
  - intros ->%list_elem_of_singleton. done.
Qed.

(** When the steps before [a] succeed, [a] runs. *)
Lemma run_steps_reaches w l1 a l2 s :
  enabled a w = true → jok (run_steps w l1 s) = true →
  id a ∈ rid <$> jsteps (run_steps w (l1 ++ a :: l2) s).
Proof.
  intros Hen Hj1. rewrite run_steps_app, Hj1. cbn [jsteps].
  rewrite fmap_app, elem_of_app. right. rewrite run_steps_cons, Hen.
  destruct (ok (run a w _)); cbn [jsteps]; rewrite fmap_cons; by left.
Qed.

(** When [a] fails, the job ends there. *)
Lemma run_steps_stops w l1 a l2 s :
  jok (run_steps w l1 s) = true → enabled a w = true →
  ok (run a w (jfinal (run_steps w l1 s))) = false →
  jok (run_steps w (l1 ++ a :: l2) s) = false ∧
  jevents (run_steps w (l1 ++ a :: l2) s)
  = jevents (run_steps w l1 s) ++ events (run a w (jfinal (run_steps w l1 s))).
Proof.
  intros Hj1 Hen Hok. rewrite run_steps_app, Hj1, run_steps_cons, Hen, Hok.
  cbn [jsteps jok]. split; [done|].
  unfold jevents. cbn [jsteps]. rewrite fmap_app, concat_app.
  cbn [fmap list_fmap concat revents]. by rewrite app_nil_r.
Qed.

(** The record of a step that comes after [a] in the file has a record of
    [a] before it, and that one says [a] succeeded. *)
Lemma run_steps_after w l1 a l2 s k r :
  enabled a w = true →
  jsteps (run_steps w (l1 ++ a :: l2) s) !! k = Some r →
  rid r ∉ id <$> (l1 ++ [a]) →
  ∃ i c, i < k ∧ jsteps (run_steps w (l1 ++ a :: l2) s) !! i = Some c ∧
         rid c = id a ∧ rok c = true.
Proof.
  intros Hen Hk Hr. revert Hk.
  replace (l1 ++ a :: l2) with ((l1 ++ [a]) ++ l2) by by rewrite <-app_assoc.
  rewrite run_steps_app.
  destruct (jok (run_steps w (l1 ++ [a]) s)) eqn:Hj1.
  2: { intros Hk%list_elem_of_lookup_2%run_steps_ids_subseteq. done. }
  cbn [jsteps]. intros Hk.
  destruct (decide (k < length (jsteps (run_steps w (l1 ++ [a]) s)))) as [Hlt|Hge].
  { rewrite lookup_app_l in Hk by done.
    apply list_elem_of_lookup_2, run_steps_ids_subseteq in Hk. done. }
  destruct (run_steps_succeeded _ _ _ Hj1) as [Hall Hids].
  rewrite filter_app, filter_cons, decide_True, filter_nil, fmap_app in Hids
    by done.
  assert (∃ c, last (jsteps (run_steps w (l1 ++ [a]) s)) = Some c ∧ rid c = id a)
    as (c & Hlast & Hc).
  { pose proof (f_equal last Hids) as Hl.
    change (id <$> [a]) with [id a] in Hl.
    rewrite last_snoc, fmap_last in Hl.
    destruct (last (jsteps _)) as [c|]; [|done]. simpl in Hl. exists c.
    split; [done|congruence]. }
  rewrite last_lookup in Hlast.
  exists (pred (length (jsteps (run_steps w (l1 ++ [a]) s)))), c.
  assert (length (jsteps (run_steps w (l1 ++ [a]) s)) ≠ 0) as Hlen.
  { intros H0. rewrite H0 in Hlast.
    by destruct (jsteps (run_steps w (l1 ++ [a]) s)). }
  split; [lia|]. split; [|split; [done|]].
  - rewrite lookup_app_l by lia. done.
  - eapply Forall_forall in Hall; [done|]. by eapply list_elem_of_lookup_2.
Qed.

Lemma job_ids_NoDup : NoDup (id <$> job_steps).
Proof. compute_done. Qed.

Lemma job_steps_at_reorganize :
  job_steps
  = take 8 job_steps
    ++ Step ReorganizeArtifacts (λ _, true) (λ _, reorganize_artifacts)
    :: drop 9 job_steps.
Proof. reflexivity. Qed.

Lemma job_steps_at_ensure :
  job_steps
  = steps_before EnsureEcrPublicRepositoryExists
    ++ Step EnsureEcrPublicRepositoryExists (λ _, true)
         ensure_ecr_public_repository_exists
    :: drop 12 job_steps.
Proof. reflexivity. Qed.

Lemma failed_create_fails_step w s e :
  ECreate "martin" (Some e) ∈ events (ensure_ecr_public_repository_exists w s) →
  ok (ensure_ecr_public_repository_exists w s) = false.
Proof.
  unfold ensure_ecr_public_repository_exists, or_else,
    aws_describe_repositories, aws_create_repository. simpl.
  destruct (describe_repositories _ _ _) as [e0|]; simpl.
  - destruct (create_repository _ _ _) as [r' e'] eqn:Hc. simpl.
    rewrite !elem_of_cons, elem_of_nil. intros [?|[?|[]]]; by simplify_eq.
  - rewrite list_elem_of_singleton. done.
Qed.

(** C6, as stated, fails: in a run whose build fails, provisioning does
    not run at all.  The steps that ran end with "Build targets". *)
Lemma provisioning_skipped_when_build_fails :
  rid <$> jsteps (run_job aarch64_build_fails fresh_state)
  = [InstallCross; CheckoutSources; RustCache; InitDatabase; SetUpQemu;
     SetUpDockerBuildx; BuildTargets] ∧
  EnsureEcrPublicRepositoryExists
  ∉ rid <$> jsteps (run_job aarch64_build_fails fresh_state).
Proof. split; [by vm_compute|]. compute_done. Qed.

Lemma elem_of_concat {A} (x : A) (ls : list (list A)) :
  x ∈ concat ls → ∃ l, x ∈ l ∧ l ∈ ls.
Proof.
  induction ls as [|l0 ls IH]; simpl; [by intros ?%elem_of_nil|].
  rewrite elem_of_app. intros [?|Hx].
  - exists l0. split; [done|by left].
  - destruct (IH Hx) as (l & ? & ?). exists l. split; [done|by right].
Qed.

Lemma run_steps_record_events (Q : step_id → list event → Prop) w steps s r :
  (∀ st s', st ∈ steps → Q (id st) (events (run st w s'))) →
  r ∈ jsteps (run_steps w steps s) → Q (rid r) (revents r).
Proof.
  revert s. induction steps as [|st rest IH]; intros s Hst.
  { by intros ?%elem_of_nil. }
  assert (∀ st s', st ∈ rest → Q (id st) (events (run st w s')))
    by (intros; apply Hst; by right).
  rewrite run_steps_cons. destruct (enabled st w); [|by apply IH].
  assert (Q (id st) (events (run st w s))) by (apply Hst; by left).
  destruct (ok (run st w s)); cbn [jsteps].
  - rewrite elem_of_cons. intros [->|Hr]; [done|]. by eapply IH.
  - by intros ->%list_elem_of_singleton.
Qed.

Lemma job_step_emits_no_aws w st :
  st ∈ job_steps → id st ≠ EnsureEcrPublicRepositoryExists →
  emits (λ e, is_toolchain e = true ∨ is_push e = true) (run st w).
Proof.
  unfold job_steps. intros H Hid.
  repeat (apply elem_of_cons in H as [Heq|H]; [subst st|]);
    try by apply elem_of_nil in H.
  all: try done.
  all: try (intros s; simpl; by repeat constructor).
  all: simpl.
  - intros s. eapply Forall_impl; [apply emits_build_targets_in|]. by left.
  - intros s. rewrite reorganize_artifacts_events. constructor.
Qed.

Lemma steps_before_ensure st :
  st ∈ steps_before EnsureEcrPublicRepositoryExists →
  st ∈ job_steps ∧ st ∉ publish_steps.
Proof.
  change (steps_before EnsureEcrPublicRepositoryExists) with (take 11 job_steps).
  intros H. split; [by eapply subseteq_take|].
  unfold job_steps in H. cbn [take] in H. unfold publish_steps.
  repeat (apply elem_of_cons in H as [Heq|H]; [subst st|]);
    try by apply elem_of_nil in H.
  all: rewrite !elem_of_cons, elem_of_nil; intros [Heq|[Heq|[]]];
    by apply (f_equal id) in Heq.
Qed.

Lemma failed_create_aborts w (before after : list step) s r e :
  let a := Step EnsureEcrPublicRepositoryExists (λ _, true)
             ensure_ecr_public_repository_exists in
  r ∈ jsteps (run_steps w (before ++ a :: after) s) →
  rid r = EnsureEcrPublicRepositoryExists →
  EnsureEcrPublicRepositoryExists ∉ id <$> before →
  EnsureEcrPublicRepositoryExists ∉ id <$> after →
  ECreate "martin" (Some e) ∈ revents r →
  (∀ st, st ∈ before → emits (λ e, is_push e = false) (run st w)) →
  jok (run_steps w (before ++ a :: after) s) = false ∧
  Forall (λ e, is_push e = false)
    (jevents (run_steps w (before ++ a :: after) s)).
Proof.
  intros a Hr Hid H1 H2 Her Hbefore.
  eapply run_steps_record in Hr as [Hj1 Hrec]; [|exact Hid|exact H1|exact H2].
  rewrite Hrec in Her. cbn [revents] in Her.
  apply failed_create_fails_step in Her.
  destruct (run_steps_stops w before a after s Hj1 eq_refl Her) as [Hjok Hev].
  split; [exact Hjok|]. rewrite Hev. apply Forall_app. split.
  - apply run_steps_events. intros st s' Hst. by apply Hbefore.
  - eapply Forall_impl; [apply emits_ensure|]. by intros ? [??].
Qed.

Lemma create_event_in_ensure_record w s r e :
  r ∈ jsteps (run_steps w job_steps s) →
  ECreate "martin" (Some e) ∈ revents r →
  rid r = EnsureEcrPublicRepositoryExists.
Proof.
  intros Hr Her.
  destruct (decide (rid r = EnsureEcrPublicRepositoryExists)) as [|Hne]; [done|].
  assert (Forall (λ e, is_toolchain e = true ∨ is_push e = true) (revents r))
    as Hq.
  { apply (run_steps_record_events
      (λ i evs, i ≠ EnsureEcrPublicRepositoryExists →
                Forall (λ e, is_toolchain e = true ∨ is_push e = true) evs)
      w job_steps s r); [|exact Hr|exact Hne].
    intros st s' Hst Hne'. by apply job_step_emits_no_aws. }
  eapply Forall_forall in Hq; [|exact Her]. by destruct Hq.
Qed.


Lemma ensure_not_before :
  EnsureEcrPublicRepositoryExists
  ∉ id <$> steps_before EnsureEcrPublicRepositoryExists.
Proof. compute_done. Qed.

Lemma ensure_not_after :
  EnsureEcrPublicRepositoryExists ∉ id <$> drop 12 job_steps.
Proof. compute_done. Qed.


Lemma elem_of_jevents j e :
  e ∈ jevents j → ∃ r, r ∈ jsteps j ∧ e ∈ revents r.
Proof.
  unfold jevents. intros (evs & He & Hevs)%elem_of_concat.
  apply list_elem_of_fmap in Hevs as (r & -> & Hr). eauto.
Qed.

(** A create call that was refused is the end of the run. *)
Lemma failed_create_aborts_job w s e :
  ECreate "martin" (Some e) ∈ jevents (run_steps w job_steps s) →
  jok (run_steps w job_steps s) = false ∧
  Forall (λ e, is_push e = false) (jevents (run_steps w job_steps s)).
Proof.
  intros (r & Hr & Her)%elem_of_jevents.
  pose proof (create_event_in_ensure_record w s r e Hr Her) as Hid.
  revert Hr. rewrite job_steps_at_ensure. intros Hr.
  apply (failed_create_aborts w _ _ s r e Hr Hid
           ensure_not_before ensure_not_after Her).
  intros st [??]%steps_before_ensure. by apply job_step_emits.
Qed.

(** C6, amended.  No step of the job runs twice, so provisioning runs at
    most once, and it runs exactly when every step before it succeeded.
    When it runs, "Reorganize artifacts" has run before it and succeeded;
    when a publish step runs, provisioning has run before it and
    succeeded.  A create call that is refused, for whatever reason, fails
    the run, and the run then pushes no image. *)
Theorem provisioning_between_collect_and_publish w s :
  let j := run_job w s in
  NoDup (rid <$> jsteps j) ∧
  (EnsureEcrPublicRepositoryExists ∈ rid <$> jsteps j ↔
   jok (run_steps w (steps_before EnsureEcrPublicRepositoryExists) s) = true) ∧
  (∀ k r, jsteps j !! k = Some r → rid r = EnsureEcrPublicRepositoryExists →
     ∃ i c, i < k ∧ jsteps j !! i = Some c ∧
            rid c = ReorganizeArtifacts ∧ rok c = true) ∧
  (∀ k r, jsteps j !! k = Some r → rid r ∈ id <$> publish_steps →
     ∃ i c, i < k ∧ jsteps j !! i = Some c ∧
            rid c = EnsureEcrPublicRepositoryExists ∧ rok c = true) ∧
  (∀ e, ECreate "martin" (Some e) ∈ jevents j →
     jok j = false ∧ Forall (λ e, is_push e = false) (jevents j)).
Proof.
  intros j. unfold j, run_job.
  split; [apply run_steps_NoDup, job_ids_NoDup|].
  split.
  { rewrite job_steps_at_ensure. split.
    - intros (r & Hid & Hr)%list_elem_of_fmap.
      eapply run_steps_record in Hr as [? _]; [done|done|compute_done..].
    - intros H.
      exact (run_steps_reaches w _
               (Step EnsureEcrPublicRepositoryExists (λ _, true)
                  ensure_ecr_public_repository_exists) _ s eq_refl H). }
  split.
  { intros k r Hk Hid. rewrite job_steps_at_reorganize in *.
    eapply run_steps_after; [|exact Hk|]; [reflexivity|].
    rewrite Hid. compute_done. }
  split.
  { intros k r Hk Hid. rewrite job_steps_at_ensure in *.
    eapply run_steps_after; [|exact Hk|]; [reflexivity|].
    revert Hid. unfold publish_steps. rewrite !fmap_cons, !elem_of_cons.
    intros [->|[->|?%elem_of_nil]]; [compute_done..|done]. }
  apply failed_create_aborts_job.
Qed.

Lemma lookup_path_cons x p m :
  lookup_path (x :: p) (Dir m) = m !! x ≫= lookup_path p.
Proof. reflexivity. Qed.

Lemma lookup_path_below_missing p q n :
  lookup_path p n = None → lookup_path (p ++ q) n = None.
Proof.
  revert n. induction p as [|x p IH]; intros n; [done|].
  destruct n as [d|m]; [done|]. rewrite <-app_comm_cons, !lookup_path_cons.
  destruct (m !! x) as [c|]; simpl; [apply IH|done].
Qed.

Lemma ls_missing p n : lookup_path p n = None → ls p n = None.
Proof. unfold ls. by intros ->. Qed.

(** After the script has succeeded, both platform directories hold
    files. *)
Lemma reorganize_artifacts_ok s triple platform :
  ok (reorganize_artifacts s) = true →
  (triple, platform) ∈ architecture_mapping →
  ∃ m, ls ("target_releases" :: platform) (fs (final (reorganize_artifacts s)))
       = Some m ∧ m ≠ ∅.
Proof.
  intros Hok Hin. unfold reorganize_artifacts in *.
  pose proof (seq_ok_final _ _ _ Hok) as Hfin.
  apply seq_ok_inv in Hok as [H1 H2]. rewrite Hfin. clear Hfin.
  destruct (collect_ok _ _ _ H1)
    as (ms1 & _ & Hne1 & _ & _ & _ & Hd1 & _).
  destruct (collect_ok _ _ _ H2)
    as (ms2 & _ & Hne2 & _ & _ & _ & Hd2 & Hfr2 & _).
  unfold architecture_mapping in Hin.
  apply elem_of_cons in Hin as [Heq|Hin]; [|apply elem_of_cons in Hin as [Heq|Hin]].
  - simplify_eq. eexists. split.
    + rewrite <-Hd1. apply ls_apart, Hfr2; reflexivity.
    + by apply map_positive_l_alt.
  - simplify_eq. eexists. split; [exact Hd2|]. by apply map_positive_l_alt.
  - by apply elem_of_nil in Hin.
Qed.

Lemma run_steps_keeps_fs w steps s :
  (∀ st, st ∈ steps → keeps fs (run st w)) →
  fs (jfinal (run_steps w steps s)) = fs s.
Proof.
  intros H.
  apply (run_steps_invariant (λ s', fs s' = fs s)); [|done].
  intros st s' Hst <-. by apply H.
Qed.

Lemma run_steps_keeps_tags w steps s :
  (∀ st, st ∈ steps → keeps (λ s, tags (reg s)) (run st w)) →
  tags (reg (jfinal (run_steps w steps s))) = tags (reg s).
Proof.
  intros H.
  apply (run_steps_invariant (λ s', tags (reg s') = tags (reg s))); [|done].
  intros st s' Hst <-. by apply (H st Hst s').
Qed.

(** What the steps of the job keep. *)
Lemma job_step_keeps w st :
  st ∈ job_steps →
  (st ∉ publish_steps → keeps (λ s, tags (reg s)) (run st w)) ∧
  (id st ≠ BuildTargets → id st ≠ ReorganizeArtifacts → keeps fs (run st w)).
Proof.
  unfold job_steps, publish_steps. intros H.
  repeat (apply elem_of_cons in H as [Heq|H]; [subst st|]);
    try by apply elem_of_nil in H.
  all: split; [intros Hnp|intros Hb Hr].
  all: try done.
  all: try (exfalso; apply Hnp; by repeat constructor).
  all: simpl.
  all: try (intros s; by rewrite keeps_reg_build_targets).
  all: try (intros s; by rewrite keeps_reg_reorganize_artifacts).
  all: try apply keeps_tags_ensure.
  all: try apply keeps_fs_ensure.
  all: try apply keeps_fs_build_push_action.
Qed.

Lemma run_steps_singleton w a s :
  enabled a w = true →
  jok (run_steps w [a] s) = ok (run a w s) ∧
  fs (jfinal (run_steps w [a] s)) = fs (final (run a w s)).
Proof.
  intros Hen. rewrite run_steps_cons, Hen.
  by destruct (ok (run a w s)).
Qed.

Lemma run_steps_app_ok w l1 l2 s :
  jok (run_steps w (l1 ++ l2) s) = true →
  jok (run_steps w l1 s) = true ∧
  jok (run_steps w l2 (jfinal (run_steps w l1 s))) = true ∧
  jfinal (run_steps w (l1 ++ l2) s)
  = jfinal (run_steps w l2 (jfinal (run_steps w l1 s))).
Proof.
  rewrite run_steps_app. destruct (jok (run_steps w l1 s)) eqn:E.
  - cbn [jok jfinal]. by intros ->.
  - congruence.
Qed.

Lemma no_push_unless_collected w (before mid : list step) s triple platform :
  let reorganize := Step ReorganizeArtifacts (λ _, true)
                      (λ _, reorganize_artifacts) in
  let j := run_steps w ((before ++ reorganize :: mid) ++ publish_steps) s in
  (∀ st, st ∈ before ++ reorganize :: mid →
         emits (λ e, is_push e = false) (run st w) ∧
         keeps (λ s, tags (reg s)) (run st w)) →
  (∀ st, st ∈ mid → keeps fs (run st w)) →
  (∀ st, st ∈ before ++ reorganize :: mid → id st ∉ id <$> publish_steps) →
  (triple, platform) ∈ architecture_mapping →
  default ∅ (ls ("target_releases" :: platform) (fs (jfinal j))) = ∅ →
  jok j = false ∧
  Forall (λ e, is_push e = false) (jevents j) ∧
  tags (reg (jfinal j)) = tags (reg s) ∧
  ∀ r, r ∈ jsteps j → rid r ∉ id <$> publish_steps.
Proof.
  intros reorganize j Hpre Hmid Hids Hin Hempty.
  destruct (jok (run_steps w (before ++ reorganize :: mid) s)) eqn:Hj.
  - exfalso.
    assert (fs (jfinal j)
            = fs (jfinal (run_steps w (before ++ reorganize :: mid) s))) as Hfs.
    { unfold j. rewrite run_steps_app, Hj. cbn [jfinal].
      apply run_steps_keeps_fs. intros st Hst. unfold publish_steps in Hst.
      apply elem_of_cons in Hst as [->|Hst];
        [|apply list_elem_of_singleton in Hst as ->];
        apply keeps_fs_build_push_action. }
    rewrite Hfs in Hempty. revert Hj Hempty.
    replace (before ++ reorganize :: mid) with ((before ++ [reorganize]) ++ mid)
      by by rewrite <-app_assoc.
    intros (Hbr & _ & ->)%run_steps_app_ok.
    rewrite run_steps_keeps_fs by done.
    apply run_steps_app_ok in Hbr as (_ & Hr & ->).
    destruct (run_steps_singleton w reorganize
                (jfinal (run_steps w before s)) eq_refl) as [Hok ->].
    rewrite Hok in Hr. cbn [run reorganize] in *.
    destruct (reorganize_artifacts_ok _ _ _ Hr Hin) as (m & -> & Hm). done.
  - unfold j. rewrite run_steps_app, Hj. split; [done|].
    split; [|split].
    + apply run_steps_events. intros st s' Hst. by apply Hpre.
    + apply run_steps_keeps_tags. intros st Hst. by apply Hpre.
    + intros r Hr Hp. apply run_steps_ids_subseteq in Hr.
      apply list_elem_of_fmap in Hr as (st & Hid & Hst).
      apply (Hids st Hst). by rewrite <-Hid.
Qed.

Lemma job_steps_before_publish :
  job_steps
  = (take 8 job_steps
     ++ Step ReorganizeArtifacts (λ _, true) (λ _, reorganize_artifacts)
     :: take 5 (drop 9 job_steps))
    ++ publish_steps.
Proof. reflexivity. Qed.

Lemma steps_before_publish st :
  st ∈ take 8 job_steps
       ++ Step ReorganizeArtifacts (λ _, true) (λ _, reorganize_artifacts)
       :: take 5 (drop 9 job_steps) →
  st ∈ job_steps ∧ st ∉ publish_steps.
Proof.
  change (take 8 job_steps
          ++ Step ReorganizeArtifacts (λ _, true) (λ _, reorganize_artifacts)
          :: take 5 (drop 9 job_steps)) with (take 14 job_steps).
  intros H. split; [by eapply subseteq_take|].
  unfold job_steps in H. cbn [take] in H. unfold publish_steps.
  repeat (apply elem_of_cons in H as [Heq|H]; [subst st|]);
    try by apply elem_of_nil in H.
  all: rewrite !elem_of_cons, elem_of_nil; intros [Heq|[Heq|[]]];
    by apply (f_equal id) in Heq.
Qed.

Lemma steps_after_reorganize st :
  st ∈ take 5 (drop 9 job_steps) →
  st ∈ job_steps ∧ id st ≠ BuildTargets ∧ id st ≠ ReorganizeArtifacts.
Proof.
  intros H. split; [by eapply subseteq_drop, subseteq_take|].
  unfold job_steps in H. cbn [take drop] in H.
  repeat (apply elem_of_cons in H as [Heq|H]; [subst st|]);
    try by apply elem_of_nil in H.
  all: by split.
Qed.

Lemma ids_before_publish st :
  st ∈ take 8 job_steps
       ++ Step ReorganizeArtifacts (λ _, true) (λ _, reorganize_artifacts)
       :: take 5 (drop 9 job_steps) →
  id st ∉ id <$> publish_steps.
Proof.
  change (take 8 job_steps
          ++ Step ReorganizeArtifacts (λ _, true) (λ _, reorganize_artifacts)
          :: take 5 (drop 9 job_steps)) with (take 14 job_steps).
  intros H. unfold job_steps in H. cbn [take] in H. unfold publish_steps.
  repeat (apply elem_of_cons in H as [Heq|H]; [subst st|]);
    try by apply elem_of_nil in H.
  all: cbn [fmap list_fmap id build_linux_arm64_docker_image
            build_linux_amd64_docker_image uses rust_cache];
    rewrite !elem_of_cons, elem_of_nil; by intros [Heq|[Heq|[]]].
Qed.

(** C4.  No publish step runs on a staging tree that lacks a platform.
    The publish steps are reached only inside a run of the job, after the
    steps before them have succeeded: if the directory of a requested
    platform is missing or empty, the run has failed, no publish step is
    among the steps that ran, no push was attempted and the tags of the
    registry are as they were.  A workflow has no named errors: the
    failure is the nonzero exit of the step that left the platform
    without binaries (the [mv] of "Reorganize artifacts" fails when there
    is nothing to move), and the steps after a failed step are skipped. *)
Theorem no_push_without_platform_artifacts w s triple platform :
  (triple, platform) ∈ architecture_mapping →
  default ∅ (ls ("target_releases" :: platform) (fs (jfinal (run_job w s)))) = ∅ →
  jok (run_job w s) = false ∧
  Forall (λ e, is_push e = false) (jevents (run_job w s)) ∧
  tags (reg (jfinal (run_job w s))) = tags (reg s) ∧
  ∀ r, r ∈ jsteps (run_job w s) → rid r ∉ id <$> publish_steps.
Proof.
  unfold run_job. rewrite job_steps_before_publish.
  apply no_push_unless_collected.
  - intros st [Hjob Hnp]%steps_before_publish. split.
    + by apply job_step_emits.
    + by apply job_step_keeps.
  - intros st (Hjob & ? & ?)%steps_after_reorganize. by apply job_step_keeps.
  - apply ids_before_publish.
Qed.

Lemma no_push_without_platform_artifacts_witness :
  jok (run_job x86_64_build_fails fresh_state) = false ∧
  Forall (λ e, is_push e = false) (jevents (run_job x86_64_build_fails fresh_state)) ∧
  tags (reg (jfinal (run_job x86_64_build_fails fresh_state)))
  = tags (reg fresh_state) ∧
  ∀ r, r ∈ jsteps (run_job x86_64_build_fails fresh_state) →
       rid r ∉ id <$> publish_steps.
Proof.
  apply (no_push_without_platform_artifacts x86_64_build_fails fresh_state
           "x86_64-unknown-linux-musl" ["linux"; "amd64"]).
  - unfold architecture_mapping. apply elem_of_cons. right. apply elem_of_cons. by left.
  - vm_compute. reflexivity.
Defined.

Lemma binaries_visible (m : gmap string node) k :
  dom m = binaries → is_Some (m !! k) → hidden k = false.
Proof.
  intros Hdom Hk%elem_of_dom. rewrite Hdom in Hk. unfold binaries in Hk.
  rewrite !elem_of_union, !elem_of_singleton in Hk.
  by destruct Hk as [[->| ->]| ->].
Qed.

Lemma binaries_nonempty (m : gmap string node) : dom m = binaries → m ≠ ∅.
Proof.
  intros Hdom ->. rewrite dom_empty_L in Hdom.
  assert ("martin" ∈ binaries) as Hin.
  { unfold binaries. rewrite !elem_of_union, !elem_of_singleton. by left; left. }
  rewrite <-Hdom in Hin. by apply not_elem_of_empty in Hin.
Qed.


(** One round of the loop stages the three binaries. *)
Lemma build_target_staged w t s :
  ok (build_target w t s) = true →
  default ∅ (ls ["target_releases"; t] (fs s)) = ∅ →
  ∃ m, ls ["target_releases"; t] (fs (final (build_target w t s))) = Some m ∧
       dom m = binaries.
Proof.
  intros Hok Hempty.
  destruct (build_target_ok _ _ _ Hok) as (v1 & v2 & v3 & Hls & _).
  rewrite Hempty in Hls. eexists. split; [exact Hls|].
  rewrite !dom_insert_L, dom_empty_L. unfold binaries.
  apply set_eq. intros k.
  rewrite !elem_of_union, !elem_of_singleton, elem_of_empty. tauto.
Qed.

Lemma build_targets_staged w s :
  lookup_path ["target_releases"] (fs s) = None →
  ok (build_targets w s) = true →
  (∃ m, ls ["target_releases"; "aarch64-unknown-linux-musl"]
          (fs (final (build_targets w s))) = Some m ∧ dom m = binaries) ∧
  (∃ m, ls ["target_releases"; "x86_64-unknown-linux-musl"]
          (fs (final (build_targets w s))) = Some m ∧ dom m = binaries) ∧
  lookup_path ["target_releases"; "linux"] (fs (final (build_targets w s))) = None.
Proof.
  intros Hfresh Hok. unfold build_targets, build_targets_in, targets in *.
  cbn [for_each] in *.
  pose proof (seq_ok_final _ _ _ Hok) as Hfin.
  apply seq_ok_inv in Hok as [H1 H2]. rewrite Hfin. clear Hfin.
  pose proof (seq_ok_final _ _ _ H2) as Hfin.
  apply seq_ok_inv in H2 as [H2 _]. rewrite Hfin. clear Hfin.
  cbn [skip final].
  set (s1 := final (build_target w "aarch64-unknown-linux-musl" s)) in *.
  assert (∀ q, lookup_path ("target_releases" :: q) (fs s) = None) as Hnone.
  { intros q. by apply (lookup_path_below_missing ["target_releases"] q). }
  destruct (build_target_staged _ _ _ H1) as (m1 & Hm1 & Hd1).
  { by rewrite ls_missing. }
  destruct (build_target_ok _ _ _ H1) as (_ & _ & _ & _ & Hfr1 & _).
  fold s1 in Hm1, Hfr1.
  destruct (build_target_staged _ _ _ H2) as (m2 & Hm2 & Hd2).
  { rewrite ls_missing; [done|]. rewrite Hfr1 by reflexivity. apply Hnone. }
  destruct (build_target_ok _ _ _ H2) as (_ & _ & _ & _ & Hfr2 & _).
  split; [|split].
  - exists m1. split; [|done]. rewrite <-Hm1. apply ls_apart, Hfr2; reflexivity.
  - by exists m2.
  - rewrite Hfr2, Hfr1 by reflexivity. apply Hnone.
Qed.

Lemma reorganize_artifacts_collected s ma mx :
  ls ["target_releases"; "aarch64-unknown-linux-musl"] (fs s) = Some ma →
  ls ["target_releases"; "x86_64-unknown-linux-musl"] (fs s) = Some mx →
  dom ma = binaries → dom mx = binaries →
  lookup_path ["target_releases"; "linux"] (fs s) = None →
  ok (reorganize_artifacts s) = true →
  let n := fs (final (reorganize_artifacts s)) in
  ls ["target_releases"; "linux"; "arm64"] n = Some ma ∧
  ls ["target_releases"; "linux"; "amd64"] n = Some mx ∧
  ls ["target_releases"; "aarch64-unknown-linux-musl"] n = Some ∅ ∧
  ls ["target_releases"; "x86_64-unknown-linux-musl"] n = Some ∅.
Proof.
  intros Ha Hx Hda Hdx Hlinux Hok n. unfold n, reorganize_artifacts in *.
  pose proof (seq_ok_final _ _ _ Hok) as Hfin.
  apply seq_ok_inv in Hok as [H1 H2]. rewrite Hfin. clear Hfin n.
  set (s1 := final (collect "aarch64-unknown-linux-musl" ["linux"; "arm64"] s)) in *.
  assert (∀ q, lookup_path (["target_releases"; "linux"] ++ q) (fs s) = None)
    as Hnone by (intros q; by apply lookup_path_below_missing).
  destruct (collect_ok _ _ _ H1) as (ms1 & Hs1 & _ & _ & _ & Hsrc1 & Hdst1 & Hfr1 & _).
  fold s1 in Hsrc1, Hdst1, Hfr1.
  rewrite Ha in Hs1. simplify_eq.
  rewrite (glob_star_all ms1) in Hsrc1, Hdst1 by eauto using binaries_visible.
  assert (ls ["target_releases"; "linux"; "arm64"] (fs s) = None) as Harm
    by apply ls_missing, (Hnone ["arm64"]).
  rewrite Harm in Hdst1. simpl in Hdst1.
  rewrite map_union_empty in Hdst1. rewrite map_difference_diag in Hsrc1.
  destruct (collect_ok _ _ _ H2) as (ms2 & Hs2 & _ & _ & _ & Hsrc2 & Hdst2 & Hfr2 & _).
  assert (ls ["target_releases"; "x86_64-unknown-linux-musl"] (fs s1) = Some mx)
    as Hx1 by (rewrite <-Hx; apply ls_apart, Hfr1; reflexivity).
  rewrite Hx1 in Hs2. simplify_eq.
  rewrite (glob_star_all ms2) in Hsrc2, Hdst2 by eauto using binaries_visible.
  assert (ls ["target_releases"; "linux"; "amd64"] (fs s1) = None) as Hamd.
  { apply ls_missing. rewrite Hfr1 by reflexivity. apply (Hnone ["amd64"]). }
  rewrite Hamd in Hdst2. simpl in Hdst2.
  rewrite map_union_empty in Hdst2. rewrite map_difference_diag in Hsrc2.
  split; [|split; [done|split; [|done]]].
  - rewrite <-Hdst1. apply ls_apart, Hfr2; reflexivity.
  - rewrite <-Hsrc1. apply ls_apart, Hfr2; reflexivity.
Qed.

Lemma collected_binaries w (before between after : list step) s r triple platform :
  let build := Step BuildTargets (λ _, true) build_targets in
  let reorganize := Step ReorganizeArtifacts (λ _, true)
                      (λ _, reorganize_artifacts) in
  let j := run_steps w ((before ++ [build]) ++ between ++ reorganize :: after) s in
  (∀ st, st ∈ before ++ between ++ after → keeps fs (run st w)) →
  ReorganizeArtifacts ∉ id <$> ((before ++ [build]) ++ between) →
  ReorganizeArtifacts ∉ id <$> after →
  lookup_path ["target_releases"] (fs s) = None →
  r ∈ jsteps j → rid r = ReorganizeArtifacts → rok r = true →
  (triple, platform) ∈ architecture_mapping →
  dom <$> ls ("target_releases" :: platform) (fs (jfinal j)) = Some binaries ∧
  ls ["target_releases"; triple] (fs (jfinal j)) = Some ∅ ∧
  dom <$> ls ["target_releases"; triple]
            (fs (jfinal (run_steps w (before ++ [build]) s)))
  = Some binaries.
Proof.
  intros build reorganize j Hkeep Hid1 Hid2 Hfresh Hr Hrid Hrok Hin.
  assert (∀ st, st ∈ before → keeps fs (run st w)) as Hk1
    by (intros; apply Hkeep, elem_of_app; by left).
  assert (∀ st, st ∈ between → keeps fs (run st w)) as Hk2
    by (intros; apply Hkeep, elem_of_app; right; apply elem_of_app; by left).
  assert (∀ st, st ∈ after → keeps fs (run st w)) as Hk3
    by (intros; apply Hkeep, elem_of_app; right; apply elem_of_app; by right).
  set (l1 := (before ++ [build]) ++ between) in *.
  assert (j = run_steps w (l1 ++ reorganize :: after) s) as Hj
    by (unfold j, l1; by rewrite (app_assoc (before ++ [build]) between)).
  rewrite Hj in Hr |- *. clear Hj j.
  destruct (run_steps_record w l1 reorganize after s r Hr Hrid Hid1 Hid2)
    as [Hj1 Hrec].
  rewrite Hrec in Hrok. cbn [rok run reorganize] in Hrok.
  set (s1 := jfinal (run_steps w l1 s)) in *.
  (* the state in which the files are collected *)
  pose proof Hj1 as Hj1'. unfold l1 in Hj1'.
  apply run_steps_app_ok in Hj1' as (Hbb & _ & Hs1).
  assert (fs s1 = fs (jfinal (run_steps w (before ++ [build]) s))) as Hfs1.
  { unfold s1, l1. rewrite Hs1. by apply run_steps_keeps_fs. }
  pose proof Hbb as Hbb'.
  apply run_steps_app_ok in Hbb' as (_ & Hb & Hsb).
  destruct (run_steps_singleton w build (jfinal (run_steps w before s)) eq_refl)
    as [Hokb Hfsb].
  rewrite Hokb in Hb. rewrite Hsb, Hfsb in Hfs1. cbn [run build] in Hb, Hfs1.
  assert (lookup_path ["target_releases"]
            (fs (jfinal (run_steps w before s))) = None) as Hfresh'
    by (by rewrite run_steps_keeps_fs).
  destruct (build_targets_staged _ _ Hfresh' Hb)
    as ((ma & Ha & Hda) & (mx & Hx & Hdx) & Hlinux).
  rewrite <-Hfs1 in Ha, Hx, Hlinux.
  destruct (reorganize_artifacts_collected s1 ma mx Ha Hx Hda Hdx Hlinux Hrok)
    as (Harm & Hamd & Hea & Hex).
  (* the state at the end of the job *)
  assert (fs (jfinal (run_steps w (l1 ++ reorganize :: after) s))
          = fs (final (reorganize_artifacts s1))) as Hend.
  { rewrite run_steps_app, Hj1. cbn [jfinal]. fold s1.
    rewrite run_steps_cons. cbn [enabled run reorganize]. rewrite Hrok.
    cbn [jfinal]. by rewrite run_steps_keeps_fs. }
  rewrite Hend, Hsb, Hfsb. cbn [run build]. rewrite Hfs1 in Ha, Hx.
  unfold architecture_mapping in Hin.
  apply elem_of_cons in Hin as [Heq|Hin]; [|apply elem_of_cons in Hin as [Heq|Hin]].
  - simplify_eq. by rewrite Harm, Hea, Ha, <-Hda.
  - simplify_eq. by rewrite Hamd, Hex, Hx, <-Hdx.
  - by apply elem_of_nil in Hin.
Qed.

Lemma job_steps_at_build_and_reorganize :
  job_steps
  = (take 6 job_steps ++ [Step BuildTargets (λ _, true) build_targets])
    ++ take 1 (drop 7 job_steps)
    ++ Step ReorganizeArtifacts (λ _, true) (λ _, reorganize_artifacts)
    :: drop 9 job_steps.
Proof. reflexivity. Qed.

Lemma steps_before_save :
  steps_before SaveBuildArtifacts
  = take 6 job_steps ++ [Step BuildTargets (λ _, true) build_targets].
Proof. reflexivity. Qed.

Lemma steps_around_build st :
  st ∈ take 6 job_steps ++ take 1 (drop 7 job_steps) ++ drop 9 job_steps →
  st ∈ job_steps ∧ id st ≠ BuildTargets ∧ id st ≠ ReorganizeArtifacts.
Proof.
  intros H. split.
  { apply elem_of_app in H as [H|H]; [by eapply subseteq_take|].
    apply elem_of_app in H as [H|H]; [by eapply subseteq_drop, subseteq_take|].
    by eapply subseteq_drop. }
  unfold job_steps in H. cbn [take drop app] in H.
  repeat (apply elem_of_cons in H as [Heq|H]; [subst st|]);
    try by apply elem_of_nil in H.
  all: by split.
Qed.

(** C10.  On a runner where nothing is staged yet, each round of "Build
    targets" that succeeds leaves exactly [martin], [martin-cp] and
    [mbtiles] in the directory of its target; and when "Reorganize
    artifacts" has succeeded, the directory of each target held exactly
    these three after the build, it is empty at the end of the run, and the
    platform directory of the target holds exactly these three. *)
Theorem three_binaries_per_platform w s :
  lookup_path ["target_releases"] (fs s) = None →
  (∀ t s', t ∈ targets →
     default ∅ (ls ["target_releases"; t] (fs s')) = ∅ →
     ok (build_target w t s') = true →
     dom <$> ls ["target_releases"; t] (fs (final (build_target w t s')))
     = Some binaries) ∧
  (∀ r triple platform,
     r ∈ jsteps (run_job w s) → rid r = ReorganizeArtifacts → rok r = true →
     (triple, platform) ∈ architecture_mapping →
     dom <$> ls ("target_releases" :: platform) (fs (jfinal (run_job w s)))
     = Some binaries ∧
     ls ["target_releases"; triple] (fs (jfinal (run_job w s))) = Some ∅ ∧
     dom <$> ls ["target_releases"; triple]
               (fs (jfinal (run_steps w (steps_before SaveBuildArtifacts) s)))
     = Some binaries).
Proof.
  intros Hfresh. split.
  { intros t s' _ Hempty Hok.
    destruct (build_target_staged _ _ _ Hok Hempty) as (m & -> & <-). done. }
  intros r triple platform. unfold run_job.
  rewrite job_steps_at_build_and_reorganize, steps_before_save.
  intros Hr Hrid Hrok Hin.
  apply (collected_binaries w _ _ _ s r triple platform); try done.
  - intros st (Hjob & ? & ?)%steps_around_build. by apply job_step_keeps.
  - compute_done.
  - compute_done.
Qed.

Lemma three_binaries_per_platform_witness :
  dom <$> ls ["target_releases"; "linux"; "arm64"]
            (fs (jfinal (run_job sample_world fresh_state)))
  = Some binaries ∧
  ls ["target_releases"; "aarch64-unknown-linux-musl"]
     (fs (jfinal (run_job sample_world fresh_state))) = Some ∅.
Proof.
  destruct (three_binaries_per_platform sample_world fresh_state) as [_ H];
    [reflexivity|].
  destruct (H (StepRecord ReorganizeArtifacts true [])
              "aarch64-unknown-linux-musl" ["linux"; "arm64"])
    as (H1 & H2 & _).
  - vm_compute. do 8 apply list_elem_of_further. apply list_elem_of_here.
  - reflexivity.
  - reflexivity.
  - unfold architecture_mapping. apply elem_of_cons. by left.
  - exact (conj H1 H2).
Defined.

(** * Further properties of the scripts *)

Lemma mkdir_p_cons x p m :
  mkdir_p (x :: p) (Dir m)
  = child ← mkdir_p p (default (Dir ∅) (m !! x)); Some (Dir (<[x := child]> m)).
Proof. reflexivity. Qed.

Lemma mkdir_p_nil m : mkdir_p [] (Dir m) = Some (Dir m).
Proof. reflexivity. Qed.

Lemma mkdir_p_file p d : mkdir_p p (File d) = None.
Proof. by destruct p. Qed.

Lemma modify_dir_cons x p f m :
  modify_dir (x :: p) f (Dir m)
  = child ← m !! x; child' ← modify_dir p f child;
    Some (Dir (<[x := child']> m)).
Proof. reflexivity. Qed.

Lemma mkdir_p_is_dir p n n' : mkdir_p p n = Some n' → ∃ m, n' = Dir m.
Proof.
  destruct n as [d|m]; [by rewrite mkdir_p_file|].
  destruct p as [|x p]; [intros [= <-]; by eexists|].
  rewrite mkdir_p_cons. destruct (mkdir_p p _); simpl; [|done].
  intros [= <-]. by eexists.
Qed.

(** A [mkdir -p] that was possible stays possible after another
    [mkdir -p]... *)
Lemma mkdir_p_still_possible p q n n' :
  mkdir_p p n = Some n' → is_Some (mkdir_p q n) → is_Some (mkdir_p q n').
Proof.
  revert p n n'. induction q as [|y q IH]; intros p n n' Hp Hq.
  { destruct (mkdir_p_is_dir _ _ _ Hp) as [m ->]. exists (Dir m). reflexivity. }
  destruct n as [d|m]; [by rewrite mkdir_p_file in Hp|].
  destruct p as [|x p]; [rewrite mkdir_p_nil in Hp; by simplify_eq|].
  rewrite mkdir_p_cons in Hp.
  destruct (mkdir_p p (default (Dir ∅) (m !! x))) as [c|] eqn:Hc; [|done].
  simpl in Hp. simplify_eq. rewrite mkdir_p_cons in Hq |- *.
  destruct (decide (x = y)) as [->|Hne].
  - rewrite lookup_insert_eq. simpl.
    destruct (mkdir_p q (default (Dir ∅) (m !! y))) as [c0|] eqn:Hq0;
      [|by destruct Hq].
    destruct (IH _ _ _ Hc (mk_is_Some _ _ Hq0)) as [c1 ->]. by eexists.
  - rewrite lookup_insert_ne by done.
    destruct (mkdir_p q (default (Dir ∅) (m !! y))); [by eexists|by destruct Hq].
Qed.

(** ... and after a change in a directory that lies apart from it. *)
Lemma modify_dir_still_possible p q f n n' :
  apart p q = true → modify_dir p f n = Some n' →
  is_Some (mkdir_p q n) → is_Some (mkdir_p q n').
Proof.
  revert q n n'. induction p as [|x p IH]; intros q n n' Ha Hp Hq.
  { by destruct q. }
  apply apart_cons_inv in Ha as (y & q' & -> & Hxy).
  destruct n as [d|m]; [by rewrite mkdir_p_file in Hq|].
  rewrite modify_dir_cons in Hp.
  destruct (m !! x) as [c|] eqn:Hx; [|done]. simpl in Hp.
  destruct (modify_dir p f c) as [c'|] eqn:Hc; [|done].
  simpl in Hp. simplify_eq. rewrite mkdir_p_cons in Hq |- *.
  destruct Hxy as [Hne|[-> Ha]].
  - rewrite lookup_insert_ne by done.
    destruct (mkdir_p q' (default (Dir ∅) (m !! y))); [by eexists|by destruct Hq].
  - rewrite lookup_insert_eq. rewrite Hx in Hq. simpl in *.
    destruct (mkdir_p q' c) as [c0|] eqn:Hq0; [|by destruct Hq].
    destruct (IH _ _ _ Ha Hc (mk_is_Some _ _ Hq0)) as [c1 ->]. by eexists.
Qed.

(** What a toolchain call leaves in [target/<t>/release]. *)
Lemma cross_build_cmd_ls w t p s :
  is_Some (mkdir_p ["target"; t; "release"] (fs s)) →
  ok (cross_build_cmd w t p s)
  = exit_ok (cross_build w t p (env s !! rustflags_var t)) ∧
  ls ["target"; t; "release"] (fs (final (cross_build_cmd w t p s)))
  = Some ((File <$> outputs (cross_build w t p (env s !! rustflags_var t)))
          ∪ default ∅ (ls ["target"; t; "release"] (fs s))).
Proof.
  intros [n1 H1]. unfold cross_build_cmd. rewrite H1. simpl.
  pose proof (mkdir_p_ls _ _ _ H1) as Hls.
  destruct (modify_dir_is_Some ["target"; t; "release"]
              (λ m, (File <$> outputs (cross_build w t p (env s !! rustflags_var t))) ∪ m)
              n1 _ Hls) as [n2 H2].
  rewrite H2. simpl. split; [done|].
  destruct (modify_dir_ls _ _ _ _ H2) as (m & Hm & ->). rewrite Hls in Hm.
  by simplify_eq.
Qed.

Lemma cross_build_cmd_still_possible w t p s q :
  apart ["target"; t; "release"] q = true →
  is_Some (mkdir_p q (fs s)) →
  is_Some (mkdir_p q (fs (final (cross_build_cmd w t p s)))).
Proof.
  intros Ha Hq. unfold cross_build_cmd.
  destruct (mkdir_p ["target"; t; "release"] (fs s)) as [n1|] eqn:H1;
    simpl; [|done].
  destruct (modify_dir ["target"; t; "release"] _ n1) as [n2|] eqn:H2;
    simpl; [|done].
  eapply modify_dir_still_possible; [done|done|].
  by eapply mkdir_p_still_possible.
Qed.

Lemma mkdir_p_cmd_possible p s :
  is_Some (mkdir_p p (fs s)) → ok (mkdir_p_cmd p s) = true.
Proof.
  intros [n' H]. unfold mkdir_p_cmd. by rewrite fs_cmd_ok, H.
Qed.

(** [mv] as a command, from what makes it succeed to what it leaves. *)
Lemma mv_cmd_spec sdir name dst s ms v md :
  ls sdir (fs s) = Some ms → ms !! name = Some v →
  ls dst (fs s) = Some md →
  can_replace v (md !! name) = true → apart sdir dst = true →
  ok (mv_cmd sdir name dst s) = true ∧
  ls sdir (fs (final (mv_cmd sdir name dst s))) = Some (delete name ms) ∧
  ls dst (fs (final (mv_cmd sdir name dst s))) = Some (<[name := v]> md).
Proof.
  intros Hs Hv Hd Hc Ha.
  destruct (mv_succeeds _ _ _ _ _ _ _ Hs Hv Hd Hc Ha) as [n' Hmv].
  assert (ok (mv_cmd sdir name dst s) = true) as Hok
    by (unfold mv_cmd; by rewrite fs_cmd_ok, Hmv).
  split; [done|].
  destruct (mv_cmd_ok _ _ _ _ Hok)
    as (ms' & v' & md' & Hs' & Hv' & Hd' & H1 & H2 & _).
  rewrite Hs in Hs'. rewrite Hd in Hd'.
  injection Hs' as <-. injection Hd' as <-.
  rewrite Hv in Hv'. injection Hv' as <-. done.
Qed.

Lemma can_replace_file d (old : option node) :
  (∀ v, old = Some v → ∃ d', v = File d') → can_replace (File d) old = true.
Proof.
  intros H. destruct old as [[d'|m]|]; try done.
  by destruct (H (Dir m) eq_refl).
Qed.

(** A round of the loop that goes through. *)
Lemma build_target_run w t s b1 b2 b3 :
  let flags := Some "-C strip=debuginfo" in
  let rel := ["target"; t; "release"] in
  let staged := ["target_releases"; t] in
  exit_ok (cross_build w t "mbtiles" flags) = true →
  exit_ok (cross_build w t "martin" flags) = true →
  built w t !! "martin" = Some b1 →
  built w t !! "martin-cp" = Some b2 →
  built w t !! "mbtiles" = Some b3 →
  is_Some (mkdir_p rel (fs s)) →
  is_Some (mkdir_p staged (fs s)) →
  (∀ name v, default ∅ (ls staged (fs s)) !! name = Some v →
             name ∈ binaries → ∃ d, v = File d) →
  let r := build_target w t s in
  ok r = true ∧
  ls staged (fs (final r))
  = Some (<["mbtiles" := File b3]> (<["martin-cp" := File b2]>
           (<["martin" := File b1]> (default ∅ (ls staged (fs s)))))) ∧
  ls rel (fs (final r))
  = Some (delete "mbtiles" (delete "martin-cp" (delete "martin"
           ((File <$> built w t) ∪ default ∅ (ls rel (fs s)))))).
Proof.
  intros flags rel staged. subst flags rel staged. cbv zeta.
  intros Hx1 Hx2 Hb1 Hb2 Hb3 Hrel Hst Hfiles.
  set (flags := Some "-C strip=debuginfo") in *.
  set (rel := ["target"; t; "release"]) in *.
  set (staged := ["target_releases"; t]) in *.
  assert (apart rel staged = true) as Ha by done.
  assert (apart staged rel = true) as Ha' by done. unfold build_target.
  set (s1 := final (export (rustflags_var t) "-C strip=debuginfo" s)).
  rewrite (seq_true (export _ _)) by done. fold s1.
  assert (env s1 !! rustflags_var t = flags) as He1
    by (subst s1; simpl; by rewrite lookup_insert_eq).
  assert (fs s1 = fs s) as Hf1 by done.
  (* mbtiles *)
  destruct (cross_build_cmd_ls w t "mbtiles" s1) as [Hok2 Hls2];
    [by rewrite Hf1|].
  fold rel in Hls2. rewrite He1 in Hok2, Hls2. rewrite Hx1 in Hok2.
  pose proof (cross_build_cmd_still_possible w t "mbtiles" s1 staged Ha) as Hst2.
  rewrite Hf1 in Hst2. specialize (Hst2 Hst).
  pose proof (cross_build_cmd_env w t "mbtiles" s1) as He2.
  pose proof (cross_build_cmd_apart w t "mbtiles" s1 staged Ha) as Hfr2.
  rewrite Hf1 in Hls2, Hfr2.
  set (s2 := final (cross_build_cmd w t "mbtiles" s1)) in *.
  rewrite (seq_true (cross_build_cmd w t "mbtiles")) by done. fold s2.
  (* martin *)
  destruct (cross_build_cmd_ls w t "martin" s2) as [Hok3 Hls3].
  { fold rel. rewrite (mkdir_p_existing _ _ _ Hls2). by eexists. }
  fold rel in Hls3. rewrite He2, He1 in Hok3, Hls3. rewrite Hx2 in Hok3.
  rewrite Hls2 in Hls3. simpl in Hls3.
  pose proof (cross_build_cmd_still_possible w t "martin" s2 staged Ha Hst2) as Hst3.
  pose proof (cross_build_cmd_apart w t "martin" s2 staged Ha) as Hfr3.
  rewrite Hfr2 in Hfr3.
  set (s3 := final (cross_build_cmd w t "martin" s2)) in *.
  rewrite (seq_true (cross_build_cmd w t "martin")) by done. fold s3.
  (* mkdir -p *)
  pose proof (mkdir_p_cmd_possible staged s3 Hst3) as Hok4.
  destruct (mkdir_p_cmd_ok staged s3 Hok4) as [Hls4 Hfr4].
  rewrite (ls_apart staged _ _ Hfr3) in Hls4.
  specialize (Hfr4 rel Ha'). apply ls_apart in Hfr4. rewrite Hls3 in Hfr4.
  set (s4 := final (mkdir_p_cmd staged s3)) in *.
  rewrite (seq_true (mkdir_p_cmd staged)) by done. fold s4.
  set (md := default ∅ (ls staged (fs s))) in *.
  set (old := default ∅ (ls rel (fs s))) in *.
  assert (((File <$> outputs (cross_build w t "martin" flags))
           ∪ ((File <$> outputs (cross_build w t "mbtiles" flags)) ∪ old))
          = (File <$> built w t) ∪ old) as Hbuilt.
  { unfold built. by rewrite map_fmap_union, (assoc_L (∪)). }
  rewrite Hbuilt in *. clear Hbuilt.
  set (ms := (File <$> built w t) ∪ old) in *.
  assert (∀ name b, built w t !! name = Some b → ms !! name = Some (File b)) as Hms.
  { intros name b Hb. apply lookup_union_Some_l. by rewrite lookup_fmap, Hb. }
  (* mv martin *)
  destruct (mv_cmd_spec rel "martin" staged s4 ms (File b1) md)
    as (Hok5 & Hs5 & Hd5); [done|by apply Hms|done| |done|].
  { apply can_replace_file. intros v Hv. eapply Hfiles; [done|].
    unfold binaries. set_solver. }
  set (s5 := final (mv_cmd rel "martin" staged s4)) in *.
  rewrite (seq_true (mv_cmd rel "martin" staged)) by done. fold s5.
  (* mv martin-cp *)
  destruct (mv_cmd_spec rel "martin-cp" staged s5 _ (File b2) (<["martin" := File b1]> md) Hs5)
    as (Hok6 & Hs6 & Hd6); [|exact Hd5| |done|].
  { rewrite lookup_delete_ne by done. by apply Hms. }
  { rewrite lookup_insert_ne by done. apply can_replace_file.
    intros v Hv. eapply Hfiles; [done|]. unfold binaries. set_solver. }
  set (s6 := final (mv_cmd rel "martin-cp" staged s5)) in *.
  rewrite (seq_true (mv_cmd rel "martin-cp" staged)) by done. fold s6.
  (* mv mbtiles *)
  destruct (mv_cmd_spec rel "mbtiles" staged s6 _ (File b3)
              (<["martin-cp" := File b2]> (<["martin" := File b1]> md)) Hs6)
    as (Hok7 & Hs7 & Hd7); [|exact Hd6| |done|].
  { rewrite !lookup_delete_ne by done. by apply Hms. }
  { rewrite !lookup_insert_ne by done. apply can_replace_file.
    intros v Hv. eapply Hfiles; [done|]. unfold binaries. set_solver. }
  simpl. done.
Qed.

(** ** What the scripts leave alone, whether they succeed or not *)

Section confined.
Context (q : path).

Lemma keeps_at_export name value : keeps (at_path q) (export name value).
Proof. by intros s. Qed.

Lemma keeps_at_cross_build_cmd w t p :
  apart ["target"; t; "release"] q = true →
  keeps (at_path q) (cross_build_cmd w t p).
Proof. intros Ha s. by apply cross_build_cmd_apart. Qed.

Lemma keeps_at_mkdir_p_cmd p :
  apart p q = true → keeps (at_path q) (mkdir_p_cmd p).
Proof.
  intros Ha s. unfold at_path, mkdir_p_cmd. rewrite fs_cmd_fs.
  destruct (mkdir_p p (fs s)) as [n'|] eqn:H; [|done].
  by eapply mkdir_p_apart.
Qed.

Lemma keeps_at_mv_cmd sdir name dst :
  apart sdir q = true → apart dst q = true →
  keeps (at_path q) (mv_cmd sdir name dst).
Proof.
  intros Hs Hd s. unfold at_path, mv_cmd. rewrite fs_cmd_fs.
  destruct (mv sdir name dst (fs s)) as [n' [|]] eqn:H; simpl.
  - apply mv_true in H as (? & ? & ? & _ & _ & _ & _ & _ & Hfr). by apply Hfr.
  - by rewrite (mv_false _ _ _ _ _ H).
Qed.

Lemma keeps_at_mv_glob_cmd src dst :
  apart src q = true → apart dst q = true →
  keeps (at_path q) (mv_glob_cmd src dst).
Proof.
  intros Hs Hd s. unfold at_path, mv_glob_cmd. rewrite fs_cmd_fs.
  destruct (mv_glob src dst (fs s)) as [n' b] eqn:H; simpl.
  apply mv_glob_inv in H as [[-> _]|(? & ? & _ & _ & _ & _ & _ & _ & _ & Hfr)];
    [done|by apply Hfr].
Qed.

Lemma keeps_at_build_target w t :
  apart ["target"; t; "release"] q = true →
  apart ["target_releases"; t] q = true →
  keeps (at_path q) (build_target w t).
Proof.
  intros H1 H2. unfold build_target.
  repeat apply keeps_seq;
    auto using keeps_at_export, keeps_at_cross_build_cmd, keeps_at_mkdir_p_cmd,
               keeps_at_mv_cmd.
Qed.

Lemma keeps_at_collect triple platform :
  apart ["target_releases"; triple] q = true →
  apart ("target_releases" :: platform) q = true →
  keeps (at_path q) (collect triple platform).
Proof.
  intros H1 H2. unfold collect.
  apply keeps_seq; auto using keeps_at_mkdir_p_cmd, keeps_at_mv_glob_cmd.
Qed.
End confined.

Lemma apart_cons x p y q :
  apart (x :: p) (y :: q) = if decide (x = y) then apart p q else true.
Proof. reflexivity. Qed.

Lemma apart_release t t' :
  t ≠ t' → apart ["target"; t; "release"] ["target"; t'; "release"] = true.
Proof.
  intros H. rewrite !apart_cons, decide_True by done. by rewrite decide_False.
Qed.

Lemma apart_staged t t' p q :
  t ≠ t' → apart ("target_releases" :: t :: p) ("target_releases" :: t' :: q) = true.
Proof.
  intros H. rewrite !apart_cons, decide_True by done. by rewrite decide_False.
Qed.

Lemma keeps_at_build_targets_in w ts q :
  (∀ t, t ∈ ts → apart ["target"; t; "release"] q = true
                 ∧ apart ["target_releases"; t] q = true) →
  keeps (at_path q) (build_targets_in ts w).
Proof.
  intros H. unfold build_targets_in. induction ts as [|t ts IH]; [done|].
  simpl. apply keeps_seq.
  - destruct (H t) as [H1 H2]; [left|]. by apply keeps_at_build_target.
  - apply IH. intros t' Ht'. apply H. by right.
Qed.

(** X1.  In the staging tree "Build targets" writes to the directories
    of its own targets only: what [target_releases] holds under any other
    name, the platform directories among it, is as the script found it,
    and so is the registry.  This holds for a run of the script that
    fails as for one that succeeds. *)
Theorem build_targets_confined w x rest s :
  x ∉ targets →
  lookup_path ("target_releases" :: x :: rest) (fs (final (build_targets w s)))
  = lookup_path ("target_releases" :: x :: rest) (fs s) ∧
  reg (final (build_targets w s)) = reg s.
Proof.
  intros Hx. split; [|apply keeps_reg_build_targets].
  apply (keeps_at_build_targets_in w targets ("target_releases" :: x :: rest)).
  intros t Ht. split; [done|].
  apply apart_staged. by intros ->.
Qed.

Lemma build_targets_confined_witness :
  lookup_path ["target_releases"; "linux"; "arm64"]
    (fs (final (build_targets x86_64_build_fails restaged_state)))
  = lookup_path ["target_releases"; "linux"; "arm64"] (fs restaged_state) ∧
  reg (final (build_targets x86_64_build_fails restaged_state))
  = reg restaged_state.
Proof.
  apply (build_targets_confined x86_64_build_fails "linux" ["arm64"]
           restaged_state).
  unfold targets. rewrite !elem_of_cons, elem_of_nil.
  intros [H|[H|[]]]; discriminate H.
Defined.

(** X2.  "Reorganize artifacts for docker build" touches the two
    directories of the triples and the two platform directories and
    nothing else of the workspace, whether its [mv]s succeed or not; it
    makes no call outside and leaves the registry and the environment
    alone. *)
Theorem reorganize_artifacts_confined q s :
  (∀ triple platform, (triple, platform) ∈ architecture_mapping →
     apart ["target_releases"; triple] q = true
     ∧ apart ("target_releases" :: platform) q = true) →
  lookup_path q (fs (final (reorganize_artifacts s))) = lookup_path q (fs s) ∧
  reg (final (reorganize_artifacts s)) = reg s ∧
  env (final (reorganize_artifacts s)) = env s ∧
  events (reorganize_artifacts s) = [].
Proof.
  intros H. split; [|split; [|split]].
  - revert s. change (keeps (at_path q) reorganize_artifacts).
    unfold reorganize_artifacts. apply keeps_seq.
    + destruct (H "aarch64-unknown-linux-musl" ["linux"; "arm64"]) as [H1 H2];
        [unfold architecture_mapping; by left|].
      by apply keeps_at_collect.
    + destruct (H "x86_64-unknown-linux-musl" ["linux"; "amd64"]) as [H1 H2];
        [unfold architecture_mapping; right; by left|].
      by apply keeps_at_collect.
  - apply keeps_reg_reorganize_artifacts.
  - revert s. change (keeps env reorganize_artifacts).
    unfold reorganize_artifacts, collect.
    repeat apply keeps_seq; apply keeps_env_fs_cmd.
  - apply reorganize_artifacts_events.
Qed.

Lemma reorganize_artifacts_confined_witness :
  lookup_path ["target"] (fs (final (reorganize_artifacts staged_state)))
  = lookup_path ["target"] (fs staged_state) ∧
  reg (final (reorganize_artifacts staged_state)) = reg staged_state ∧
  env (final (reorganize_artifacts staged_state)) = env staged_state ∧
  events (reorganize_artifacts staged_state) = [].
Proof.
  apply (reorganize_artifacts_confined ["target"] staged_state).
  intros triple platform H. split; reflexivity.
Defined.

Lemma cross_build_cmd_ok_inv w t p s :
  ok (cross_build_cmd w t p s) = true →
  exit_ok (cross_build w t p (env s !! rustflags_var t)) = true.
Proof. unfold cross_build_cmd. by case_match. Qed.

Lemma elem_of_binaries name :
  name ∈ binaries ↔ name = "martin" ∨ name = "martin-cp" ∨ name = "mbtiles".
Proof.
  unfold binaries. rewrite !elem_of_union, !elem_of_singleton. tauto.
Qed.

(** X3.  For a target written with letters, digits, dashes and
    underscores that starts with a letter or a digit (the shell passes it
    on as it is, and line 82 exports an identifier), a round of the loop
    of "Build targets" whose two toolchain calls exit with 0 and write the
    three binaries succeeds, on a workspace where the two directories can
    be made and no directory of the name of a binary is in the way.
    After it the staging directory
    [target_releases/<t>] holds each binary as the file that the
    toolchain wrote, the binaries are gone from [target/<t>/release]
    (they are moved, not copied), and the other entries of the staging
    directory are as before. *)
Theorem build_round_stages_built w t s :
  starts_alnum t = true → string_forall triple_char t = true →
  exit_ok (cross_build w t "mbtiles" (Some "-C strip=debuginfo")) = true →
  exit_ok (cross_build w t "martin" (Some "-C strip=debuginfo")) = true →
  binaries ⊆ dom (built w t) →
  is_Some (mkdir_p ["target"; t; "release"] (fs s)) →
  is_Some (mkdir_p ["target_releases"; t] (fs s)) →
  (∀ name v, default ∅ (ls ["target_releases"; t] (fs s)) !! name = Some v →
             name ∈ binaries → ∃ d, v = File d) →
  ok (build_target w t s) = true ∧
  (∀ name, name ∈ binaries →
     ls ["target_releases"; t] (fs (final (build_target w t s))) ≫= (.!! name)
     = File <$> built w t !! name ∧
     ls ["target"; t; "release"] (fs (final (build_target w t s))) ≫= (.!! name)
     = None) ∧
  (∀ name, name ∉ binaries →
     ls ["target_releases"; t] (fs (final (build_target w t s))) ≫= (.!! name)
     = default ∅ (ls ["target_releases"; t] (fs s)) !! name).
Proof.
  intros _ _ Hx1 Hx2 Hdom Hrel Hst Hfiles.
  assert (∀ name, name ∈ binaries → is_Some (built w t !! name)) as Hb.
  { intros name Hn. apply elem_of_dom. by apply Hdom. }
  destruct (Hb "martin") as [b1 Hb1]; [apply elem_of_binaries; tauto|].
  destruct (Hb "martin-cp") as [b2 Hb2]; [apply elem_of_binaries; tauto|].
  destruct (Hb "mbtiles") as [b3 Hb3]; [apply elem_of_binaries; tauto|].
  destruct (build_target_run w t s b1 b2 b3 Hx1 Hx2 Hb1 Hb2 Hb3 Hrel Hst Hfiles)
    as (Hok & Hs & Hr).
  split; [done|]. rewrite Hs, Hr. simpl. split.
  - intros name Hn. apply elem_of_binaries in Hn as [-> | [-> | ->]].
    + rewrite Hb1. rewrite !lookup_insert_ne by done.
      rewrite lookup_insert_eq. rewrite !lookup_delete_ne by done.
      by rewrite lookup_delete_eq.
    + rewrite Hb2. rewrite lookup_insert_ne by done.
      rewrite lookup_insert_eq. rewrite lookup_delete_ne by done.
      by rewrite lookup_delete_eq.
    + rewrite Hb3. by rewrite lookup_insert_eq, lookup_delete_eq.
  - intros name Hn. rewrite !lookup_insert_ne; [done|..];
      intros <-; apply Hn; apply elem_of_binaries; tauto.
Qed.

Lemma build_round_stages_built_witness :
  ok (build_target sample_world "x86_64-unknown-linux-musl" staged_state) = true ∧
  ls ["target_releases"; "x86_64-unknown-linux-musl"]
     (fs (final (build_target sample_world "x86_64-unknown-linux-musl" staged_state)))
     ≫= (.!! "martin-cp")
  = File <$> built sample_world "x86_64-unknown-linux-musl" !! "martin-cp".
Proof.
  destruct (build_round_stages_built sample_world "x86_64-unknown-linux-musl"
              staged_state) as (Hok & Hin & _).
  - reflexivity.
  - reflexivity.
  - reflexivity.
  - reflexivity.
  - vm_compute. intros x Hx. exact Hx.
  - by eexists.
  - by eexists.
  - intros name v.
    replace (ls _ _) with (@None (gmap string node)) by reflexivity.
    simpl. by rewrite lookup_empty.
  - split; [exact Hok|]. apply Hin. apply elem_of_binaries. tauto.
Defined.

(** X4.  A round of the loop in which a toolchain call exits with an
    error fails, and it has staged nothing: [target_releases] is as the
    round found it, with what earlier rounds put there. *)
Theorem failed_round_stages_nothing w t s :
  exit_ok (cross_build w t "mbtiles" (Some "-C strip=debuginfo"))
  && exit_ok (cross_build w t "martin" (Some "-C strip=debuginfo")) = false →
  ok (build_target w t s) = false ∧
  lookup_path ["target_releases"] (fs (final (build_target w t s)))
  = lookup_path ["target_releases"] (fs s).
Proof.
  intros Hx. unfold build_target.
  set (s1 := final (export (rustflags_var t) "-C strip=debuginfo" s)).
  rewrite (seq_true (export _ _)) by done. fold s1.
  assert (env s1 !! rustflags_var t = Some "-C strip=debuginfo") as He1
    by (subst s1; simpl; by rewrite lookup_insert_eq).
  assert (apart ["target"; t; "release"] ["target_releases"] = true) as Ha by done.
  pose proof (cross_build_cmd_apart w t "mbtiles" s1 _ Ha) as Hf2.
  pose proof (cross_build_cmd_env w t "mbtiles" s1) as He2.
  destruct (ok (cross_build_cmd w t "mbtiles" s1)) eqn:Hok2.
  - apply cross_build_cmd_ok_inv in Hok2 as Hx1. rewrite He1 in Hx1.
    rewrite Hx1 in Hx. simpl in Hx.
    set (s2 := final (cross_build_cmd w t "mbtiles" s1)) in *.
    rewrite (seq_true (cross_build_cmd w t "mbtiles")) by done. fold s2.
    pose proof (cross_build_cmd_apart w t "martin" s2 _ Ha) as Hf3.
    destruct (ok (cross_build_cmd w t "martin" s2)) eqn:Hok3.
    { apply cross_build_cmd_ok_inv in Hok3. rewrite He2, He1 in Hok3.
      congruence. }
    rewrite (seq_false (cross_build_cmd w t "martin")) by done.
    simpl. split; [done|]. by rewrite Hf3, Hf2.
  - rewrite (seq_false (cross_build_cmd w t "mbtiles")) by done.
    simpl. split; [done|]. by rewrite Hf2.
Qed.

Lemma failed_round_stages_nothing_witness :
  ok (build_target x86_64_build_fails "x86_64-unknown-linux-musl" staged_state)
  = false ∧
  lookup_path ["target_releases"]
    (fs (final (build_target x86_64_build_fails "x86_64-unknown-linux-musl"
                  staged_state)))
  = lookup_path ["target_releases"] (fs staged_state).
Proof.
  apply (failed_round_stages_nothing x86_64_build_fails
           "x86_64-unknown-linux-musl" staged_state).
  reflexivity.
Defined.

(** ** The edges of a collection *)

Lemma mv_glob_ran src dst n ms md :
  ls src n = Some ms → ls dst n = Some md →
  size (glob_star ms) ≠ 0 → apart src dst = true →
  ∃ n', mv_glob src dst n =
        (n', bool_decide (size (movable (glob_star ms) md) = size (glob_star ms))) ∧
        ls src n' = Some (ms ∖ movable (glob_star ms) md) ∧
        ls dst n' = Some (movable (glob_star ms) md ∪ md) ∧
        ∀ q, apart src q = true → apart dst q = true →
             lookup_path q n' = lookup_path q n.
Proof.
  intros Hs Hd Hsz Ha. unfold mv_glob. rewrite Hs, Hd, Ha.
  rewrite bool_decide_eq_false_2 by done. simpl.
  set (mvd := movable (glob_star ms) md).
  destruct (modify_dir_is_Some src (λ m, m ∖ mvd) n ms Hs) as [n1 H1].
  rewrite H1. simpl.
  assert (ls dst n1 = Some md) as Hd1.
  { rewrite (ls_apart dst n n1); [done|]. by eapply modify_dir_apart. }
  destruct (modify_dir_is_Some dst (λ m, mvd ∪ m) n1 md Hd1) as [n2 H2].
  rewrite H2. exists n2. split; [done|].
  destruct (modify_dir_ls _ _ _ _ H1) as (ms' & Hs' & Hs1).
  destruct (modify_dir_ls _ _ _ _ H2) as (md' & Hd' & Hd2).
  rewrite Hs in Hs'. injection Hs' as <-.
  rewrite Hd1 in Hd'. injection Hd' as <-.
  split; [|split; [done|]].
  - rewrite (ls_apart src n1 n2); [done|].
    eapply modify_dir_apart; [|done]. by rewrite apart_sym.
  - intros q Hq1 Hq2.
    rewrite (modify_dir_apart _ _ _ _ _ Hq2 H2).
    by rewrite (modify_dir_apart _ _ _ _ _ Hq1 H1).
Qed.

Lemma mv_glob_no_match src dst n :
  glob_star (default ∅ (ls src n)) = ∅ → mv_glob src dst n = (n, false).
Proof.
  intros H. unfold mv_glob.
  destruct (ls src n) as [ms|]; [|done]. simpl in H.
  destruct (ls dst n) as [md|]; [|done].
  rewrite H, map_size_empty. done.
Qed.

Lemma mv_glob_not_apart src dst n :
  apart src dst = false → mv_glob src dst n = (n, false).
Proof.
  intros H. unfold mv_glob. rewrite H.
  destruct (ls src n) as [ms|]; [|done].
  destruct (ls dst n) as [md|]; [|done].
  by rewrite orb_true_r.
Qed.

(** X5.  A collection that finds nothing to move — the directory of the
    triple is missing, empty, or holds dot files only — fails at its
    [mv], and the [mkdir -p] before it has taken effect: the platform
    directory is there, with the entries it had, if any.  Nothing else of
    the workspace has changed. *)
Theorem collect_without_match triple platform s :
  glob_star (default ∅ (ls ["target_releases"; triple] (fs s))) = ∅ →
  is_Some (mkdir_p ("target_releases" :: platform) (fs s)) →
  ok (collect triple platform s) = false ∧
  ls ("target_releases" :: platform) (fs (final (collect triple platform s)))
  = Some (default ∅ (ls ("target_releases" :: platform) (fs s))) ∧
  ∀ q, apart ("target_releases" :: platform) q = true →
       lookup_path q (fs (final (collect triple platform s)))
       = lookup_path q (fs s).
Proof.
  intros Hno Hmk. unfold collect.
  set (src := ["target_releases"; triple]) in *.
  set (dst := "target_releases" :: platform) in *.
  pose proof (mkdir_p_cmd_possible dst s Hmk) as H1.
  rewrite seq_true by done. simpl.
  destruct (mkdir_p_cmd_ok _ _ H1) as [Hd1 Hfr1].
  set (s1 := final (mkdir_p_cmd dst s)) in *.
  assert (mv_glob src dst (fs s1) = (fs s1, false)) as Hmv.
  { destruct (apart src dst) eqn:Ha; [|by apply mv_glob_not_apart].
    apply mv_glob_no_match.
    rewrite (ls_apart src (fs s) (fs s1)); [done|].
    apply Hfr1. by rewrite apart_sym. }
  unfold mv_glob_cmd. rewrite fs_cmd_ok, fs_cmd_fs, Hmv. done.
Qed.

Lemma collect_without_match_witness :
  ok (collect "aarch64-unknown-linux-musl" ["linux"; "arm64"] fresh_state) = false ∧
  ls ["target_releases"; "linux"; "arm64"]
     (fs (final (collect "aarch64-unknown-linux-musl" ["linux"; "arm64"] fresh_state)))
  = Some ∅.
Proof.
  destruct (collect_without_match "aarch64-unknown-linux-musl" ["linux"; "arm64"]
              fresh_state) as (Hok & Hls & _).
  - reflexivity.
  - by eexists.
  - split; [exact Hok|exact Hls].
Defined.

(** X6.  [mv dir/*] does not take the dot files.  After a collection that
    succeeded, the triple's directory has under a name that starts with a
    dot what it had before, and so has the platform directory: such an
    entry is not moved and not overwritten. *)
Theorem collect_leaves_dot_files triple platform s k :
  ok (collect triple platform s) = true → hidden k = true →
  ls ["target_releases"; triple] (fs (final (collect triple platform s))) ≫= (.!! k)
  = ls ["target_releases"; triple] (fs s) ≫= (.!! k) ∧
  ls ("target_releases" :: platform) (fs (final (collect triple platform s)))
    ≫= (.!! k)
  = default ∅ (ls ("target_releases" :: platform) (fs s)) !! k.
Proof.
  intros Hok Hk.
  destruct (collect_ok _ _ _ Hok)
    as (ms & Hs & _ & _ & _ & Hs' & Hd' & _).
  rewrite Hs, Hs', Hd'. simpl.
  assert (glob_star ms !! k = None) as Hg.
  { apply map_lookup_filter_None. right. intros v _. simpl. by rewrite Hk. }
  split.
  - destruct (ms !! k) as [v|] eqn:Hv.
    + apply lookup_difference_Some. done.
    + apply lookup_difference_None. by left.
  - by rewrite lookup_union_r.
Qed.

Lemma collect_leaves_dot_files_witness :
  ls ["target_releases"; "aarch64-unknown-linux-musl"]
     (fs (final (collect "aarch64-unknown-linux-musl" ["linux"; "arm64"] dotted_state)))
    ≫= (.!! ".fingerprint")
  = ls ["target_releases"; "aarch64-unknown-linux-musl"] (fs dotted_state)
      ≫= (.!! ".fingerprint") ∧
  ls ["target_releases"; "linux"; "arm64"]
     (fs (final (collect "aarch64-unknown-linux-musl" ["linux"; "arm64"] dotted_state)))
    ≫= (.!! ".fingerprint")
  = default ∅ (ls ["target_releases"; "linux"; "arm64"] (fs dotted_state))
      !! ".fingerprint".
Proof.
  apply (collect_leaves_dot_files "aarch64-unknown-linux-musl" ["linux"; "arm64"]
           dotted_state ".fingerprint"); reflexivity.
Defined.

(** X7.  A collection is not all or nothing.  When an entry of the bundle
    cannot replace what the platform directory has under its name (a
    directory in the way of a file, say), [mv] fails and the entry stays
    where it was, but the entries that could move have moved. *)
Theorem collect_conflict_moves_the_rest triple platform s ms k v :
  ls ["target_releases"; triple] (fs s) = Some ms →
  is_Some (mkdir_p ("target_releases" :: platform) (fs s)) →
  apart ["target_releases"; triple] ("target_releases" :: platform) = true →
  glob_star ms !! k = Some v →
  can_replace v (default ∅ (ls ("target_releases" :: platform) (fs s)) !! k) = false →
  let r := collect triple platform s in
  ok r = false ∧
  ls ["target_releases"; triple] (fs (final r)) ≫= (.!! k) = Some v ∧
  ls ("target_releases" :: platform) (fs (final r)) ≫= (.!! k)
  = default ∅ (ls ("target_releases" :: platform) (fs s)) !! k ∧
  ∀ k' v', glob_star ms !! k' = Some v' →
    can_replace v' (default ∅ (ls ("target_releases" :: platform) (fs s)) !! k') = true →
    ls ["target_releases"; triple] (fs (final r)) ≫= (.!! k') = None ∧
    ls ("target_releases" :: platform) (fs (final r)) ≫= (.!! k') = Some v'.
Proof.
  intros Hs Hmk Ha Hk Hc r. subst r. unfold collect.
  set (src := ["target_releases"; triple]) in *.
  set (dst := "target_releases" :: platform) in *.
  set (md := default ∅ (ls dst (fs s))) in *.
  pose proof (mkdir_p_cmd_possible dst s Hmk) as H1.
  rewrite seq_true by done. simpl.
  destruct (mkdir_p_cmd_ok _ _ H1) as [Hd1 Hfr1]. fold md in Hd1.
  set (s1 := final (mkdir_p_cmd dst s)) in *.
  assert (ls src (fs s1) = Some ms) as Hs1.
  { rewrite <-Hs. apply ls_apart, Hfr1. by rewrite apart_sym. }
  assert (size (glob_star ms) ≠ 0) as Hsz.
  { intros Hz. apply map_size_empty_iff in Hz. by rewrite Hz in Hk. }
  destruct (mv_glob_ran src dst (fs s1) ms md Hs1 Hd1 Hsz Ha)
    as (n' & Hmv & Hs' & Hd' & _).
  unfold mv_glob_cmd. rewrite fs_cmd_ok, fs_cmd_fs, Hmv. simpl.
  rewrite Hs', Hd'. simpl.
  assert (movable (glob_star ms) md !! k = None) as Hmk'.
  { apply map_lookup_filter_None. right. intros v0 Hv0. simpl.
    rewrite Hk in Hv0. injection Hv0 as <-. by rewrite Hc. }
  assert (ms !! k = Some v) as Hmsk
    by (by apply map_lookup_filter_Some in Hk as [? _]).
  split; [|split; [|split]].
  - apply bool_decide_eq_false. intros Heq.
    apply movable_eq_of_size in Heq. rewrite Heq in Hmk'. congruence.
  - by apply lookup_difference_Some.
  - by rewrite lookup_union_r.
  - intros k' v' Hk' Hc'.
    assert (movable (glob_star ms) md !! k' = Some v') as Hm.
    { by apply map_lookup_filter_Some. }
    split.
    + apply lookup_difference_None. right. by eexists.
    + by apply lookup_union_Some_l.
Qed.

Lemma collect_conflict_moves_the_rest_witness :
  ok (collect "aarch64-unknown-linux-musl" ["linux"; "arm64"] blocked_state) = false ∧
  ls ["target_releases"; "aarch64-unknown-linux-musl"]
     (fs (final (collect "aarch64-unknown-linux-musl" ["linux"; "arm64"] blocked_state)))
    ≫= (.!! "martin")
  = Some (File "martin aarch64").
Proof.
  destruct (collect_conflict_moves_the_rest
              "aarch64-unknown-linux-musl" ["linux"; "arm64"] blocked_state
              {[ "martin" := File "martin aarch64";
                 "mbtiles" := File "mbtiles aarch64" ]}
              "martin" (File "martin aarch64"))
    as (Hok & Hsrc & _).
  - reflexivity.
  - by eexists.
  - reflexivity.
  - reflexivity.
  - reflexivity.
  - split; [exact Hok|exact Hsrc].
Defined.

(** ** The name of the variable *)

Lemma string_forall_app P s1 s2 :
  string_forall P (s1 +:+ s2) = string_forall P s1 && string_forall P s2.
Proof.
  induction s1 as [|c s1 IH]; simpl; [done|]. by rewrite IH, andb_assoc.
Qed.

Lemma string_length_app s1 s2 :
  String.length (s1 +:+ s2) = String.length s1 + String.length s2.
Proof. induction s1 as [|c s1 IH]; simpl; [done|]. by rewrite IH. Qed.

Lemma string_length_tr s : String.length (tr s) = String.length s.
Proof. induction s as [|c s IH]; simpl; [done|]. by rewrite IH. Qed.

Lemma string_app_inv_tail s1 s2 suffix :
  s1 +:+ suffix = s2 +:+ suffix → s1 = s2.
Proof.
  revert s2. induction s1 as [|c1 s1 IH]; intros [|c2 s2] H; simpl in H.
  - done.
  - apply (f_equal String.length) in H.
    rewrite !string_length_app in H. simpl in H. lia.
  - apply (f_equal String.length) in H.
    rewrite !string_length_app in H. simpl in H. lia.
  - injection H as -> H. by rewrite (IH _ H).
Qed.

Lemma string_app_inv_head prefix s1 s2 :
  prefix +:+ s1 = prefix +:+ s2 → s1 = s2.
Proof.
  induction prefix as [|c prefix IH]; [done|]. intros H. injection H as H. auto.
Qed.

Lemma tr_char_variable c : variable_char (tr_char c) = triple_char c.
Proof.
  destruct c as [[] [] [] [] [] [] [] []]; vm_compute; reflexivity.
Qed.

Lemma tr_char_inj c1 c2 :
  lower_triple_char c1 = true → lower_triple_char c2 = true →
  tr_char c1 = tr_char c2 → c1 = c2.
Proof.
  pose (back := λ c : ascii,
          if in_range 65 90 c then ascii_of_nat (nat_of_ascii c + 32)
          else if bool_decide (c = "_"%char) then "-"%char else c).
  assert (∀ c, lower_triple_char c = true → back (tr_char c) = c) as Hback.
  { intros c. destruct c as [[] [] [] [] [] [] [] []]; vm_compute; congruence. }
  intros H1 H2 H. by rewrite <-(Hback c1 H1), <-(Hback c2 H2), H.
Qed.

Lemma tr_inj t1 t2 :
  string_forall lower_triple_char t1 = true →
  string_forall lower_triple_char t2 = true →
  tr t1 = tr t2 → t1 = t2.
Proof.
  revert t2. induction t1 as [|c1 t1 IH]; intros [|c2 t2]; simpl; try done.
  intros [H1 H1']%andb_true_iff [H2 H2']%andb_true_iff H.
  injection H as Hc H.
  by rewrite (tr_char_inj _ _ H1 H2 Hc), (IH _ H1' H2' H).
Qed.

(** X8.  For a target written with the characters of the triples of
    rustc, [a-zA-Z0-9_.-], that starts with a letter or a digit, the name
    that line 82 exports is 23 characters longer than the target, starts
    with [CARGO_TARGET_], and is written with [A-Z0-9_] alone (a name
    that [export] accepts) exactly when the target has no dot. *)
Theorem rustflags_var_well_formed t :
  starts_alnum t = true → string_forall rustc_char t = true →
  string_forall variable_char (rustflags_var t) = string_forall triple_char t ∧
  String.length (rustflags_var t) = 23 + String.length t ∧
  String.prefix "CARGO_TARGET_" (rustflags_var t) = true.
Proof.
  intros _ _. unfold rustflags_var. split; [|split].
  - rewrite !string_forall_app.
    replace (string_forall variable_char "CARGO_TARGET_") with true by reflexivity.
    replace (string_forall variable_char "_RUSTFLAGS") with true by reflexivity.
    rewrite andb_true_r. simpl.
    induction t as [|c t IH]; simpl; [done|].
    by rewrite tr_char_variable, IH.
  - rewrite !string_length_app, string_length_tr. simpl. lia.
  - simpl. by destruct ("" +:+ tr t +:+ "_RUSTFLAGS").
Qed.

Lemma rustflags_var_well_formed_witness :
  string_forall variable_char (rustflags_var "thumbv8m.main-none-eabi") = false ∧
  String.length (rustflags_var "thumbv8m.main-none-eabi") = 46 ∧
  String.prefix "CARGO_TARGET_" (rustflags_var "thumbv8m.main-none-eabi") = true.
Proof.
  apply (rustflags_var_well_formed "thumbv8m.main-none-eabi"); reflexivity.
Defined.

(** X9.  Two targets written with lower-case letters, digits and dashes
    that start with a letter or a digit get the same variable only when
    they are the same target, so no round of a loop over such targets
    reads the flags of another round.  (With an underscore or an
    upper-case letter in a target this fails.) *)
Theorem rustflags_var_injective t1 t2 :
  starts_alnum t1 = true → string_forall lower_triple_char t1 = true →
  starts_alnum t2 = true → string_forall lower_triple_char t2 = true →
  t1 ≠ t2 → rustflags_var t1 ≠ rustflags_var t2.
Proof.
  intros _ H1 _ H2 Hne H. apply Hne. unfold rustflags_var in H.
  apply tr_inj; [done|done|].
  apply (string_app_inv_tail _ _ "_RUSTFLAGS").
  by apply (string_app_inv_head "CARGO_TARGET_").
Qed.

Lemma rustflags_var_injective_witness :
  rustflags_var "aarch64-unknown-linux-gnu"
  ≠ rustflags_var "riscv64gc-unknown-linux-gnu".
Proof.
  apply (rustflags_var_injective "aarch64-unknown-linux-gnu"
           "riscv64gc-unknown-linux-gnu");
    [reflexivity|reflexivity|reflexivity|reflexivity|discriminate].
Defined.

(** ** What starts the workflow *)

Lemma disabled_step_not_run w steps s i :
  (∀ st, st ∈ steps → id st = i → enabled st w = false) →
  i ∉ rid <$> jsteps (run_steps w steps s).
Proof.
  intros Hdis Hin.
  destruct (run_steps_prefix w steps s) as [k Hk].
  assert (i ∈ id <$> filter (λ st, enabled st w = true) steps) as Hi.
  { rewrite Hk. apply elem_of_app. by left. }
  apply list_elem_of_fmap in Hi as (st & -> & Hst).
  apply list_elem_of_filter in Hst as [Hen Hst].
  by rewrite (Hdis st Hst eq_refl) in Hen.
Qed.

(** X10.  Of the two comparisons in the condition of the Rust cache step,
    the one with [release] never decides: no event that starts this
    workflow has that name.  The step is enabled on every push and pull
    request that starts the workflow, and on a manual dispatch it is
    skipped: it is not among the steps of the run. *)
Theorem rust_cache_skipped_on_dispatch_only w t :
  starts_workflow t = true → event_name w = trigger_event t →
  event_name w ≠ "release" ∧
  enabled rust_cache w = bool_decide (trigger_event t ≠ "workflow_dispatch") ∧
  (trigger_event t = "workflow_dispatch" →
   ∀ s, RustCache ∉ rid <$> jsteps (run_job w s)).
Proof.
  unfold starts_workflow. intros Hs He.
  assert (event_name w ≠ "release" ∧
          enabled rust_cache w
          = bool_decide (trigger_event t ≠ "workflow_dispatch")) as [H1 H2].
  { simpl. rewrite He.
    destruct (decide (trigger_event t = "push")) as [->|Hp].
    { split; [done|]. reflexivity. }
    destruct (decide (trigger_event t = "pull_request")) as [->|Hr].
    { split; [done|]. reflexivity. }
    apply bool_decide_eq_true in Hs. rewrite Hs. split; [done|]. reflexivity. }
  split; [done|]. split; [done|].
  intros Hd s. unfold run_job. apply disabled_step_not_run.
  intros st Hst Hid. rewrite Hd in H2.
  unfold job_steps in Hst.
  repeat (apply elem_of_cons in Hst as [->|Hst]);
    try (by apply elem_of_nil in Hst); try discriminate Hid.
  exact H2.
Qed.

Lemma rust_cache_skipped_on_dispatch_only_witness :
  enabled rust_cache
    (World "workflow_dispatch" (λ _, true) sample_tool None None (λ _ _, true))
  = false.
Proof.
  apply (rust_cache_skipped_on_dispatch_only
           (World "workflow_dispatch" (λ _, true) sample_tool None None (λ _ _, true))
           (Trigger "workflow_dispatch" "main" [])); reflexivity.
Defined.

(** ** Provisioning, case by case *)

Lemma with_reg_same s : with_reg s (reg s) = s.
Proof. by destruct s. Qed.

Lemma leave_shell_same s : leave_shell s s = s.
Proof. by destruct s. Qed.

(** X11.  The provisioning step, case by case.  With the repository there
    it succeeds exactly when the describe call goes through, and a
    describe call that fails for any other reason sends the script to a
    create call that is refused.  Without the repository it succeeds
    exactly when the create call goes through.  A failed step leaves the
    state as it was; a successful one leaves the repository in the
    registry and changes nothing else.  The script calls describe once
    and create at most once, after a failed describe. *)
Theorem ensure_case_by_case w s :
  let r := ensure_ecr_public_repository_exists w s in
  ok r = (if decide ("martin" ∈ repos (reg s))
          then bool_decide (describe_fault w = None)
          else bool_decide (create_fault w = None)) ∧
  (ok r = false → final r = s) ∧
  (ok r = true →
     fs (final r) = fs s ∧ env (final r) = env s ∧
     tags (reg (final r)) = tags (reg s) ∧
     repos (reg (final r)) = {[ "martin" ]} ∪ repos (reg s)) ∧
  (events r = [EDescribe "martin" None] ∨
   ∃ e e', events r = [EDescribe "martin" (Some e); ECreate "martin" e'] ∧
           ok r = succeeded e').
Proof.
  unfold ensure_ecr_public_repository_exists, or_else,
    aws_describe_repositories, aws_create_repository,
    describe_repositories, create_repository.
  cbv zeta. cbn [ok final events].
  destruct (decide ("martin" ∈ repos (reg s))) as [Hin|Hin];
    destruct (describe_fault w) as [e|] eqn:Hd; cbn [succeeded ok final events];
    try (destruct (create_fault w) as [e'|] eqn:Hc);
    cbn [succeeded ok final events app fs env reg with_reg repos tags].
  all: rewrite ?with_reg_same.
  all: repeat split; try done; eauto.
  all: try intros _.
  all: symmetry; apply subseteq_union_1_L; by apply singleton_subseteq_l.
Qed.

(** ** What a run can do to the registry *)

Lemma ensure_registry w s :
  let r' := reg (final (ensure_ecr_public_repository_exists w s)) in
  r' = reg s ∨
  (repos r' = {[ "martin" ]} ∪ repos (reg s) ∧ tags r' = tags (reg s)).
Proof.
  unfold ensure_ecr_public_repository_exists, or_else,
    aws_describe_repositories, aws_create_repository, create_repository.
  cbv zeta. cbn [ok final].
  destruct (succeeded _); [by left|].
  destruct (create_fault w); [by left|].
  destruct (decide _); [by left|]. by right.
Qed.

Lemma build_push_action_registry w ps tag s :
  let r' := reg (final (build_push_action w ps tag s)) in
  r' = reg s ∨ r' = push_image tag ps (reg s).
Proof.
  unfold build_push_action. simpl. destruct (image_push _ _ _); [by right|by left].
Qed.

(** What one step of the job can do to the registry. *)
Lemma job_step_registry w st s :
  st ∈ job_steps →
  let r' := reg (final (run st w s)) in
  r' = reg s ∨
  (repos r' = {[ "martin" ]} ∪ repos (reg s) ∧ tags r' = tags (reg s)) ∨
  ∃ p, p ∈ platforms ∧ r' = push_image image_tag [p] (reg s).
Proof.
  unfold job_steps. intros H.
  repeat (apply elem_of_cons in H as [Heq|H]; [subst st|]);
    try by apply elem_of_nil in H.
  all: cbv zeta; simpl.
  all: try by left.
  - left. apply keeps_reg_build_targets.
  - left. apply keeps_reg_reorganize_artifacts.
  - destruct (ensure_registry w s) as [?|?]; [by left|right; by left].
  - destruct (build_push_action_registry w ["linux/arm64"] image_tag s) as [?|?];
      [by left|]. right. right. exists "linux/arm64". split; [|done].
    unfold platforms. by left.
  - destruct (build_push_action_registry w ["linux/amd64"] image_tag s) as [?|?];
      [by left|]. right. right. exists "linux/amd64". split; [|done].
    unfold platforms. right. by left.
Qed.

(** X12.  What a run of the job can do to the registry, however it
    ends.  It deletes no repository and creates none but martin; it moves
    no tag but martin:latest; and when it has moved that tag, the
    manifest lists one platform, never both. *)
Theorem run_job_registry w s :
  repos (reg s) ⊆ repos (reg (jfinal (run_job w s))) ∧
  repos (reg (jfinal (run_job w s))) ⊆ {[ "martin" ]} ∪ repos (reg s) ∧
  (∀ tag, tag ≠ image_tag →
     tags (reg (jfinal (run_job w s))) !! tag = tags (reg s) !! tag) ∧
  (tags (reg (jfinal (run_job w s))) !! image_tag = tags (reg s) !! image_tag ∨
   ∃ p, p ∈ platforms ∧
        tags (reg (jfinal (run_job w s))) !! image_tag = Some [p]).
Proof.
  unfold run_job.
  apply (run_steps_invariant
           (λ s', repos (reg s) ⊆ repos (reg s') ∧
                  repos (reg s') ⊆ {[ "martin" ]} ∪ repos (reg s) ∧
                  (∀ tag, tag ≠ image_tag →
                     tags (reg s') !! tag = tags (reg s) !! tag) ∧
                  (tags (reg s') !! image_tag = tags (reg s) !! image_tag ∨
                   ∃ p, p ∈ platforms ∧ tags (reg s') !! image_tag = Some [p]))).
  - intros st s' Hst (H1 & H2 & H3 & H4).
    change (reg (leave_shell s' (final (run st w s'))))
      with (reg (final (run st w s'))).
    destruct (job_step_registry w st s' Hst) as [->|[[Hr Ht]|(p & Hp & ->)]].
    + done.
    + rewrite Hr, Ht. split; [|split; [|done]].
      * etrans; [exact H1|]. apply union_subseteq_r.
      * apply union_least; [apply union_subseteq_l|done].
    + simpl. split; [done|]. split; [done|]. split.
      * intros tag Htag. rewrite lookup_insert_ne by done. by apply H3.
      * right. exists p. split; [done|]. by rewrite lookup_insert_eq.
  - split; [done|]. split; [apply union_subseteq_r|]. split; [done|by left].
Qed.

(** ** Directories that can still be made *)

Lemma preserves_seq P c1 c2 :
  preserves P c1 → preserves P c2 → preserves P (c1 ;; c2)%cmd.
Proof.
  intros H1 H2 s Hs. unfold seq. destruct (ok (c1 s)) eqn:E; simpl; auto.
Qed.

Lemma mkdir_p_empty p : is_Some (mkdir_p p (Dir ∅)).
Proof.
  induction p as [|x p IH]; [by eexists|].
  rewrite mkdir_p_cons, lookup_empty. simpl.
  destruct IH as [c ->]. by eexists.
Qed.

Lemma mkdir_p_missing x p m :
  m !! x = None → is_Some (mkdir_p (x :: p) (Dir m)).
Proof.
  intros H. rewrite mkdir_p_cons, H. simpl.
  destruct (mkdir_p_empty p) as [c ->]. by eexists.
Qed.

Section possible.
Context (q : path).

Lemma mv_still_possible sdir name dst n :
  apart sdir q = true → apart dst q = true →
  is_Some (mkdir_p q n) → is_Some (mkdir_p q (mv sdir name dst n).1).
Proof.
  intros Hs Hd Hq. unfold mv.
  destruct (ls sdir n ≫= _) as [v|]; [|exact Hq].
  destruct (ls dst n) as [md|]; [|exact Hq].
  destruct (can_replace v (md !! name) && apart sdir dst); [|exact Hq].
  destruct (modify_dir sdir _ n) as [n1|] eqn:H1; simpl; [|exact Hq].
  destruct (modify_dir dst _ n1) as [n2|] eqn:H2; simpl; [|exact Hq].
  eapply modify_dir_still_possible; [exact Hd|exact H2|].
  eapply modify_dir_still_possible; [exact Hs|exact H1|exact Hq].
Qed.

Lemma mv_glob_still_possible src dst n :
  apart src q = true → apart dst q = true →
  is_Some (mkdir_p q n) → is_Some (mkdir_p q (mv_glob src dst n).1).
Proof.
  intros Hs Hd Hq. unfold mv_glob.
  destruct (ls src n) as [ms|]; [|exact Hq].
  destruct (ls dst n) as [md|]; [|exact Hq].
  destruct (bool_decide (size (glob_star ms) = 0) || negb (apart src dst));
    [exact Hq|].
  destruct (modify_dir src _ n) as [n1|] eqn:H1; simpl; [|exact Hq].
  destruct (modify_dir dst _ n1) as [n2|] eqn:H2; simpl; [|exact Hq].
  eapply modify_dir_still_possible; [exact Hd|exact H2|].
  eapply modify_dir_still_possible; [exact Hs|exact H1|exact Hq].
Qed.

Lemma preserves_can_mkdir_mkdir_p_cmd p : preserves (can_mkdir q) (mkdir_p_cmd p).
Proof.
  intros s Hq. unfold can_mkdir, mkdir_p_cmd in *. rewrite fs_cmd_fs.
  destruct (mkdir_p p (fs s)) as [n'|] eqn:H; [|done].
  by eapply mkdir_p_still_possible.
Qed.

Lemma preserves_can_mkdir_mv_cmd sdir name dst :
  apart sdir q = true → apart dst q = true →
  preserves (can_mkdir q) (mv_cmd sdir name dst).
Proof.
  intros Hs Hd s Hq. unfold can_mkdir, mv_cmd in *. rewrite fs_cmd_fs.
  by apply mv_still_possible.
Qed.

Lemma preserves_can_mkdir_mv_glob_cmd src dst :
  apart src q = true → apart dst q = true →
  preserves (can_mkdir q) (mv_glob_cmd src dst).
Proof.
  intros Hs Hd s Hq. unfold can_mkdir, mv_glob_cmd in *. rewrite fs_cmd_fs.
  by apply mv_glob_still_possible.
Qed.

Lemma preserves_can_mkdir_build_target w t :
  apart ["target"; t; "release"] q = true →
  apart ["target_releases"; t] q = true →
  preserves (can_mkdir q) (build_target w t).
Proof.
  intros H1 H2. unfold build_target.
  repeat apply preserves_seq;
    auto using preserves_can_mkdir_mkdir_p_cmd, preserves_can_mkdir_mv_cmd.
  - by intros s.
  - intros s. by apply cross_build_cmd_still_possible.
  - intros s. by apply cross_build_cmd_still_possible.
Qed.

Lemma preserves_can_mkdir_collect triple platform :
  apart ["target_releases"; triple] q = true →
  apart ("target_releases" :: platform) q = true →
  preserves (can_mkdir q) (collect triple platform).
Proof.
  intros H1 H2. unfold collect.
  apply preserves_seq;
    auto using preserves_can_mkdir_mkdir_p_cmd, preserves_can_mkdir_mv_glob_cmd.
Qed.
End possible.

(** ** A run in which everything works *)

Lemma staged_files_lookup w t name :
  staged_files w t !! name
  = if decide (name ∈ binaries) then File <$> built w t !! name else None.
Proof.
  unfold staged_files. rewrite lookup_fmap.
  destruct (decide (name ∈ binaries)) as [Hn|Hn].
  - destruct (built w t !! name) as [b|] eqn:Hb; simpl.
    + by rewrite (map_lookup_filter_Some_2 _ _ name b).
    + rewrite (proj2 (map_lookup_filter_None _ _ name)); [done|]. by left.
  - rewrite (proj2 (map_lookup_filter_None _ _ name)); [done|].
    right. by intros v _.
Qed.

Lemma staged_files_fresh w t b1 b2 b3 :
  built w t !! "martin" = Some b1 →
  built w t !! "martin-cp" = Some b2 →
  built w t !! "mbtiles" = Some b3 →
  <["mbtiles" := File b3]> (<["martin-cp" := File b2]> (<["martin" := File b1]> ∅))
  = staged_files w t.
Proof.
  intros H1 H2 H3. apply map_eq. intros k. rewrite staged_files_lookup.
  destruct (decide (k ∈ binaries)) as [Hk|Hk].
  - apply elem_of_binaries in Hk as [-> | [-> | ->]].
    + rewrite H1. rewrite !lookup_insert_ne by done. by rewrite lookup_insert_eq.
    + rewrite H2. rewrite lookup_insert_ne by done. by rewrite lookup_insert_eq.
    + rewrite H3. by rewrite lookup_insert_eq.
  - rewrite !lookup_insert_ne; [done|..];
      intros <-; apply Hk; apply elem_of_binaries; tauto.
Qed.

Lemma staged_files_dom w t :
  binaries ⊆ dom (built w t) → dom (staged_files w t) = binaries.
Proof.
  intros H. apply set_eq. intros k. rewrite elem_of_dom, staged_files_lookup.
  destruct (decide (k ∈ binaries)) as [Hk|Hk].
  - split; [done|]. intros _. apply H, elem_of_dom in Hk as [b ->]. by eexists.
  - split; [by intros [? ?]|done].
Qed.

(** "Build targets" over distinct targets, when the toolchain works. *)
Lemma build_targets_in_run w ts s :
  NoDup ts →
  (∀ t, t ∈ ts →
     exit_ok (cross_build w t "mbtiles" (Some "-C strip=debuginfo")) = true ∧
     exit_ok (cross_build w t "martin" (Some "-C strip=debuginfo")) = true ∧
     binaries ⊆ dom (built w t)) →
  (∀ t, t ∈ ts →
     can_mkdir ["target"; t; "release"] s ∧
     can_mkdir ["target_releases"; t] s ∧
     default ∅ (ls ["target_releases"; t] (fs s)) = ∅) →
  ok (build_targets_in ts w s) = true ∧
  ∀ t, t ∈ ts →
    ls ["target_releases"; t] (fs (final (build_targets_in ts w s)))
    = Some (staged_files w t).
Proof.
  intros Hnd. revert s. induction Hnd as [|t ts Hnin Hnd IH]; intros s Hw Hs.
  { split; [done|]. intros t Ht. by apply elem_of_nil in Ht. }
  destruct (Hw t) as (Hx1 & Hx2 & Hdom); [by left|].
  destruct (Hs t) as (Hrel & Hst & Hfresh); [by left|].
  assert (∀ name, name ∈ binaries → is_Some (built w t !! name)) as Hb.
  { intros name Hn. apply elem_of_dom. by apply Hdom. }
  destruct (Hb "martin") as [b1 Hb1]; [apply elem_of_binaries; tauto|].
  destruct (Hb "martin-cp") as [b2 Hb2]; [apply elem_of_binaries; tauto|].
  destruct (Hb "mbtiles") as [b3 Hb3]; [apply elem_of_binaries; tauto|].
  destruct (build_target_run w t s b1 b2 b3 Hx1 Hx2 Hb1 Hb2 Hb3 Hrel Hst)
    as (Hok & Hstaged & _).
  { intros name v. rewrite Hfresh. by rewrite lookup_empty. }
  rewrite Hfresh, (staged_files_fresh w t b1 b2 b3) in Hstaged by done.
  unfold build_targets_in in *. cbn [for_each].
  set (s1 := final (build_target w t s)) in *.
  rewrite seq_true by done. cbn [ok final]. fold s1.
  assert (∀ t', t' ∈ ts → t ≠ t') as Hne by (intros t' Ht' ->; done).
  destruct (IH s1) as [Hok' Hrest].
  { intros t' Ht'. apply Hw. by right. }
  { intros t' Ht'. destruct (Hs t') as (Hrel' & Hst' & Hfresh'); [by right|].
    specialize (Hne t' Ht').
    split; [|split].
    - apply preserves_can_mkdir_build_target;
        [by apply apart_release|done|done].
    - apply preserves_can_mkdir_build_target;
        [done|by apply apart_staged|done].
    - rewrite (ls_apart _ (fs s) (fs s1)); [done|].
      apply (keeps_at_build_target ["target_releases"; t'] w t);
        [done|by apply apart_staged]. }
  split; [done|]. intros t' Ht'.
  apply elem_of_cons in Ht' as [->|Ht']; [|by apply Hrest].
  rewrite <-Hstaged. apply ls_apart.
  apply (keeps_at_build_targets_in w ts ["target_releases"; t]).
  intros t' Ht'. specialize (Hne t' Ht'). split; [done|].
  apply apart_staged. congruence.
Qed.

Lemma glob_star_nonempty (m : gmap string node) :
  dom m = binaries → glob_star m ≠ ∅.
Proof.
  intros Hdom. rewrite glob_star_all; [by apply binaries_nonempty|].
  intros k. by apply binaries_visible.
Qed.

(** "Reorganize artifacts" goes through when both bundles are staged and
    nothing is in the way of the platform directories. *)
Lemma reorganize_artifacts_succeeds s ma mx :
  ls ["target_releases"; "aarch64-unknown-linux-musl"] (fs s) = Some ma →
  ls ["target_releases"; "x86_64-unknown-linux-musl"] (fs s) = Some mx →
  dom ma = binaries → dom mx = binaries →
  lookup_path ["target_releases"; "linux"] (fs s) = None →
  ok (reorganize_artifacts s) = true.
Proof.
  intros Ha Hx Hda Hdx Hl. unfold reorganize_artifacts.
  assert (lookup_path ["target_releases"; "linux"; "arm64"] (fs s) = None) as Hl1
    by apply (lookup_path_below_missing ["target_releases"; "linux"] ["arm64"] _ Hl).
  assert (lookup_path ["target_releases"; "linux"; "amd64"] (fs s) = None) as Hl2
    by apply (lookup_path_below_missing ["target_releases"; "linux"] ["amd64"] _ Hl).
  assert (∃ m, fs s = Dir m ∧ ∃ mt, m !! "target_releases" = Some (Dir mt)
               ∧ mt !! "linux" = None) as (m & Hm & mt & Hmt & Hlin).
  { destruct (fs s) as [d|m]; [done|]. exists m. split; [done|].
    rewrite ls_cons in Ha. rewrite lookup_path_cons in Hl.
    destruct (m !! "target_releases") as [[d|mt]|]; try done.
    exists mt. split; [done|]. simpl in Hl. rewrite lookup_path_cons in Hl.
    by destruct (mt !! "linux"). }
  assert (∀ p, can_mkdir ("target_releases" :: "linux" :: p) s) as Hcan.
  { intros p. unfold can_mkdir. rewrite Hm, mkdir_p_cons, Hmt. simpl.
    destruct (mkdir_p_missing "linux" p mt Hlin) as [c ->]. by eexists. }
  assert (ok (collect "aarch64-unknown-linux-musl" ["linux"; "arm64"] s) = true)
    as Hok1.
  { eapply collect_succeeds; [exact Ha|by apply glob_star_nonempty|done|apply Hcan|].
    intros k v _. by rewrite (ls_missing _ _ Hl1). }
  rewrite seq_true by done. cbn [ok final].
  destruct (collect_ok _ _ _ Hok1) as (ms & _ & _ & _ & _ & _ & _ & Hfr & _).
  set (s1 := final (collect "aarch64-unknown-linux-musl" ["linux"; "arm64"] s)) in *.
  eapply collect_succeeds.
  - rewrite (ls_apart _ (fs s) (fs s1)); [exact Hx|]. by apply Hfr.
  - by apply glob_star_nonempty.
  - done.
  - apply preserves_can_mkdir_collect; [done|done|apply Hcan].
  - intros k v _. rewrite (ls_missing _ (fs s1)); [done|].
    rewrite Hfr by done. exact Hl2.
Qed.

Lemma run_steps_quiet w l rest s :
  quiet w l →
  jok (run_steps w (l ++ rest) s) = jok (run_steps w rest s) ∧
  jfinal (run_steps w (l ++ rest) s) = jfinal (run_steps w rest s).
Proof.
  intros Hq. induction l as [|st l IH]; [done|].
  rewrite <-app_comm_cons, run_steps_cons.
  assert (quiet w l) as Hq' by (intros st' s' Hst'; apply Hq; by right).
  destruct (enabled st w); [|by apply IH].
  rewrite (Hq st s) by left. cbn [ok final jok jfinal].
  rewrite leave_shell_same. by apply IH.
Qed.

Lemma run_steps_step_ok w st rest s :
  enabled st w = true → ok (run st w s) = true →
  jok (run_steps w (st :: rest) s)
  = jok (run_steps w rest (leave_shell s (final (run st w s)))) ∧
  jfinal (run_steps w (st :: rest) s)
  = jfinal (run_steps w rest (leave_shell s (final (run st w s)))).
Proof. intros He Hok. by rewrite run_steps_cons, He, Hok. Qed.

Lemma ensure_succeeds w s :
  (if decide ("martin" ∈ repos (reg s))
   then describe_fault w = None else create_fault w = None) →
  let r := ensure_ecr_public_repository_exists w s in
  ok r = true ∧ fs (final r) = fs s ∧
  tags (reg (final r)) = tags (reg s) ∧
  repos (reg (final r)) = {[ "martin" ]} ∪ repos (reg s).
Proof.
  unfold ensure_ecr_public_repository_exists, or_else,
    aws_describe_repositories, aws_create_repository,
    describe_repositories, create_repository.
  cbv zeta. cbn [ok final events].
  destruct (decide ("martin" ∈ repos (reg s))) as [Hin|Hin]; intros ->.
  - cbn [succeeded ok final]. repeat split.
    symmetry. apply subseteq_union_1_L. by apply singleton_subseteq_l.
  - by destruct (describe_fault w).
Qed.

Section green.
Context (w : world) (setup saved served signed : list step).

Lemma green_run_steps s :
  quiet w setup → quiet w saved → quiet w served → quiet w signed →
  (∀ t, t ∈ targets →
     exit_ok (cross_build w t "mbtiles" (Some "-C strip=debuginfo")) = true ∧
     exit_ok (cross_build w t "martin" (Some "-C strip=debuginfo")) = true ∧
     binaries ⊆ dom (built w t)) →
  (if decide ("martin" ∈ repos (reg s))
   then describe_fault w = None else create_fault w = None) →
  (∀ p n, p ∈ platforms → collected w n → image_push w [p] n = true) →
  (∀ t, t ∈ targets → can_mkdir ["target"; t; "release"] s) →
  lookup_path ["target_releases"] (fs s) = None →
  let j := run_steps w
             (setup
              ++ Step BuildTargets (λ _, true) build_targets
              :: saved
              ++ Step ReorganizeArtifacts (λ _, true) (λ _, reorganize_artifacts)
              :: served
              ++ Step EnsureEcrPublicRepositoryExists (λ _, true)
                   ensure_ecr_public_repository_exists
              :: signed ++ publish_steps) s in
  jok j = true ∧
  collected w (fs (jfinal j)) ∧
  repos (reg (jfinal j)) = {[ "martin" ]} ∪ repos (reg s) ∧
  tags (reg (jfinal j)) = <[image_tag := ["linux/amd64"]]> (tags (reg s)).
Proof.
  intros Q1 Q2 Q3 Q4 Hw He Hpush Hrel Hfresh j. subst j.
  set (build := Step BuildTargets (λ _, true) build_targets).
  set (reorganize := Step ReorganizeArtifacts (λ _, true)
                       (λ _, reorganize_artifacts)).
  set (ensure := Step EnsureEcrPublicRepositoryExists (λ _, true)
                   ensure_ecr_public_repository_exists).
  destruct (run_steps_quiet w setup (build :: saved ++ reorganize :: served
              ++ ensure :: signed ++ publish_steps) s Q1) as [-> ->].
  (* Build targets *)
  destruct (build_targets_in_run w targets s) as [Hb Hstaged].
  { unfold targets. apply NoDup_cons. split; [|apply NoDup_singleton].
    by rewrite list_elem_of_singleton. }
  { done. }
  { intros t Ht. split; [by apply Hrel|].
    assert (ls ["target_releases"; t] (fs s) = None) as Hno.
    { apply ls_missing.
      apply (lookup_path_below_missing ["target_releases"] [t] _ Hfresh). }
    split; [|by rewrite Hno].
    specialize (Hrel t Ht). unfold can_mkdir in *.
    destruct (fs s) as [d|m]; [by destruct Hrel|].
    apply mkdir_p_missing. rewrite lookup_path_cons in Hfresh.
    by destruct (m !! "target_releases"). }
  destruct (run_steps_step_ok w build (saved ++ reorganize :: served
              ++ ensure :: signed ++ publish_steps) s eq_refl Hb) as [-> ->].
  set (s1 := leave_shell s (final (run build w s))).
  assert (reg s1 = reg s) as Hr1 by apply keeps_reg_build_targets.
  assert (lookup_path ["target_releases"; "linux"] (fs s1) = None) as Hlin.
  { etrans; [|exact (lookup_path_below_missing ["target_releases"] ["linux"] _ Hfresh)].
    apply (keeps_at_build_targets_in w targets ["target_releases"; "linux"]).
    intros t Ht. split; [done|].
    unfold targets in Ht. rewrite !elem_of_cons, elem_of_nil in Ht.
    by destruct Ht as [->|[->|[]]]. }
  pose proof (Hstaged "aarch64-unknown-linux-musl") as Ha.
  pose proof (Hstaged "x86_64-unknown-linux-musl") as Hx.
  assert ("aarch64-unknown-linux-musl" ∈ targets) as Hta by (unfold targets; by left).
  assert ("x86_64-unknown-linux-musl" ∈ targets) as Htx
    by (unfold targets; right; by left).
  specialize (Ha Hta). specialize (Hx Htx).
  destruct (Hw _ Hta) as (_ & _ & Hda). destruct (Hw _ Htx) as (_ & _ & Hdx).
  apply staged_files_dom in Hda, Hdx.
  (* Save build artifacts *)
  destruct (run_steps_quiet w saved (reorganize :: served
              ++ ensure :: signed ++ publish_steps) s1 Q2) as [-> ->].
  (* Reorganize artifacts *)
  pose proof (reorganize_artifacts_succeeds s1 _ _ Ha Hx Hda Hdx Hlin) as Hro.
  destruct (reorganize_artifacts_collected s1 _ _ Ha Hx Hda Hdx Hlin Hro)
    as (Hca & Hcx & _).
  destruct (run_steps_step_ok w reorganize (served
              ++ ensure :: signed ++ publish_steps) s1 eq_refl Hro) as [-> ->].
  set (s2 := leave_shell s1 (final (run reorganize w s1))).
  assert (reg s2 = reg s) as Hr2.
  { rewrite <-Hr1. apply keeps_reg_reorganize_artifacts. }
  assert (collected w (fs s2)) as Hcol.
  { intros triple platform Hin. unfold architecture_mapping in Hin.
    rewrite !elem_of_cons, elem_of_nil in Hin.
    destruct Hin as [[= -> ->]|[[= -> ->]|[]]]; [exact Hca|exact Hcx]. }
  (* Start NGINX, copy static files *)
  destruct (run_steps_quiet w served (ensure :: signed ++ publish_steps) s2 Q3)
    as [-> ->].
  (* Ensure ECR public repository exists *)
  destruct (ensure_succeeds w s2) as (Hen & Hfs3 & Ht3 & Hrp3);
    [by rewrite Hr2|].
  destruct (run_steps_step_ok w ensure (signed ++ publish_steps) s2 eq_refl Hen)
    as [-> ->].
  set (s3 := leave_shell s2 (final (run ensure w s2))).
  change (fs s3) with (fs (final (ensure_ecr_public_repository_exists w s2))) in *.
  (* credentials, login *)
  destruct (run_steps_quiet w signed publish_steps s3 Q4) as [-> ->].
  (* the two images *)
  assert (collected w (fs s3)) as Hcol3 by (unfold s3; simpl; by rewrite Hfs3).
  unfold publish_steps.
  assert (ok (build_push_action w ["linux/arm64"] image_tag s3) = true
          ∧ final (build_push_action w ["linux/arm64"] image_tag s3)
            = with_reg s3 (push_image image_tag ["linux/arm64"] (reg s3)))
    as [Hok4 Hfin4].
  { unfold build_push_action. rewrite Hpush; [done| |done].
    unfold platforms. by left. }
  destruct (run_steps_step_ok w build_linux_arm64_docker_image
              [build_linux_amd64_docker_image] s3 eq_refl Hok4) as [-> ->].
  cbn [run build_linux_arm64_docker_image]. rewrite Hfin4.
  set (s4 := leave_shell s3 _).
  assert (collected w (fs s4)) as Hcol4 by done.
  assert (ok (build_push_action w ["linux/amd64"] image_tag s4) = true
          ∧ final (build_push_action w ["linux/amd64"] image_tag s4)
            = with_reg s4 (push_image image_tag ["linux/amd64"] (reg s4)))
    as [Hok5 Hfin5].
  { unfold build_push_action. rewrite Hpush; [done| |done].
    unfold platforms. right. by left. }
  destruct (run_steps_step_ok w build_linux_amd64_docker_image
              [] s4 eq_refl Hok5) as [-> ->].
  cbn [run build_linux_amd64_docker_image run_steps jok jfinal]. rewrite Hfin5.
  split; [done|]. split; [done|].
  cbn [leave_shell with_reg reg fs env push_image repos tags].
  assert (reg s4 = push_image image_tag ["linux/arm64"]
                     (reg (final (ensure_ecr_public_repository_exists w s2))))
    as -> by done.
  cbn [push_image repos tags]. rewrite insert_insert_eq.
  by rewrite Hrp3, Ht3, Hr2.
Qed.
End green.

Lemma job_steps_split :
  job_steps
  = take 6 job_steps
    ++ Step BuildTargets (λ _, true) build_targets
    :: take 1 (drop 7 job_steps)
    ++ Step ReorganizeArtifacts (λ _, true) (λ _, reorganize_artifacts)
    :: take 2 (drop 9 job_steps)
    ++ Step EnsureEcrPublicRepositoryExists (λ _, true)
         ensure_ecr_public_repository_exists
    :: take 2 (drop 12 job_steps)
    ++ publish_steps.
Proof. reflexivity. Qed.

Lemma job_steps_quiet w :
  (∀ i, action_ok w i = true) →
  quiet w (take 6 job_steps) ∧ quiet w (take 1 (drop 7 job_steps)) ∧
  quiet w (take 2 (drop 9 job_steps)) ∧ quiet w (take 2 (drop 12 job_steps)).
Proof.
  intros Hact. unfold job_steps. cbn [take drop].
  repeat split; intros st s Hst.
  all: repeat (apply elem_of_cons in Hst as [->|Hst]);
    try (by apply elem_of_nil in Hst).
  all: simpl; by rewrite Hact.
Qed.

(** X13.  A run in which everything works.  On a runner where
    [target_releases] does not exist and [target/<t>/release] can be made,
    with a toolchain whose calls exit with 0 and write the three binaries,
    the actions from outside succeeding, the registry answering (the
    describe call when the repository is there, the create call when it
    is not), and the image build succeeding on a workspace that has the
    binaries in the platform directories: the job succeeds, each platform
    directory holds exactly the three binaries that the toolchain built
    for its triple, the repository martin exists, and martin:latest
    points to the linux/amd64 image alone. *)
Theorem run_job_green w s :
  (∀ i, action_ok w i = true) →
  (∀ t, t ∈ targets →
     exit_ok (cross_build w t "mbtiles" (Some "-C strip=debuginfo")) = true ∧
     exit_ok (cross_build w t "martin" (Some "-C strip=debuginfo")) = true ∧
     binaries ⊆ dom (built w t)) →
  (if decide ("martin" ∈ repos (reg s))
   then describe_fault w = None else create_fault w = None) →
  (∀ p n, p ∈ platforms → collected w n → image_push w [p] n = true) →
  (∀ t, t ∈ targets → can_mkdir ["target"; t; "release"] s) →
  lookup_path ["target_releases"] (fs s) = None →
  jok (run_job w s) = true ∧
  collected w (fs (jfinal (run_job w s))) ∧
  repos (reg (jfinal (run_job w s))) = {[ "martin" ]} ∪ repos (reg s) ∧
  tags (reg (jfinal (run_job w s)))
  = <[image_tag := ["linux/amd64"]]> (tags (reg s)).
Proof.
  intros Hact Hw He Hpush Hrel Hfresh.
  destruct (job_steps_quiet w Hact) as (Q1 & Q2 & Q3 & Q4).
  unfold run_job. rewrite job_steps_split.
  by apply green_run_steps.
Qed.

Lemma run_job_green_witness :
  jok (run_job sample_world fresh_state) = true ∧
  collected sample_world (fs (jfinal (run_job sample_world fresh_state))) ∧
  repos (reg (jfinal (run_job sample_world fresh_state)))
  = {[ "martin" ]} ∪ repos (reg fresh_state) ∧
  tags (reg (jfinal (run_job sample_world fresh_state)))
  = <[image_tag := ["linux/amd64"]]> (tags (reg fresh_state)).
Proof.
  apply (run_job_green sample_world fresh_state).
  - intros i. reflexivity.
  - intros t Ht. unfold targets in Ht.
    rewrite !elem_of_cons, elem_of_nil in Ht.
    destruct Ht as [->|[->|[]]]; (split; [reflexivity|split; [reflexivity|]]);
      vm_compute; intros x Hx; exact Hx.
  - reflexivity.
  - intros p n _ _. reflexivity.
  - intros t _. unfold can_mkdir. apply mkdir_p_empty.
  - reflexivity.
Defined.

(** ** A failed build and the targets built before it *)

Lemma lookup_path_app p q n :
  lookup_path (p ++ q) n = lookup_path p n ≫= lookup_path q.
Proof.
  revert n. induction p as [|x p IH]; intros n; [done|].
  destruct n as [d|m]; [done|]. rewrite <-app_comm_cons, !lookup_path_cons.
  destruct (m !! x) as [c|]; simpl; [apply IH|done].
Qed.

(** A round in which a toolchain call failed has staged nothing. *)
Lemma failed_call_stages_nothing w t s t' p fl :
  EToolchain t' p fl false ∈ events (build_target w t s) →
  lookup_path ["target_releases"] (fs (final (build_target w t s)))
  = lookup_path ["target_releases"] (fs s).
Proof.
  unfold build_target. rewrite seq_events.
  rewrite (seq_true (export _ _)) by done.
  change (ok (export (rustflags_var t) "-C strip=debuginfo" s)) with true.
  change (events (export (rustflags_var t) "-C strip=debuginfo" s))
    with (@nil event).
  cbn [final app].
  set (s1 := final (export (rustflags_var t) "-C strip=debuginfo" s)).
  assert (apart ["target"; t; "release"] ["target_releases"] = true) as Ha by done.
  pose proof (cross_build_cmd_apart w t "mbtiles" s1 _ Ha) as Hf1.
  rewrite seq_events, cross_build_cmd_events.
  destruct (ok (cross_build_cmd w t "mbtiles" s1)) eqn:Hok1.
  2: { intros _. rewrite (seq_false (cross_build_cmd w t "mbtiles")) by done.
       exact Hf1. }
  rewrite (seq_true (cross_build_cmd w t "mbtiles")) by done. cbn [final].
  set (s2 := final (cross_build_cmd w t "mbtiles" s1)) in *.
  pose proof (cross_build_cmd_apart w t "martin" s2 _ Ha) as Hf2.
  rewrite elem_of_app, list_elem_of_singleton. intros [Heq|Hin]; [discriminate Heq|].
  revert Hin. rewrite seq_events, cross_build_cmd_events.
  destruct (ok (cross_build_cmd w t "martin" s2)) eqn:Hok2.
  2: { intros _. rewrite (seq_false (cross_build_cmd w t "martin")) by done.
       by rewrite Hf2, Hf1. }
  rewrite elem_of_app, list_elem_of_singleton. intros [Heq|Hin]; [discriminate Heq|].
  exfalso.
  assert (emits (λ _, False) (mkdir_p_cmd ["target_releases"; t];;
     mv_cmd ["target"; t; "release"] "martin" ["target_releases"; t];;
     mv_cmd ["target"; t; "release"] "martin-cp" ["target_releases"; t];;
     mv_cmd ["target"; t; "release"] "mbtiles" ["target_releases"; t])%cmd) as Hno.
  { repeat apply emits_seq; apply emits_fs_cmd. }
  eapply Forall_forall in Hno; [|exact Hin]. done.
Qed.

(** The loop stops in the round of the failed call; the rounds before it
    went through. *)
Lemma build_targets_in_failed_call w ts s pre t p fl :
  events (build_targets_in ts w s) = pre ++ [EToolchain t p fl false] →
  ∃ before rest,
    ts = before ++ t :: rest ∧
    ok (build_targets_in before w s) = true ∧
    lookup_path ["target_releases"] (fs (final (build_targets_in ts w s)))
    = lookup_path ["target_releases"] (fs (final (build_targets_in before w s))).
Proof.
  unfold build_targets_in. revert s pre.
  induction ts as [|a ts IH]; intros s pre E; cbn [for_each] in *.
  { by destruct pre. }
  rewrite seq_events in E.
  destruct (ok (build_target w a s)) eqn:Hok.
  - rewrite (seq_true (build_target w a)) by done. cbn [final].
    assert (∃ pre', events (for_each ts (build_target w)
                              (final (build_target w a s)))
                    = pre' ++ [EToolchain t p fl false]) as [pre' E'].
    { destruct (events (for_each ts (build_target w) (final (build_target w a s))))
        as [|e l] eqn:El using rev_ind.
      - exfalso. rewrite app_nil_r in E.
        assert (ok (build_targets_in [a] w s) = false) as Hf.
        { eapply (halts_build_targets_in [a] w s pre t p fl []).
          unfold build_targets_in. cbn [for_each].
          rewrite seq_events, Hok. cbn [skip events]. by rewrite app_nil_r. }
        unfold build_targets_in in Hf. cbn [for_each] in Hf.
        rewrite seq_skip in Hf. congruence.
      - clear IHl. rewrite app_assoc in E.
        apply app_inj_tail in E as [_ ->]. by exists l. }
    destruct (IH _ _ E') as (before & rest & -> & Hb & Hl).
    exists (a :: before), rest. split; [done|]. cbn [for_each].
    rewrite (seq_true (build_target w a)) by done. cbn [ok final].
    by split.
  - rewrite app_nil_r in E. rewrite (seq_false (build_target w a)) by done.
    assert (EToolchain t p fl false ∈ events (build_target w a s)) as Hin.
    { rewrite E. apply elem_of_app. right. by left. }
    destruct (build_target_events _ _ _ _ Hin) as (p' & b & Heq).
    injection Heq as <- _ _ _.
    exists [], ts. split; [done|]. split; [done|].
    cbn [for_each skip final]. by eapply failed_call_stages_nothing.
Qed.

Lemma staged_binaries_dom v1 v2 v3 (old : gmap string node) :
  binaries ⊆ dom (<["mbtiles" := v3]> (<["martin-cp" := v2]>
                    (<["martin" := v1]> old))).
Proof.
  intros k Hk. apply elem_of_dom.
  unfold binaries in Hk. rewrite !elem_of_union, !elem_of_singleton in Hk.
  destruct Hk as [[->| ->]| ->].
  - rewrite !lookup_insert_ne by done. rewrite lookup_insert_eq. by eexists.
  - rewrite lookup_insert_ne by done. rewrite lookup_insert_eq. by eexists.
  - rewrite lookup_insert_eq. by eexists.
Qed.

(** After a loop over distinct targets that went through, the staging
    directory of each target holds the three binaries. *)
Lemma build_targets_in_staged_all w ts s t :
  NoDup ts → ok (build_targets_in ts w s) = true → t ∈ ts →
  ∃ m, ls ["target_releases"; t] (fs (final (build_targets_in ts w s))) = Some m ∧
       binaries ⊆ dom m.
Proof.
  intros Hnd. revert s. unfold build_targets_in.
  induction Hnd as [|a ts Hnin Hnd IH]; intros s Hok Ht.
  { by apply elem_of_nil in Ht. }
  cbn [for_each] in *.
  apply seq_ok_inv in Hok as Hoks. destruct Hoks as [Hok1 Hok2].
  rewrite (seq_true (build_target w a)) by done. cbn [final].
  apply elem_of_cons in Ht as [->|Ht]; [|by apply IH].
  destruct (build_target_ok _ _ _ Hok1) as (v1 & v2 & v3 & Hls & _).
  eexists. split; [|apply (staged_binaries_dom v1 v2 v3)].
  rewrite <-Hls. apply ls_apart.
  apply (keeps_at_build_targets_in w ts ["target_releases"; a]).
  intros t' Ht'. split; [done|]. apply apart_staged. by intros ->.
Qed.

(** Steps that leave the state as it is. *)
Lemma run_steps_idle w l s :
  (∀ st s', st ∈ l → final (run st w s') = s') →
  jfinal (run_steps w l s) = s.
Proof.
  intros H. induction l as [|st l IH]; [done|].
  assert (jfinal (run_steps w l s) = s) as IH'
    by (apply IH; intros; apply H; by right).
  rewrite run_steps_cons. destruct (enabled st w); [|done].
  rewrite (H st s) by left. rewrite leave_shell_same.
  by destruct (ok (run st w s)).
Qed.

Lemma failed_toolchain_call_staging w (before after : list step) s pre t p fl post :
  (∀ st, st ∈ before → emits (λ _, False) (run st w)) →
  (∀ st s', st ∈ before → final (run st w s') = s') →
  (∀ st, st ∈ after → emits (λ e, is_toolchain e = false) (run st w)) →
  let j := run_steps w
             (before ++ Step BuildTargets (λ _, true) build_targets :: after) s in
  jevents j = pre ++ EToolchain t p fl false :: post →
  ∃ built_before rest,
    targets = built_before ++ t :: rest ∧
    ok (build_targets_in built_before w s) = true ∧
    lookup_path ["target_releases"] (fs (jfinal j))
    = lookup_path ["target_releases"]
        (fs (final (build_targets_in built_before w s))).
Proof.
  intros Hquiet Hidle Hafter j. unfold j. clear j. rewrite run_steps_app.
  assert (jevents (run_steps w before s) = []) as Hq.
  { apply Forall_False_nil, run_steps_events. intros st s' Hst.
    by apply Hquiet. }
  rewrite (run_steps_idle w before s Hidle).
  destruct (jok (run_steps w before s)).
  2: { rewrite Hq. intros E. by destruct pre. }
  rewrite run_steps_cons. cbn [enabled run id].
  destruct (ok (build_targets w s)) eqn:Hok; cbn [jsteps jok jfinal].
  - unfold jevents at 1. cbn [jsteps]. rewrite fmap_app, concat_app.
    fold (jevents (run_steps w before s)). rewrite Hq, app_nil_l.
    rewrite fmap_cons. cbn [revents concat].
    match goal with
    | |- context [concat (revents <$> jsteps ?j)] => fold (jevents j)
    end.
    intros E. exfalso.
    match type of E with
    | ?l = _ => assert (EToolchain t p fl false ∈ l) as Hin
        by (rewrite E; apply elem_of_app; right; by left)
    end.
    apply elem_of_app in Hin as [Hin|Hin].
    + apply list_elem_of_split in Hin as (l1 & l2 & E1).
      destruct (halts_build_targets_in _ _ _ _ _ _ _ _ E1) as [_ Hf].
      unfold build_targets in Hok. congruence.
    + eapply Forall_forall in Hin;
        [|apply (run_steps_events (λ e, is_toolchain e = false));
          intros st s' Hst; by apply Hafter].
      done.
  - unfold jevents at 1. cbn [jsteps]. rewrite fmap_app, concat_app.
    fold (jevents (run_steps w before s)). rewrite Hq, app_nil_l.
    cbn [fmap list_fmap revents concat]. rewrite app_nil_r. intros E.
    destruct (halts_build_targets_in _ _ _ _ _ _ _ _ E) as [-> _].
    apply build_targets_in_failed_call in E as (bb & rest & Hsplit & Hb & Hl).
    exists bb, rest. split; [exact Hsplit|]. split; [exact Hb|].
    exact Hl.
Qed.

Lemma setup_steps_idle w st s :
  st ∈ take 6 job_steps → final (run st w s) = s.
Proof.
  unfold job_steps. cbn [take]. intros H.
  repeat (apply elem_of_cons in H as [->|H]); [done..|].
  by apply elem_of_nil in H.
Qed.

Lemma targets_NoDup : NoDup targets.
Proof.
  unfold targets. apply NoDup_cons. split; [|apply NoDup_singleton].
  by rewrite list_elem_of_singleton.
Qed.

(** C5, amended.  A toolchain call that exits with an error ends the
    script of "Build targets" on the spot ([set -e]): it is the last call
    the run makes, so neither the rest of this target nor any target later
    in the loop is built; "Build targets" is the last step that runs, and
    the run fails.  The targets built before the failure keep their
    outputs: the rounds before the failing one went through, at the end
    of the run [target_releases] is as these rounds left it, and the
    staging directory of each of their targets holds the three
    binaries. *)
Theorem build_failure_aborts_run w s pre t p fl post :
  jevents (run_job w s) = pre ++ EToolchain t p fl false :: post →
  post = [] ∧
  jok (run_job w s) = false ∧
  (∃ r, last (jsteps (run_job w s)) = Some r ∧
        rid r = BuildTargets ∧ rok r = false) ∧
  ∃ built_before rest,
    targets = built_before ++ t :: rest ∧
    ok (build_targets_in built_before w s) = true ∧
    lookup_path ["target_releases"] (fs (jfinal (run_job w s)))
    = lookup_path ["target_releases"]
        (fs (final (build_targets_in built_before w s))) ∧
    ∀ t', t' ∈ built_before →
      ∃ m, ls ["target_releases"; t'] (fs (jfinal (run_job w s))) = Some m ∧
           binaries ⊆ dom m.
Proof.
  unfold run_job. rewrite job_steps_at_build. intros E.
  assert (∀ st, st ∈ take 6 job_steps → emits (λ _, False) (run st w)) as Hquiet.
  { intros st Hst. by apply job_step_emits; [eapply subseteq_take|]. }
  assert (∀ st, st ∈ drop 7 job_steps →
                emits (λ e, is_toolchain e = false) (run st w)) as Hafter.
  { intros st Hst.
    apply job_step_emits; [by eapply subseteq_drop|].
    unfold job_steps in Hst. cbn [drop] in Hst.
    repeat (apply elem_of_cons in Hst as [Heq|Hst]; [by subst st|]).
    by apply elem_of_nil in Hst. }
  destruct (failed_toolchain_call_aborts w _ _ s pre t p fl post Hquiet Hafter E)
    as (Hpost & Hjok & Hlast).
  split; [exact Hpost|]. split; [exact Hjok|]. split; [exact Hlast|].
  destruct (failed_toolchain_call_staging w _ _ s pre t p fl post Hquiet
              (λ st s', setup_steps_idle w st s') Hafter E)
    as (bb & rest & Hsplit & Hb & Hl).
  exists bb, rest. split; [exact Hsplit|]. split; [exact Hb|].
  split; [exact Hl|]. intros t' Ht'.
  assert (NoDup bb) as Hnd.
  { pose proof targets_NoDup as H. rewrite Hsplit in H.
    by apply NoDup_app in H as [? _]. }
  destruct (build_targets_in_staged_all w bb s t' Hnd Hb Ht') as (m & Hm & Hdom).
  exists m. split; [|exact Hdom]. rewrite <-Hm. unfold ls.
  rewrite !(lookup_path_app ["target_releases"] [t']). by rewrite Hl.
Qed.

Lemma build_failure_aborts_run_witness :
  jok (run_job x86_64_build_fails fresh_state) = false ∧
  (∃ r, last (jsteps (run_job x86_64_build_fails fresh_state)) = Some r ∧
        rid r = BuildTargets ∧ rok r = false) ∧
  ∃ built_before rest,
    targets = built_before ++ "x86_64-unknown-linux-musl" :: rest ∧
    ok (build_targets_in built_before x86_64_build_fails fresh_state) = true ∧
    lookup_path ["target_releases"]
      (fs (jfinal (run_job x86_64_build_fails fresh_state)))
    = lookup_path ["target_releases"]
        (fs (final (build_targets_in built_before x86_64_build_fails
                      fresh_state))) ∧
    ∀ t', t' ∈ built_before →
      ∃ m, ls ["target_releases"; t']
              (fs (jfinal (run_job x86_64_build_fails fresh_state))) = Some m ∧
           binaries ⊆ dom m.
Proof.
  destruct (build_failure_aborts_run x86_64_build_fails fresh_state
              [EToolchain "aarch64-unknown-linux-musl" "mbtiles"
                 (Some "-C strip=debuginfo") true;
               EToolchain "aarch64-unknown-linux-musl" "martin"
                 (Some "-C strip=debuginfo") true;
               EToolchain "x86_64-unknown-linux-musl" "mbtiles"
                 (Some "-C strip=debuginfo") true]
              "x86_64-unknown-linux-musl" "martin"
              (Some "-C strip=debuginfo") []) as (_ & H1 & H2 & H3).
  - vm_compute. reflexivity.
  - exact (conj H1 (conj H2 H3)).
Defined.
